(** * CPU scheduling simulator (Go): FCFS, SJF, SJF-Priority, Round-Robin

    A shallow embedding of the four schedulers of the Go program
    ([FCFSSchedule], [SJFSchedule], [SJFPrioritySchedule], [RRSchedule]) and
    of the two standard-library routines they rely on ([sort.Slice] and
    [container/heap]), then of the loading of the batch ([loadProcesses],
    [mustStrToInt]), of the printing of the chart ([outputTitle],
    [outputGantt]) and of [main], followed by their properties.

    Conventions of the embedding:
    - [int64] values are integers of [Z] in the range [-2^63, 2^63) and every
      addition and subtraction wraps around ([Int64.add], [Int64.sub]);
      Go's [int] is taken to be 64 bits wide;
    - [float64] values are IEEE-754 binary64 numbers, with the operations of
      the specification of binary floating point of the standard library
      ([spec_float], precision 53, [emax] 1024, round to nearest even);
    - a slice is a list; reading or writing out of range panics in Go, which
      the embedding makes explicit with the [Panic] outcome;
    - the output helpers ([outputTitle], [outputGantt], [outputSchedule])
      only print: a scheduler's result is the tuple of values handed to them,
      and a cell of the schedule table holds the number that [fmt.Sprint]
      renders; the helpers are embedded on their own, on a writer that is
      the text written so far, and [scheduler] runs a call and then its
      helpers, as [main] does for each of the four; the file system and
      the rendering of the table are parameters of [main]. *)

From Stdlib Require Import ZArith Lia Bool List Ascii.
From Stdlib Require Import Floats.SpecFloat.
From stdpp Require Import base list sorting strings.

Local Open Scope Z_scope.

(** ** Machine integers *)

Module Int64.

Definition min_int : Z := - 2 ^ 63.
Definition max_int : Z := 2 ^ 63 - 1.

Definition in_range (z : Z) : Prop := min_int <= z <= max_int.

(** Two's complement wrap-around of a mathematical integer. *)
Definition wrap (z : Z) : Z := (z + 2 ^ 63) mod 2 ^ 64 - 2 ^ 63.

Definition add (x y : Z) : Z := wrap (x + y).
Definition sub (x y : Z) : Z := wrap (x - y).

(** The helpers [min] and [max] of the program. *)
Definition min (a b : Z) : Z := if a <? b then a else b.
Definition max (a b : Z) : Z := if a >? b then a else b.

End Int64.

(** ** Floating point *)

Module Float64.

Definition prec : Z := 53.
Definition emax : Z := 1024.

Definition t := spec_float.

Definition zero : t := S754_zero false.
Definition add : t -> t -> t := SFadd prec emax.
Definition div : t -> t -> t := SFdiv prec emax.

(** The conversion [float64(n)] of an integer. *)
Definition of_int (n : Z) : t := binary_normalize prec emax n 0 false.

Definition is_nan (x : t) : bool :=
  match x with S754_nan => true | _ => false end.

(** The conversion [int(x)]: truncation toward zero. Go leaves the result
    undefined when the value does not fit (NaN, infinities, magnitude of
    2^63 and more); the amd64 instruction yields the least integer. *)
Definition to_int (x : t) : Z :=
  match x with
  | S754_zero _ => 0
  | S754_finite s m e =>
      let a := match e with
               | Zneg k => Z.shiftr (Zpos m) (Zpos k)
               | _ => Z.shiftl (Zpos m) e
               end in
      if a <? 2 ^ 63 then (if s then - a else a) else Int64.min_int
  | _ => Int64.min_int
  end.

End Float64.

(** ** Data model *)

Record Process := mkProcess {
  ProcessID : Z;
  ArrivalTime : Z;
  BurstDuration : Z;
  Priority : Z
}.

Record TimeSlice := mkTimeSlice {
  PID : Z;
  Start : Z;
  Stop : Z
}.

(** A row of the schedule table; the fields are named after the columns of
    the header ["ID"; "Priority"; "Burst"; "Arrival"; "Wait"; "Turnaround";
    "Exit"]. *)
Record Row := mkRow {
  row_id : Z;
  row_priority : Z;
  row_burst : Z;
  row_arrival : Z;
  row_wait : Z;
  row_turnaround : Z;
  row_exit : Z
}.

(** [make([][]string, n)]: a table of [n] rows, all [nil]. *)
Definition make_schedule (n : nat) : list (option Row) := replicate n None.

(** What a scheduler hands to the output helpers. *)
Record Output := mkOutput {
  out_gantt : list TimeSlice;
  out_schedule : list (option Row);
  out_aveWait : Float64.t;
  out_aveTurnaround : Float64.t;
  out_aveThroughput : Float64.t
}.

(** How the scheduling part of a call ends: [Done] with the values that
    the call hands to its output helpers, or [Panic]. [OutOfFuel] marks a
    loop that was cut by the step bound of the embedding. The output
    helpers, which end every scheduler, are embedded on their own:
    [scheduler] below runs a call to its end. *)
Inductive Outcome :=
| Done (o : Output)
| Panic
| OutOfFuel.

(** A call together with the contents of the caller's slice afterwards
    (a Go slice shares its backing array with the caller). *)
Record Call := mkCall {
  call_processes : list Process;
  call_outcome : Outcome
}.

(** ** First-come, first-served *)

Record FCFSState := mkFCFS {
  f_serviceTime : Z;
  f_totalWait : Float64.t;
  f_totalTurnaround : Float64.t;
  f_lastCompletion : Float64.t;
  f_waitingTime : Z;
  f_schedule : list (option Row);
  f_gantt : list TimeSlice
}.

Definition fcfs_init (n : nat) : FCFSState :=
  mkFCFS 0 Float64.zero Float64.zero Float64.zero 0 (make_schedule n) [].

(** The body of [for i := range processes], with [p = processes[i]]. *)
Definition fcfs_body (i : nat) (p : Process) (st : FCFSState) : FCFSState :=
  let waitingTime :=
    if ArrivalTime p >? 0
    then Int64.sub (f_serviceTime st) (ArrivalTime p)
    else f_waitingTime st in
  let totalWait := Float64.add (f_totalWait st) (Float64.of_int waitingTime) in
  let start := Int64.add waitingTime (ArrivalTime p) in
  let turnaround := Int64.add (BurstDuration p) waitingTime in
  let totalTurnaround :=
    Float64.add (f_totalTurnaround st) (Float64.of_int turnaround) in
  let completion :=
    Int64.add (Int64.add (BurstDuration p) (ArrivalTime p)) waitingTime in
  let lastCompletion := Float64.of_int completion in
  let schedule :=
    <[i := Some (mkRow (ProcessID p) (Priority p) (BurstDuration p)
                       (ArrivalTime p) waitingTime turnaround completion)]>
      (f_schedule st) in
  let serviceTime := Int64.add (f_serviceTime st) (BurstDuration p) in
  let gantt := f_gantt st ++ [mkTimeSlice (ProcessID p) start serviceTime] in
  mkFCFS serviceTime totalWait totalTurnaround lastCompletion waitingTime
         schedule gantt.

(** The state after the first [k] iterations of the loop. *)
Fixpoint fcfs_iter (processes : list Process) (k : nat) : FCFSState :=
  match k with
  | O => fcfs_init (length processes)
  | S k' =>
      let st := fcfs_iter processes k' in
      match processes !! k' with
      | Some p => fcfs_body k' p st
      | None => st
      end
  end.

(** The end of each scheduler: [count := float64(len(processes))], and the
    trace, the table and the three quotients [totalWait / count],
    [totalTurnaround / count] and [count / lastCompletion] go to the output
    helpers. *)
Definition averages (n : nat) (gantt : list TimeSlice)
    (schedule : list (option Row))
    (totalWait totalTurnaround lastCompletion : Float64.t) : Output :=
  let count := Float64.of_int (Z.of_nat n) in
  mkOutput gantt schedule
           (Float64.div totalWait count)
           (Float64.div totalTurnaround count)
           (Float64.div count lastCompletion).

Definition FCFSSchedule (processes : list Process) : Call :=
  let st := fcfs_iter processes (length processes) in
  mkCall processes
         (Done (averages (length processes) (f_gantt st) (f_schedule st)
                         (f_totalWait st) (f_totalTurnaround st)
                         (f_lastCompletion st))).

(** ** [sort.Slice]

    The program sorts with [sort.Slice], which is not part of its sources.
    The definitions below follow the implementation of the Go standard
    library since Go 1.19 (file [zsortfunc.go] of package [sort]): a
    pattern-defeating quicksort that sorts ranges of at most 12 elements by
    insertion, and falls back to heapsort after too many bad pivots. The
    slice is only read through [Less] and written through [Swap]. *)

Module Sort.
Section Sorting.
Local Open Scope nat_scope.

Context {A : Type}.
(** [lt x y] is the comparison the caller's closure makes of two elements. *)
Variable lt : A -> A -> bool.

(** [data.Less(i, j)] *)
Definition Less (data : list A) (i j : nat) : bool :=
  match data !! i, data !! j with
  | Some x, Some y => lt x y
  | _, _ => false
  end.

(** [data.Swap(i, j)] *)
Definition Swap (data : list A) (i j : nat) : list A :=
  match data !! i, data !! j with
  | Some x, Some y => <[i := y]> (<[j := x]> data)
  | _, _ => data
  end.

(** [for j := i; j > a && data.Less(j, j-1); j-- { data.Swap(j, j-1) }] *)
Fixpoint insertion_inner (a j : nat) (data : list A) : list A :=
  match j with
  | O => data
  | S j' =>
      if (a <? j) && Less data j j'
      then insertion_inner a j' (Swap data j j')
      else data
  end.

(** [for i := ...; i < b; i++], with [n] iterations left. *)
Fixpoint insertion_outer (a i n : nat) (data : list A) : list A :=
  match n with
  | O => data
  | S n' => insertion_outer a (S i) n' (insertion_inner a i data)
  end.

Definition insertionSort_func (data : list A) (a b : nat) : list A :=
  insertion_outer a (a + 1) (b - (a + 1)) data.

Fixpoint siftDown_loop (fuel : nat) (data : list A) (root hi first : nat)
  : list A :=
  match fuel with
  | O => data
  | S fuel' =>
      let child := 2 * root + 1 in
      if hi <=? child then data
      else
        let child :=
          if (child + 1 <? hi) && Less data (first + child) (first + child + 1)
          then child + 1 else child in
        if negb (Less data (first + root) (first + child)) then data
        else siftDown_loop fuel' (Swap data (first + root) (first + child))
                           child hi first
  end.

Definition siftDown_func (data : list A) (lo hi first : nat) : list A :=
  siftDown_loop hi data lo hi first.

(** [for i := (hi - 1) / 2; i >= 0; i--] *)
Fixpoint heap_build (i : nat) (data : list A) (hi first : nat) : list A :=
  let data' := siftDown_func data i hi first in
  match i with
  | O => data'
  | S i' => heap_build i' data' hi first
  end.

(** [for i := hi - 1; i >= 0; i--], with [n = i + 1]. *)
Fixpoint heap_drain (n : nat) (data : list A) (first : nat) : list A :=
  match n with
  | O => data
  | S i => heap_drain i (siftDown_func (Swap data first (first + i)) 0 i first)
                      first
  end.

Definition heapSort_func (data : list A) (a b : nat) : list A :=
  let first := a in
  let hi := b - a in
  heap_drain hi (heap_build ((hi - 1) / 2) data hi first) first.

(** [bits.Len] *)
Definition bits_Len (x : nat) : nat :=
  match x with O => O | _ => S (Nat.log2 x) end.

Definition nextPowerOfTwo (length : nat) : Z := (2 ^ Z.of_nat (bits_Len length))%Z.

(** The 64-bit xorshift generator. *)
Definition xorshift_Next (r : Z) : Z :=
  let r := Z.lxor r (Z.shiftl r 13 mod 2 ^ 64)%Z in
  let r := Z.lxor r (Z.shiftr r 7) in
  let r := Z.lxor r (Z.shiftl r 17 mod 2 ^ 64)%Z in
  r.

Definition breakPatterns_func (data : list A) (a b : nat) : list A :=
  let length := b - a in
  if 8 <=? length then
    let modulus := nextPowerOfTwo length in
    let idx := a + (length / 4) * 2 - 1 in
    let step (acc : Z * list A) (i : nat) :=
      let random := xorshift_Next (fst acc) in
      let other := Z.to_nat (Z.land random (modulus - 1)) in
      let other := if length <=? other then other - length else other in
      (random, Swap (snd acc) (idx - 1 + i) (a + other)) in
    snd (fold_left step [0; 1; 2] (Z.of_nat length, data))
  else data.

Inductive sortedHint := unknownHint | increasingHint | decreasingHint.

(** [order2_func]; the counter [swaps] is threaded through. *)
Definition order2_func (data : list A) (a b swaps : nat) : nat * nat * nat :=
  if Less data b a then (b, a, S swaps) else (a, b, swaps).

Definition median_func (data : list A) (a b c swaps : nat) : nat * nat :=
  let '(a, b, swaps) := order2_func data a b swaps in
  let '(b, c, swaps) := order2_func data b c swaps in
  let '(a, b, swaps) := order2_func data a b swaps in
  (b, swaps).

Definition medianAdjacent_func (data : list A) (a swaps : nat) : nat * nat :=
  median_func data (a - 1) a (a + 1) swaps.

Definition choosePivot_func (data : list A) (a b : nat) : nat * sortedHint :=
  let shortestNinther := 50 in
  let maxSwaps := 4 * 3 in
  let l := b - a in
  let swaps := 0 in
  let i := a + l / 4 * 1 in
  let j := a + l / 4 * 2 in
  let k := a + l / 4 * 3 in
  let '(j, swaps) :=
    if 8 <=? l then
      let '(i, j, k, swaps) :=
        if shortestNinther <=? l then
          let '(i, swaps) := medianAdjacent_func data i swaps in
          let '(j, swaps) := medianAdjacent_func data j swaps in
          let '(k, swaps) := medianAdjacent_func data k swaps in
          (i, j, k, swaps)
        else (i, j, k, swaps) in
      median_func data i j k swaps
    else (j, swaps) in
  if swaps =? 0 then (j, increasingHint)
  else if swaps =? maxSwaps then (j, decreasingHint)
  else (j, unknownHint).

(** [for i < j { data.Swap(i, j); i++; j-- }] *)
Fixpoint reverse_loop (fuel : nat) (data : list A) (i j : nat) : list A :=
  match fuel with
  | O => data
  | S fuel' =>
      if i <? j then reverse_loop fuel' (Swap data i j) (S i) (j - 1)
      else data
  end.

Definition reverseRange_func (data : list A) (a b : nat) : list A :=
  reverse_loop (b - a) data a (b - 1).

(** [for i <= j && cond(i) { i++ }] *)
Fixpoint scan_up (fuel : nat) (cond : nat -> bool) (i j : nat) : nat :=
  match fuel with
  | O => i
  | S fuel' => if (i <=? j) && cond i then scan_up fuel' cond (S i) j else i
  end.

(** [for i <= j && cond(j) { j-- }] *)
Fixpoint scan_down (fuel : nat) (cond : nat -> bool) (i j : nat) : nat :=
  match fuel with
  | O => j
  | S fuel' => if (i <=? j) && cond j then scan_down fuel' cond i (j - 1) else j
  end.

(** [for j := ...; j >= lo; j--] shifting the element at [j] to the left
    while it is smaller than its left neighbour. *)
Fixpoint shift_left (lo j : nat) (data : list A) : list A :=
  match j with
  | O => data
  | S j' =>
      if lo <=? j then
        if negb (Less data j j') then data
        else shift_left lo j' (Swap data j j')
      else data
  end.

(** [for j := ...; j < b; j++] shifting the greater element to the right,
    with [n] iterations left. *)
Fixpoint shift_right (n j : nat) (data : list A) : list A :=
  match n with
  | O => data
  | S n' =>
      if negb (Less data j (j - 1)) then data
      else shift_right n' (S j) (Swap data j (j - 1))
  end.

(** [for j := 0; j < maxSteps; j++], with [steps] iterations left. *)
Fixpoint partialInsertion_loop (steps : nat) (data : list A) (a b i : nat)
  : list A * bool :=
  match steps with
  | O => (data, false)
  | S steps' =>
      let i := scan_up (b - i) (fun i => negb (Less data i (i - 1))) i (b - 1) in
      if i =? b then (data, true)
      else if b - a <? 50 then (data, false)
      else
        let data := Swap data i (i - 1) in
        let data := if 2 <=? i - a then shift_left 1 (i - 1) data else data in
        let data := if 2 <=? b - i then shift_right (b - (i + 1)) (i + 1) data
                    else data in
        partialInsertion_loop steps' data a b i
  end.

Definition partialInsertionSort_func (data : list A) (a b : nat)
  : list A * bool :=
  partialInsertion_loop 5 data a b (a + 1).

Fixpoint partitionEqual_loop (fuel : nat) (data : list A) (a i j : nat)
  : list A * nat :=
  match fuel with
  | O => (data, i)
  | S fuel' =>
      let i := scan_up (S j - i) (fun i => negb (Less data a i)) i j in
      let j := scan_down (S j - i) (fun j => Less data a j) i j in
      if j <? i then (data, i)
      else partitionEqual_loop fuel' (Swap data i j) a (S i) (j - 1)
  end.

Definition partitionEqual_func (data : list A) (a b pivot : nat)
  : list A * nat :=
  let data := Swap data a pivot in
  partitionEqual_loop (b - a) data a (a + 1) (b - 1).

Fixpoint partition_loop (fuel : nat) (data : list A) (a i j : nat)
  : list A * nat :=
  match fuel with
  | O => (data, j)
  | S fuel' =>
      let i := scan_up (S j - i) (fun i => Less data i a) i j in
      let j := scan_down (S j - i) (fun j => negb (Less data j a)) i j in
      if j <? i then (data, j)
      else partition_loop fuel' (Swap data i j) a (S i) (j - 1)
  end.

Definition partition_func (data : list A) (a b pivot : nat)
  : list A * nat * bool :=
  let data := Swap data a pivot in
  let i := a + 1 in
  let j := b - 1 in
  let i := scan_up (S j - i) (fun i => Less data i a) i j in
  let j := scan_down (S j - i) (fun j => negb (Less data j a)) i j in
  if j <? i then (Swap data j a, j, true)
  else
    let data := Swap data i j in
    let '(data, j) := partition_loop (b - a) data a (S i) (j - 1) in
    (Swap data j a, j, false).

Definition maxInsertion : nat := 12.

(** [pdqsort_func]; an iteration of its loop and a recursive call both
    take one unit of [fuel]. The range shrinks at each of them, so the
    length of the slice is fuel enough. *)
Fixpoint pdqsort_func (fuel : nat) (data : list A) (a b limit : nat)
    (wasBalanced wasPartitioned : bool) : list A :=
  match fuel with
  | O => data
  | S fuel' =>
      let length := b - a in
      if length <=? maxInsertion then insertionSort_func data a b
      else if limit =? 0 then heapSort_func data a b
      else
        let '(data, limit) :=
          if negb wasBalanced then (breakPatterns_func data a b, limit - 1)
          else (data, limit) in
        let '(pivot, hint) := choosePivot_func data a b in
        let '(data, pivot, hint) :=
          match hint with
          | decreasingHint =>
              (reverseRange_func data a b, (b - 1) - (pivot - a), increasingHint)
          | _ => (data, pivot, hint)
          end in
        let '(data, sorted) :=
          match hint with
          | increasingHint =>
              if wasBalanced && wasPartitioned
              then partialInsertionSort_func data a b
              else (data, false)
          | _ => (data, false)
          end in
        if sorted then data
        else if (0 <? a) && negb (Less data (a - 1) pivot) then
          let '(data, mid) := partitionEqual_func data a b pivot in
          pdqsort_func fuel' data mid b limit wasBalanced wasPartitioned
        else
          let '(data, mid, alreadyPartitioned) := partition_func data a b pivot in
          let leftLen := mid - a in
          let rightLen := b - mid in
          let balanceThreshold := length / 8 in
          if leftLen <? rightLen then
            let data := pdqsort_func fuel' data a mid limit true true in
            pdqsort_func fuel' data (mid + 1) b limit
                         (balanceThreshold <=? leftLen) alreadyPartitioned
          else
            let data := pdqsort_func fuel' data (mid + 1) b limit true true in
            pdqsort_func fuel' data a mid limit
                         (balanceThreshold <=? rightLen) alreadyPartitioned
  end.

(** [sort.Slice(x, less)] *)
Definition Slice (data : list A) : list A :=
  let length := length data in
  let limit := bits_Len length in
  pdqsort_func (S length) data 0 length limit true true.

End Sorting.
End Sort.

(** ** The ready queue of the shortest-job-first schedulers *)

Record PriorityProcess := mkPriorityProcess {
  pp_Process : Process;
  pp_Priority : Z
}.

(** The methods of the type [PriorityQueue] of the program. *)
Module PriorityQueue.

Definition t := list PriorityProcess.

Definition Len (pq : t) : nat := length pq.

Definition Less (pq : t) (i j : nat) : bool :=
  match pq !! i, pq !! j with
  | Some x, Some y => pp_Priority x <? pp_Priority y
  | _, _ => false
  end.

Definition Swap (pq : t) (i j : nat) : t :=
  match pq !! i, pq !! j with
  | Some x, Some y => <[i := y]> (<[j := x]> pq)
  | _, _ => pq
  end.

Definition Push (pq : t) (item : PriorityProcess) : t := pq ++ [item].

(** [item := old[n-1]; *pq = old[0 : n-1]]; reading [old[-1]] panics. *)
Definition Pop (pq : t) : option (PriorityProcess * t) :=
  match last pq with
  | Some item => Some (item, removelast pq)
  | None => None
  end.

End PriorityQueue.

(** The functions of package [container/heap] the program calls, following
    the Go standard library ([heap.go]). *)
Module Heap.
Local Open Scope nat_scope.

(** [up]: [j] moves toward the root; [fuel] bounds the climb. In Go
    [(j - 1) / 2] truncates toward zero, so the parent of the root is
    the root itself. *)
Fixpoint up_loop (fuel : nat) (h : PriorityQueue.t) (j : nat)
  : PriorityQueue.t :=
  match fuel with
  | O => h
  | S fuel' =>
      let i := (j - 1) / 2 in
      if (i =? j) || negb (PriorityQueue.Less h j i) then h
      else up_loop fuel' (PriorityQueue.Swap h i j) i
  end.

Definition up (h : PriorityQueue.t) (j : nat) : PriorityQueue.t :=
  up_loop (S j) h j.

Fixpoint down_loop (fuel : nat) (h : PriorityQueue.t) (i n : nat)
  : PriorityQueue.t :=
  match fuel with
  | O => h
  | S fuel' =>
      let j1 := 2 * i + 1 in
      if n <=? j1 then h
      else
        let j2 := j1 + 1 in
        let j := if (j2 <? n) && PriorityQueue.Less h j2 j1 then j2 else j1 in
        if negb (PriorityQueue.Less h j i) then h
        else down_loop fuel' (PriorityQueue.Swap h i j) j n
  end.

Definition down (h : PriorityQueue.t) (i0 n : nat) : PriorityQueue.t :=
  down_loop n h i0 n.

(** [n := h.Len(); for i := n/2 - 1; i >= 0; i-- { down(h, i, n) }];
    the program calls it on an empty queue. *)
Definition Init (h : PriorityQueue.t) : PriorityQueue.t :=
  let n := PriorityQueue.Len h in
  fold_left (fun h i => down h i n) (rev (seq 0 (n / 2))) h.

Definition Push (h : PriorityQueue.t) (x : PriorityProcess) : PriorityQueue.t :=
  let h := PriorityQueue.Push h x in
  up h (PriorityQueue.Len h - 1).

(** [n := h.Len() - 1; h.Swap(0, n); down(h, 0, n); return h.Pop()].
    On an empty queue [n] is [-1] and [h.Swap(0, -1)] indexes out of
    range: the call panics, which is [None] here. *)
Definition Pop (h : PriorityQueue.t) : option (PriorityProcess * PriorityQueue.t) :=
  match PriorityQueue.Len h with
  | O => None
  | S n =>
      let h := PriorityQueue.Swap h 0 n in
      let h := down h 0 n in
      PriorityQueue.Pop h
  end.

End Heap.

(** [schedule[idx] = row], where [idx] is a Go integer: out of range, the
    assignment panics ([None]). *)
Definition store_row (schedule : list (option Row)) (idx : Z) (row : Row)
  : option (list (option Row)) :=
  if (0 <=? idx) && (idx <? Z.of_nat (length schedule))
  then Some (<[Z.to_nat idx := Some row]> schedule)
  else None.

(** ** Shortest-job-first and its priority variant

    [SJFSchedule] and [SJFPrioritySchedule] are the same code but for the
    key under which a process enters the ready queue; the embedding takes
    that key as a parameter. *)

Record SJFState := mkSJF {
  s_serviceTime : Z;
  s_totalWait : Float64.t;
  s_totalTurnaround : Float64.t;
  s_lastCompletion : Float64.t;
  s_waitingTime : Z;
  s_schedule : list (option Row);
  s_gantt : list TimeSlice;
  s_readyQueue : PriorityQueue.t;
  s_processCounter : nat
}.

Definition sjf_init (n : nat) : SJFState :=
  mkSJF 0 Float64.zero Float64.zero Float64.zero 0 (make_schedule n) []
        (Heap.Init []) 0.

(** The closure given to [sort.Slice]:
    [processes[i].ArrivalTime < processes[j].ArrivalTime]. *)
Definition arrival_less (x y : Process) : bool :=
  ArrivalTime x <? ArrivalTime y.

Section SJF.
Variable key : Process -> Z.

(** [for i := processCounter; i < len(processes); i++]: the processes
    that have arrived enter the ready queue; [i] and [processCounter]
    advance together. [todo] is the number of processes not yet seen. *)
Fixpoint sjf_admit (processes : list Process) (serviceTime : Z) (todo : nat)
    (readyQueue : PriorityQueue.t) (processCounter : nat)
  : PriorityQueue.t * nat :=
  match todo with
  | O => (readyQueue, processCounter)
  | S todo' =>
      match processes !! processCounter with
      | Some p =>
          if ArrivalTime p <=? serviceTime then
            sjf_admit processes serviceTime todo'
                      (Heap.Push readyQueue (mkPriorityProcess p (key p)))
                      (S processCounter)
          else (readyQueue, processCounter)
      | None => (readyQueue, processCounter)
      end
  end.

(** One iteration of [for processCounter < len(processes)]. *)
Definition sjf_body (processes : list Process) (st : SJFState)
  : option SJFState :=
  let '(readyQueue, processCounter) :=
    sjf_admit processes (s_serviceTime st)
              (length processes - s_processCounter st)
              (s_readyQueue st) (s_processCounter st) in
  match Heap.Pop readyQueue with
  | None => None
  | Some (current, readyQueue) =>
      let currentProcess := pp_Process current in
      let waitingTime :=
        Int64.sub (s_serviceTime st) (ArrivalTime currentProcess) in
      let totalWait :=
        Float64.add (s_totalWait st) (Float64.of_int waitingTime) in
      let start := Int64.add waitingTime (ArrivalTime currentProcess) in
      let turnaround := Int64.add (BurstDuration currentProcess) waitingTime in
      let totalTurnaround :=
        Float64.add (s_totalTurnaround st) (Float64.of_int turnaround) in
      let completion :=
        Int64.add (Int64.add (BurstDuration currentProcess)
                             (ArrivalTime currentProcess)) waitingTime in
      let lastCompletion := Float64.of_int completion in
      let serviceTime :=
        Int64.add (s_serviceTime st) (BurstDuration currentProcess) in
      let gantt :=
        s_gantt st ++ [mkTimeSlice (ProcessID currentProcess) start serviceTime] in
      match store_row (s_schedule st) (Z.of_nat processCounter - 1)
              (mkRow (ProcessID currentProcess) (Priority currentProcess)
                     (BurstDuration currentProcess)
                     (ArrivalTime currentProcess)
                     waitingTime turnaround completion) with
      | None => None
      | Some schedule =>
          Some (mkSJF serviceTime totalWait totalTurnaround lastCompletion
                      waitingTime schedule gantt readyQueue processCounter)
      end
  end.

(** The loop; [None] is a panic, [inl] the state when the loop was left,
    [inr] the state when the fuel ran out. *)
Fixpoint sjf_loop (fuel : nat) (processes : list Process) (st : SJFState)
  : option (SJFState + SJFState) :=
  if (s_processCounter st <? length processes)%nat then
    match fuel with
    | O => Some (inr st)
    | S fuel' =>
        match sjf_body processes st with
        | None => None
        | Some st' => sjf_loop fuel' processes st'
        end
    end
  else Some (inl st).

(** The scheduler: the slice is sorted in place, then scheduled. An
    iteration admits [k] processes and pops one, so [2 * n] iterations
    are more than the loop can make on [n] processes. *)
Definition sjf_schedule (processes : list Process) : Call :=
  let processes := Sort.Slice arrival_less processes in
  let n := length processes in
  mkCall processes
    match sjf_loop (2 * n) processes (sjf_init n) with
    | None => Panic
    | Some (inr _) => OutOfFuel
    | Some (inl st) =>
        Done (averages n (s_gantt st) (s_schedule st) (s_totalWait st)
                       (s_totalTurnaround st) (s_lastCompletion st))
    end.

End SJF.

(** [int(processes[i].BurstDuration)] *)
Definition burst_key (p : Process) : Z := BurstDuration p.

(** [int(1.0 / float64(processes[i].BurstDuration))] *)
Definition inverse_burst_key (p : Process) : Z :=
  Float64.to_int (Float64.div (Float64.of_int 1)
                              (Float64.of_int (BurstDuration p))).

Definition SJFSchedule : list Process -> Call := sjf_schedule burst_key.

Definition SJFPrioritySchedule : list Process -> Call :=
  sjf_schedule inverse_burst_key.

(** ** Round-robin *)

Definition quantum : Z := 1.

Record RRState := mkRR {
  r_serviceTime : Z;
  r_totalWait : Float64.t;
  r_totalTurnaround : Float64.t;
  r_lastCompletion : Float64.t;
  r_schedule : list (option Row);
  r_gantt : list TimeSlice;
  r_queue : list Process;
  r_processCounter : nat
}.

Definition rr_init (n : nat) : RRState :=
  mkRR 0 Float64.zero Float64.zero Float64.zero (make_schedule n) [] [] 0.

(** [for processCounter < len(processes) &&
         processes[processCounter].ArrivalTime <= serviceTime]:
    the queue receives a copy of each process that has arrived. *)
Fixpoint rr_admit (processes : list Process) (serviceTime : Z) (todo : nat)
    (queue : list Process) (processCounter : nat) : list Process * nat :=
  match todo with
  | O => (queue, processCounter)
  | S todo' =>
      match processes !! processCounter with
      | Some p =>
          if ArrivalTime p <=? serviceTime then
            rr_admit processes serviceTime todo' (queue ++ [p]) (S processCounter)
          else (queue, processCounter)
      | None => (queue, processCounter)
      end
  end.

(** The branch [if len(queue) > 0] of the loop body, for the process
    [currentProcess] taken from the front of the queue, [queue] being the
    rest of it. The burst is decremented on [currentProcess], a local copy. *)
Definition rr_dispatch (st : RRState) (currentProcess : Process)
    (queue : list Process) (processCounter : nat) : option RRState :=
  let timeSlice := Int64.min quantum (BurstDuration currentProcess) in
  let start := Int64.max (r_serviceTime st) (ArrivalTime currentProcess) in
  let turnaround :=
    Int64.add timeSlice
              (Int64.max 0 (Int64.sub start (ArrivalTime currentProcess))) in
  let totalTurnaround :=
    Float64.add (r_totalTurnaround st) (Float64.of_int turnaround) in
  let completion := Int64.add start timeSlice in
  let lastCompletion := Float64.of_int completion in
  let waitingTime :=
    Int64.max 0 (Int64.sub start (ArrivalTime currentProcess)) in
  let totalWait := Float64.add (r_totalWait st) (Float64.of_int waitingTime) in
  let remainingBurst := Int64.sub (BurstDuration currentProcess) timeSlice in
  match store_row (r_schedule st) (Int64.sub (ProcessID currentProcess) 1)
          (mkRow (ProcessID currentProcess) (Priority currentProcess)
                 timeSlice start waitingTime turnaround completion) with
  | None => None
  | Some schedule =>
      let gantt :=
        r_gantt st ++ [mkTimeSlice (ProcessID currentProcess) start completion] in
      let queue :=
        if remainingBurst >? 0 then
          queue ++ [mkProcess (ProcessID currentProcess)
                              (ArrivalTime currentProcess)
                              remainingBurst
                              (Priority currentProcess)]
        else queue in
      Some (mkRR completion totalWait totalTurnaround lastCompletion
                 schedule gantt queue processCounter)
  end.

(** One iteration of the loop. *)
Definition rr_body (processes : list Process) (st : RRState) : option RRState :=
  let '(queue, processCounter) :=
    rr_admit processes (r_serviceTime st)
             (length processes - r_processCounter st)
             (r_queue st) (r_processCounter st) in
  match queue with
  | currentProcess :: queue => rr_dispatch st currentProcess queue processCounter
  | [] =>
      Some (mkRR (Int64.add (r_serviceTime st) 1) (r_totalWait st)
                 (r_totalTurnaround st) (r_lastCompletion st) (r_schedule st)
                 (r_gantt st) [] processCounter)
  end.

(** [for len(queue) > 0 || processCounter < len(processes)] *)
Fixpoint rr_loop (fuel : nat) (processes : list Process) (st : RRState)
  : option (RRState + RRState) :=
  if (0 <? length (r_queue st))%nat
     || (r_processCounter st <? length processes)%nat then
    match fuel with
    | O => Some (inr st)
    | S fuel' =>
        match rr_body processes st with
        | None => None
        | Some st' => rr_loop fuel' processes st'
        end
    end
  else Some (inl st).

(** The number of iterations is not bounded by the size of the batch (the
    clock ticks one unit at a time while the processor idles), so the
    scheduler takes the bound on the iterations as an argument. *)
Definition RRSchedule (fuel : nat) (processes : list Process) : Call :=
  let n := length processes in
  mkCall processes
    match rr_loop fuel processes (rr_init n) with
    | None => Panic
    | Some (inr _) => OutOfFuel
    | Some (inl st) =>
        Done (averages n (r_gantt st) (r_schedule st) (r_totalWait st)
                       (r_totalTurnaround st) (r_lastCompletion st))
    end.

(** * Loading and printing

    The rest of the program: the helpers [min] and [max] are [Int64.min]
    and [Int64.max] above; the loader of the batch and the helpers that
    print a schedule follow. *)

(** ** Calls that may end the program

    A call returns, or ends the program with [os.Exit], or panics. *)

Inductive Run (A : Type) : Type :=
| Returns (a : A)
| Exits (status : Z)
| Panics.

Arguments Returns {A} a.
Arguments Exits {A} status.
Arguments Panics {A}.

#[global] Instance Run_ret : MRet Run := fun A a => Returns a.

#[global] Instance Run_bind : MBind Run := fun A B f m =>
  match m with
  | Returns a => f a
  | Exits status => Exits status
  | Panics => Panics
  end.

(** [l[i]], which panics out of range. *)
Definition index {A : Type} (l : list A) (i : nat) : Run A :=
  match l !! i with
  | Some x => Returns x
  | None => Panics
  end.

(** ** Decimal numbers: [fmt.Sprint] and [strconv.ParseInt]

    A Go string is a sequence of bytes, and [len] counts them: a [string]
    here, with [String.length]. *)

(** [byte('0' + d)] *)
Definition digit_char (d : Z) : ascii := ascii_of_nat (48 + Z.to_nat d).

(** The loop of [fmtInteger] in package [fmt], which fills the buffer from
    its end: [for u >= 10 { next := u / 10; buf[i] = byte('0' + u - next*10);
    u = next }], then the leading digit. A [uint64] has at most 20 digits. *)
Fixpoint fmt_digits (fuel : nat) (u : Z) (buf : string) : string :=
  match fuel with
  | O => buf
  | S fuel' =>
      if 10 <=? u then
        let next := u / 10 in
        fmt_digits fuel' next (String (digit_char (u - next * 10)) buf)
      else String (digit_char u) buf
  end.

(** [fmt.Sprint(v)] for [v] of type [int64]. *)
Definition Sprint (v : Z) : string :=
  let negative := v <? 0 in
  let u := if negative then - v else v in
  let buf := fmt_digits 20 u "" in
  if negative then String "-" buf else buf.

(** The errors of package [strconv]. *)
Inductive NumError := ErrSyntax | ErrRange.

Definition maxUint64 : Z := 2 ^ 64 - 1.

(** The value of a decimal digit; in base 10 [ParseUint] gives a syntax
    error on every other byte (letters are digits of value 10 and more,
    which the base excludes, and the underscore needs base 0). *)
Definition digit_of (c : ascii) : option Z :=
  let b := Z.of_nat (nat_of_ascii c) in
  if (48 <=? b) && (b <=? 57) then Some (b - 48) else None.

(** The loop of [strconv.ParseUint(s, 10, 64)] over the bytes of [s]. The
    sum [n + d] wraps around in Go, which the test [n1 < n] detects: here
    it is a sum of [Z] that exceeds [maxUint64]. *)
Fixpoint ParseUint_loop (s : string) (n : Z) : Z * option NumError :=
  match s with
  | EmptyString => (n, None)
  | String c s' =>
      match digit_of c with
      | None => (0, Some ErrSyntax)
      | Some d =>
          if maxUint64 / 10 + 1 <=? n then (maxUint64, Some ErrRange)
          else
            let n := n * 10 in
            let n1 := n + d in
            if maxUint64 <? n1 then (maxUint64, Some ErrRange)
            else ParseUint_loop s' n1
      end
  end.

Definition ParseUint (s : string) : Z * option NumError :=
  match s with
  | EmptyString => (0, Some ErrSyntax)
  | _ => ParseUint_loop s 0
  end.

(** [strconv.ParseInt(s, 10, 64)] *)
Definition ParseInt (s : string) : Z * option NumError :=
  match s with
  | EmptyString => (0, Some ErrSyntax)
  | String c rest =>
      let '(neg, s) :=
        if Ascii.eqb c "+" then (false, rest)
        else if Ascii.eqb c "-" then (true, rest)
        else (false, s) in
      match ParseUint s with
      | (_, Some ErrSyntax) => (0, Some ErrSyntax)
      | (un, _) =>
          let cutoff := 2 ^ 63 in
          if negb neg && (cutoff <=? un) then (cutoff - 1, Some ErrRange)
          else if neg && (cutoff <? un) then (- cutoff, Some ErrRange)
          else (if neg then - un else un, None)
      end
  end.

(** ** Loading processes *)

(** [mustStrToInt]: on an error of [ParseInt] the program prints it and
    ends with [os.Exit(1)]. *)
Definition mustStrToInt (s : string) : Run Z :=
  match ParseInt s with
  | (i, None) => Returns i
  | (_, Some _) => Exits 1
  end.

Definition set_ProcessID (p : Process) (v : Z) : Process :=
  mkProcess v (ArrivalTime p) (BurstDuration p) (Priority p).

Definition set_ArrivalTime (p : Process) (v : Z) : Process :=
  mkProcess (ProcessID p) v (BurstDuration p) (Priority p).

Definition set_BurstDuration (p : Process) (v : Z) : Process :=
  mkProcess (ProcessID p) (ArrivalTime p) v (Priority p).

Definition set_Priority (p : Process) (v : Z) : Process :=
  mkProcess (ProcessID p) (ArrivalTime p) (BurstDuration p) v.

(** The body of [for i := range rows] of [loadProcesses], for the row
    [rows[i]] and the element [processes[i]]. *)
Definition load_row (row : list string) (p : Process) : Run Process :=
  field ← index row 0;
  v ← mustStrToInt field;
  let p := set_ProcessID p v in
  field ← index row 1;
  v ← mustStrToInt field;
  let p := set_BurstDuration p v in
  field ← index row 2;
  v ← mustStrToInt field;
  let p := set_ArrivalTime p v in
  if (length row =? 4)%nat then
    field ← index row 3;
    v ← mustStrToInt field;
    Returns (set_Priority p v)
  else Returns p.

(** The loop, from the row of index [i] on. *)
Fixpoint load_rows (rows : list (list string)) (i : nat)
    (processes : list Process) : Run (list Process) :=
  match rows with
  | [] => Returns processes
  | row :: rows' =>
      p ← index processes i;
      p ← load_row row p;
      load_rows rows' (S i) (<[i := p]> processes)
  end.

(** [loadProcesses], given what [csv.NewReader(r).ReadAll()] returns: the
    records of the file, or an error, which is its message here. *)
Definition loadProcesses (read : list (list string) + string)
  : Run (list Process + string) :=
  match read with
  | inr err => Returns (inr (err +:+ ": reading CSV"))
  | inl rows =>
      let processes := replicate (length rows) (mkProcess 0 0 0 0) in
      processes ← load_rows rows 0 processes;
      Returns (inl processes)
  end.

(** ** Output helpers

    The helpers write to an [io.Writer] and discard the errors of the
    writes: the writer is the string of the bytes written so far. *)

Definition newline : string := String "010" "".

Definition tab : string := String "009" "".

(** [fmt.Fprint(w, a...)] on operands that are all strings: no space is
    put between them. *)
Definition Fprint (w : string) (a : list string) : string :=
  w +:+ String.concat "" a.

(** [fmt.Fprintln(w, a...)]: the operands are separated by spaces, and a
    newline ends the line. *)
Definition Fprintln (w : string) (a : list string) : string :=
  w +:+ String.concat " " a +:+ newline.

(** [strings.Repeat(s, count)], which panics on a negative count. *)
Definition Repeat (s : string) (count : Z) : Run string :=
  if count <? 0 then Panics
  else Returns (String.concat "" (replicate (Z.to_nat count) s)).

Definition len (s : string) : Z := Z.of_nat (String.length s).

Definition outputTitle (w : string) (title : string) : Run string :=
  rule ← Repeat "-" (len title * 2);
  let w := Fprintln w [rule] in
  indent ← Repeat " " (len title ÷ 2);
  let w := Fprintln w [indent; title] in
  rule ← Repeat "-" (len title * 2);
  Returns (Fprintln w [rule]).

(** The first loop of [outputGantt]: a cell for each interval. The
    quotient of Go's integers truncates toward zero. *)
Fixpoint gantt_cells (w : string) (gantt : list TimeSlice) : Run string :=
  match gantt with
  | [] => Returns w
  | ts :: gantt' =>
      let pid := Sprint (PID ts) in
      padding ← Repeat " " ((8 - len pid) ÷ 2);
      gantt_cells (Fprint w [padding; pid; padding; "|"]) gantt'
  end.

(** The second loop: the start of each interval, and the end of the last
    one ([len(gantt)-1 == i]). *)
Fixpoint gantt_times (w : string) (gantt : list TimeSlice) : string :=
  match gantt with
  | [] => w
  | ts :: gantt' =>
      let w := Fprint w [Sprint (Start ts); tab] in
      let w :=
        match gantt' with
        | [] => Fprint w [Sprint (Stop ts)]
        | _ => w
        end in
      gantt_times w gantt'
  end.

Definition outputGantt (w : string) (gantt : list TimeSlice) : Run string :=
  let w := Fprintln w ["Gantt schedule"] in
  let w := Fprint w ["|"] in
  w ← gantt_cells w gantt;
  let w := Fprintln w [] in
  let w := gantt_times w gantt in
  Returns (w +:+ newline +:+ newline).

(** ** The program

    A scheduler computes its schedule and then writes the title, the chart
    and the table. [outputSchedule] renders the table with the package
    [tablewriter], which is not part of the sources: what it writes is a
    parameter here. The file system is a parameter too: [os_Open] gives
    for a path an error or a file, and of a file the program uses what
    [csv.NewReader(f).ReadAll()] reads from it and the error of
    [f.Close()], if there is one. *)

Record File := mkFile {
  file_records : list (list string) + string;
  file_close : option string
}.

Section Program.

Variable os_Open : string -> File + string.

Variable outputSchedule :
  string -> list (option Row) -> Float64.t -> Float64.t -> Float64.t -> string.

Definition output (w title : string) (o : Output) : Run string :=
  w ← outputTitle w title;
  w ← outputGantt w (out_gantt o);
  Returns (outputSchedule w (out_schedule o) (out_aveWait o)
                          (out_aveTurnaround o) (out_aveThroughput o)).

(** A scheduler called on the writer [w], to its end: the schedule is
    computed, then written. The result is what the call has written when
    it returns. [None] marks a loop that was cut by the step bound of the
    embedding. *)
Definition scheduler (w title : string) (c : Call) : option (Run string) :=
  match call_outcome c with
  | Done o => Some (output w title o)
  | Panic => Some Panics
  | OutOfFuel => None
  end.

(** The four calls of [main], on the one slice [processes]: each scheduler
    receives the slice as the one before it left it. *)
Definition schedulers (fuel : nat) (processes : list Process) (w : string)
  : option (Run string) :=
  let fcfs := FCFSSchedule processes in
  match scheduler w "First-come, first-serve" fcfs with
  | Some (Returns w) =>
      let sjf := SJFSchedule (call_processes fcfs) in
      match scheduler w "Shortest-job-first" sjf with
      | Some (Returns w) =>
          let priority := SJFPrioritySchedule (call_processes sjf) in
          match scheduler w "Priority" priority with
          | Some (Returns w) =>
              let rr := RRSchedule fuel (call_processes priority) in
              scheduler w "Round-robin" rr
          | stopped => stopped
          end
      | stopped => stopped
      end
  | stopped => stopped
  end.

(** [openProcessingFile(args...)]: the file, or the error that [main]
    hands to [log.Fatal]. The function [closeFn] that it returns with the
    file is [closeFile] below. *)
Definition openProcessingFile (args : list string) : File + string :=
  match args with
  | [_; path] =>
      match os_Open path with
      | inl f => inl f
      | inr err => inr (err +:+ ": error opening scheduling file")
      end
  | _ => inr "invalid args: must give a scheduling file to process"
  end.

(** [closeFn]: [log.Fatalf] exits with status 1 when [f.Close()] fails. *)
Definition closeFile (f : File) : Run unit :=
  match file_close f with
  | Some err => Exits 1
  | None => Returns tt
  end.

(** [defer closeFile()]: the deferred call runs when [main] returns and
    when it panics, not when the program exits; an exit in the deferred
    call ends a program that was panicking. *)
Definition deferred (closing : Run unit) (body : option (Run string))
  : option (Run string) :=
  match body with
  | Some (Returns out) => Some (closing ≫= fun _ => Returns out)
  | Some Panics =>
      Some match closing with
           | Exits status => Exits status
           | _ => Panics
           end
  | stopped => stopped
  end.

(** [main], with [os.Args] and what [os.Stdout] holds: [log.Fatal] exits
    with status 1. *)
Definition main (fuel : nat) (args : list string) (w : string)
  : option (Run string) :=
  match openProcessingFile args with
  | inr err => Some (Exits 1)
  | inl f =>
      deferred (closeFile f)
        match loadProcesses (file_records f) with
        | Returns (inl processes) => schedulers fuel processes w
        | Returns (inr err) => Some (Exits 1)
        | Exits status => Some (Exits status)
        | Panics => Some Panics
        end
  end.

End Program.

(** * Vocabulary of the properties *)

(** ** Outcomes *)

(** The result of a call whose scheduling part came to its end: the
    values that the call hands to its output helpers. *)
Definition returned (c : Call) : option Output :=
  match call_outcome c with
  | Done o => Some o
  | _ => None
  end.

Definition out_of_fuel {S : Type} (r : option (S + S)) : Prop :=
  exists s, r = Some (inr s).

(** ** Batches of the examples *)

(** The two batches of the worked examples. *)
Definition batch_two_at_zero : list Process :=
  [mkProcess 1 0 5 0; mkProcess 2 0 3 0].

Definition batch_round_robin : list Process :=
  [mkProcess 1 0 3 0; mkProcess 2 1 2 0].

(** The number 2.5 as a [float64]. *)
Definition two_and_a_half : Float64.t :=
  Float64.div (Float64.of_int 5) (Float64.of_int 2).

(** The trace that the specification expects of the round-robin example. *)
Definition expected_round_robin_trace : list TimeSlice :=
  [mkTimeSlice 1 0 1; mkTimeSlice 1 1 2; mkTimeSlice 2 2 3; mkTimeSlice 1 3 4].

(** A batch whose only process arrives at time 5, and one whose second
    process arrives after the first has finished. *)
Definition batch_late_arrival : list Process := [mkProcess 1 5 3 0].

Definition batch_idle_gap : list Process :=
  [mkProcess 1 0 1 0; mkProcess 2 5 1 0].

(** A batch with a duplicated id: the ids stay within the table, and the
    row of index 1 is never written. *)
Definition batch_duplicate_id : list Process :=
  [mkProcess 1 0 1 0; mkProcess 1 0 1 0].

(** Thirteen processes: the first arrives at time 1, the others at time 0. *)
Definition batch_thirteen : list Process :=
  mkProcess 1 1 1 0
  :: map (fun id => mkProcess id 0 1 0) [2; 3; 4; 5; 6; 7; 8; 9; 10; 11; 12; 13].

(** A batch that is out of arrival order. *)
Definition batch_out_of_order : list Process :=
  [mkProcess 1 1 1 0; mkProcess 2 0 1 0].

(** ** Round-robin: pending work *)

(** A descriptor whose fields are [int64] values. *)
Definition valid_process (p : Process) : Prop :=
  Int64.in_range (ProcessID p) /\ Int64.in_range (ArrivalTime p)
  /\ Int64.in_range (BurstDuration p) /\ Int64.in_range (Priority p).

(** The id of [p] is outside [1 .. n]. *)
Definition id_outside (n : nat) (p : Process) : Prop :=
  ProcessID p < 1 \/ Z.of_nat n < ProcessID p.

(** The processes still to be served: the queue, then those not admitted. *)
Definition rr_pending (processes : list Process) (st : RRState) : list Process :=
  r_queue st ++ drop (r_processCounter st) processes.

(** The dispatches a process still needs: one for each unit of its burst,
    and one when it has none. *)
Definition dispatches_of (p : Process) : nat :=
  Z.to_nat (Z.max 1 (BurstDuration p)).

Fixpoint dispatches (l : list Process) : nat :=
  match l with
  | [] => O
  | p :: l' => (dispatches_of p + dispatches l')%nat
  end.

(** The time left on the clock before it wraps around. *)
Definition clock_room (st : RRState) : nat :=
  Z.to_nat (Int64.max_int - r_serviceTime st).

Record rr_inv (processes : list Process) (st : RRState) : Prop := mk_rr_inv {
  inv_counter : (r_processCounter st <= length processes)%nat;
  inv_schedule : length (r_schedule st) = length processes;
  inv_clock : Int64.in_range (r_serviceTime st);
  inv_queue : Forall valid_process (r_queue st)
}.

(** ** Order of arrival *)

(** Ascending arrival times. *)
Definition arrival_sorted (l : list Process) : Prop :=
  StronglySorted (fun p q => ArrivalTime p <= ArrivalTime q) l.

(** Descending arrival times, for a prefix held in reverse. *)
Definition arrival_desc (l : list Process) : Prop :=
  StronglySorted (fun p q => ArrivalTime q <= ArrivalTime p) l.

(** The processes that arrive at time [a], in the order of the list. *)
Definition arriving_at (a : Z) (l : list Process) : list Process :=
  List.filter (fun p => ArrivalTime p =? a) l.

(** [l'] keeps the processes with equal arrival times in the order they
    have in [l]. *)
Definition ties_keep_order (l l' : list Process) : Prop :=
  forall a, arriving_at a l' = arriving_at a l.

(** Insertion of [x] in a prefix that is held in reverse: [x] passes the
    elements it is smaller than and stops at the first one it is not. *)
Fixpoint ins_rev {A : Type} (lt : A -> A -> bool) (x : A) (rprefix : list A)
  : list A :=
  match rprefix with
  | [] => [x]
  | y :: r => if lt x y then y :: ins_rev lt x r else x :: y :: r
  end.

(** The insertion sort, as a fold over the slice. *)
Definition insertion_fold {A : Type} (lt : A -> A -> bool) (data acc : list A)
  : list A :=
  fold_left (fun acc x => ins_rev lt x acc) data acc.

(** ** Rows of the schedule table *)

(** The row shows the descriptor of [p]. *)
Definition row_of_process (p : Process) (r : Row) : Prop :=
  row_id r = ProcessID p /\ row_priority r = Priority p
  /\ row_burst r = BurstDuration p /\ row_arrival r = ArrivalTime p.

(** [completion == arrivalTime + waitingTime + burstDuration], in [int64]. *)
Definition completion_identity (p : Process) (r : Row) : Prop :=
  row_exit r
  = Int64.add (Int64.add (ArrivalTime p) (row_wait r)) (BurstDuration p).

(** A row of the non-preemptive schedulers. *)
Definition row_of_batch (processes : list Process) (r : Row) : Prop :=
  exists p, p ∈ processes /\ row_of_process p r /\ completion_identity p r.


Definition rows_satisfy (P : Row -> Prop) (schedule : list (option Row)) : Prop :=
  Forall (fun row => forall r, row = Some r -> P r) schedule.

Record sjf_inv (processes : list Process) (st : SJFState) : Prop := mk_sjf_inv {
  sinv_counter : (s_processCounter st <= length processes)%nat;
  sinv_length : length (s_schedule st) = length processes;
  sinv_queue : Forall (fun pp => pp_Process pp ∈ processes) (s_readyQueue st);
  sinv_rows : rows_satisfy (row_of_batch processes) (s_schedule st)
}.

(** An iteration of the shortest-job-first loop admits some processes and
    pops one: this number decreases. *)
Definition sjf_measure (processes : list Process) (st : SJFState) : nat :=
  (2 * (length processes - s_processCounter st) + length (s_readyQueue st))%nat.

(** [q] is a copy of a process of the batch, up to its burst. *)
Definition copy_of (processes : list Process) (q : Process) : Prop :=
  exists p, p ∈ processes /\ ProcessID q = ProcessID p
            /\ ArrivalTime q = ArrivalTime p /\ Priority q = Priority p.




(** ** Ranges of a slice *)

(** The key of the element at index [i], and 0 out of range. *)
Definition key_at {A : Type} (key : A -> Z) (data : list A) (i : nat) : Z :=
  match data !! i with
  | Some x => key x
  | None => 0
  end.

(** [data'] holds the elements of [data], and differs from it inside the
    range [a, b) at most. *)
Definition frame {A : Type} (a b : nat) (data data' : list A) : Prop :=
  length data' = length data
  /\ (forall i, (i < a \/ b <= i)%nat -> data' !! i = data !! i)
  /\ data' ≡ₚ data.

(** The keys of the range [a, b) are in ascending order. *)
Definition sorted_range {A : Type} (key : A -> Z) (a b : nat) (data : list A)
  : Prop :=
  forall i j, (a <= i)%nat -> (i <= j)%nat -> (j < b)%nat ->
              key_at key data i <= key_at key data j.

(** No key of the range [a, b) is below the key just before the range. *)
Definition guarded {A : Type} (key : A -> Z) (a b : nat) (data : list A)
  : Prop :=
  forall i, (1 <= a)%nat -> (a <= i)%nat -> (i < b)%nat ->
            key_at key data (a - 1) <= key_at key data i.

(** The key at [mid] is no less than the keys of [a, mid) and no greater
    than the keys after it, up to [b]. *)
Definition pivot_at {A : Type} (key : A -> Z) (a mid b : nat) (data : list A)
  : Prop :=
  (forall k, (a <= k)%nat -> (k < mid)%nat ->
             key_at key data k <= key_at key data mid)
  /\ (forall k, (mid < k)%nat -> (k < b)%nat ->
                key_at key data mid <= key_at key data k).

(** The elements of the range [a, b). *)
Definition range {A : Type} (a b : nat) (data : list A) : list A :=
  take (b - a) (drop a data).

(** The node [i] of the heap laid out from [first] on, of [hi] nodes, is
    not below its children. *)
Definition heap_at {A : Type} (key : A -> Z) (d : list A) (hi first i : nat)
  : Prop :=
  ((2 * i + 1 < hi)%nat ->
   key_at key d (first + (2 * i + 1)) <= key_at key d (first + i))
  /\ ((2 * i + 2 < hi)%nat ->
      key_at key d (first + (2 * i + 2)) <= key_at key d (first + i)).

(** ** Decimal numbers *)

(** The number of decimal digits that [fmt_digits] writes. *)
Fixpoint ndigits (fuel : nat) (u : Z) : nat :=
  match fuel with
  | O => O
  | S fuel' => if 10 <=? u then S (ndigits fuel' (u / 10)) else 1%nat
  end.

(** The number that a string of decimal digits denotes, after the digits
    of [n]; [None] when a byte is not a digit. *)
Fixpoint decimal_value (s : string) (n : Z) : option Z :=
  match s with
  | EmptyString => Some n
  | String c s' =>
      match digit_of c with
      | Some d => decimal_value s' (n * 10 + d)
      | None => None
      end
  end.

(** The number that a string denotes: an optional sign, then one decimal
    digit or more. *)
Definition signed_decimal (s : string) : option Z :=
  match s with
  | EmptyString => None
  | String c rest =>
      if Ascii.eqb c "+" then
        match rest with
        | EmptyString => None
        | _ => decimal_value rest 0
        end
      else if Ascii.eqb c "-" then
        match rest with
        | EmptyString => None
        | _ => option_map Z.opp (decimal_value rest 0)
        end
      else decimal_value s 0
  end.

(** ** Records of the file *)

(** The record that shows the process [p]: id, burst, arrival, priority. *)
Definition record_of (p : Process) : list string :=
  [Sprint (ProcessID p); Sprint (BurstDuration p); Sprint (ArrivalTime p);
   Sprint (Priority p)].

(** The process that a record denotes, when its fields are numbers. *)
Definition process_of (row : list string) (p : Process) : Prop :=
  (3 <= length row)%nat
  /\ (row !! 0%nat) ≫= signed_decimal = Some (ProcessID p)
  /\ (row !! 1%nat) ≫= signed_decimal = Some (BurstDuration p)
  /\ (row !! 2%nat) ≫= signed_decimal = Some (ArrivalTime p)
  /\ (if (length row =? 4)%nat
      then (row !! 3%nat) ≫= signed_decimal = Some (Priority p)
      else Priority p = 0)
  /\ valid_process p.

(** ** The Gantt chart *)

(** A process id whose decimal form has ten bytes or more. *)
Definition wide_pid (ts : TimeSlice) : Prop :=
  PID ts <= - 100000000 \/ 1000000000 <= PID ts.

(** ** Traces *)

(** The sum of the bursts of the processes of [l]. *)
Fixpoint total_burst (l : list Process) : Z :=
  match l with
  | [] => 0
  | p :: l' => BurstDuration p + total_burst l'
  end.

(** The intervals of [gantt] follow one another from time [t] to time
    [t_end]: each one starts when the one before it stops. *)
Fixpoint contiguous (t : Z) (gantt : list TimeSlice) (t_end : Z) : Prop :=
  match gantt with
  | [] => t = t_end
  | ts :: gantt' => Start ts = t /\ contiguous (Stop ts) gantt' t_end
  end.

(** The interval [ts] is a run of the process [p] to its end. *)
Definition runs (ts : TimeSlice) (p : Process) : Prop :=
  PID ts = ProcessID p /\ Stop ts = Int64.add (Start ts) (BurstDuration p).

(** ** The shortest-job-first loop *)

(** What the loop of the shortest-job-first schedulers keeps, on the
    sorted slice [sorted]: the processes [ran] have run, one interval
    each, in a chart that is contiguous from time 0 to the clock; with
    those of the ready queue they are the processes admitted so far. *)
Definition sjf_trace (sorted : list Process) (st : SJFState)
    (ran : list Process) : Prop :=
  Int64.in_range (s_serviceTime st)
  /\ (s_processCounter st <= length sorted)%nat
  /\ Forall2 runs (s_gantt st) ran
  /\ contiguous 0 (s_gantt st) (s_serviceTime st)
  /\ ran ++ map pp_Process (s_readyQueue st)
     ≡ₚ take (s_processCounter st) sorted.

(** ** The ready queue as a heap *)

(** The ready queue is in heap order: no entry has a smaller priority
    value than its parent, the entry of index [i] being the parent of
    those of indices [2i + 1] and [2i + 2]. *)
Definition heap_ordered (pq : list PriorityProcess) : Prop :=
  forall i j x y,
    (j = 2 * i + 1 \/ j = 2 * i + 2)%nat ->
    pq !! i = Some x -> pq !! j = Some y ->
    pp_Priority x <= pp_Priority y.

(** The order of the ready queue, turned upside down: the heap of
    [container/heap] keeps the least entry at the root, the heap of
    [sort] the greatest. *)
Definition rank (pp : PriorityProcess) : Z := - pp_Priority pp.

Definition rank_less (x y : PriorityProcess) : bool :=
  pp_Priority y <? pp_Priority x.

(** Every entry of the ready queue holds the key of its process. *)
Definition keyed (key : Process -> Z) (pq : list PriorityProcess) : Prop :=
  Forall (fun pp => pp_Priority pp = key (pp_Process pp)) pq.

(** The interval of index [k] went to a process whose key is not above
    the key of [q], if [q] had arrived when the interval started. *)
Definition shorter_than (key : Process -> Z) (gantt : list TimeSlice)
    (ran : list Process) (k : nat) (q : Process) : Prop :=
  forall ts p,
    gantt !! k = Some ts -> ran !! k = Some p ->
    ArrivalTime q <= Start ts -> key p <= key q.

(** Shortest job first: no process runs before one of a smaller key that
    had arrived when it started. *)
Definition shortest_first (key : Process -> Z) (gantt : list TimeSlice)
    (ran : list Process) : Prop :=
  forall k k' q,
    (k < k')%nat -> ran !! k' = Some q -> shorter_than key gantt ran k q.

(** What the loop keeps of the order of the dispatches: the ready queue
    is a heap on the keys, and the processes that have run went before
    those that wait in the queue or have not been admitted. *)
Definition sjf_order (key : Process -> Z) (sorted : list Process)
    (st : SJFState) (ran : list Process) : Prop :=
  heap_ordered (s_readyQueue st)
  /\ keyed key (s_readyQueue st)
  /\ shortest_first key (s_gantt st) ran
  /\ forall k q,
       q ∈ map pp_Process (s_readyQueue st)
           ++ drop (s_processCounter st) sorted ->
       shorter_than key (s_gantt st) ran k q.

(** ** The round-robin loop *)

(** The number of intervals of the chart that show the id [id]. *)
Definition slices_of (id : Z) (gantt : list TimeSlice) : nat :=
  length (List.filter (fun ts => PID ts =? id) gantt).

(** The dispatches that the processes of id [id] need. *)
Definition work_of (id : Z) (l : list Process) : nat :=
  dispatches (List.filter (fun p => ProcessID p =? id) l).

(** The id of [p] is an index of the table, from 1. *)
Definition id_inside (n : nat) (p : Process) : Prop :=
  1 <= ProcessID p <= Z.of_nat n.

(** The intervals are in the order of time and do not overlap. *)
Definition in_time_order (gantt : list TimeSlice) : Prop :=
  forall k ts ts',
    gantt !! k = Some ts -> gantt !! S k = Some ts' -> Stop ts <= Start ts'.

(** What the loop of round-robin keeps of the count of the dispatches of
    the processes of id [id]. *)
Definition rr_count (processes : list Process) (id : Z) (st : RRState)
  : Prop :=
  rr_inv processes st
  /\ (slices_of id (r_gantt st) + work_of id (rr_pending processes st)
      = work_of id processes)%nat.

(** What the loop keeps of the ids: the table has a row for each process
    still to be served. *)
Definition rr_ids (processes : list Process) (st : RRState) : Prop :=
  rr_inv processes st
  /\ Forall (id_inside (length processes)) (rr_pending processes st).

(** The interval [ts] is one unit of time of a process of the batch that
    has arrived. *)
Definition unit_slice (processes : list Process) (ts : TimeSlice) : Prop :=
  Stop ts = Start ts + 1
  /\ exists p, p ∈ processes /\ ProcessID p = PID ts
               /\ ArrivalTime p <= Start ts.

(** What the loop of round-robin keeps of the clock, on a batch of
    positive bursts whose arrival times are between 0 and [A]. *)
Definition rr_timing (processes : list Process) (A : Z) (st : RRState)
  : Prop :=
  rr_inv processes st
  /\ Forall (fun q => 1 <= BurstDuration q) (rr_pending processes st)
  /\ Forall (fun q => ArrivalTime q <= r_serviceTime st) (r_queue st)
  /\ Forall (copy_of processes) (r_queue st)
  /\ 0 <= r_serviceTime st
  /\ (dispatches (rr_pending processes st) <= dispatches processes)%nat
  /\ r_serviceTime st + Z.of_nat (dispatches (rr_pending processes st))
     <= A + Z.of_nat (dispatches processes)
  /\ Forall (unit_slice processes) (r_gantt st)
  /\ Forall (fun ts => Stop ts <= r_serviceTime st) (r_gantt st)
  /\ in_time_order (r_gantt st).

(** A process whose id has a decimal form of ten bytes or more. *)
Definition wide_id (p : Process) : Prop :=
  ProcessID p <= - 100000000 \/ 1000000000 <= ProcessID p.

(** ** Rows and the chart *)





(** * Properties *)

(** ** Machine integers *)

Module Int64Facts.

Lemma wrap_in_range z : Int64.in_range (Int64.wrap z).
Proof.
  unfold Int64.in_range, Int64.wrap, Int64.min_int, Int64.max_int.
  pose proof (Z.mod_pos_bound (z + 2 ^ 63) (2 ^ 64)). lia.
Qed.

Lemma wrap_small z : Int64.in_range z -> Int64.wrap z = z.
Proof.
  unfold Int64.in_range, Int64.wrap, Int64.min_int, Int64.max_int. intros H.
  rewrite Z.mod_small; lia.
Qed.

Lemma wrap_add_l x y : Int64.wrap (Int64.wrap x + y) = Int64.wrap (x + y).
Proof.
  unfold Int64.wrap. f_equal.
  replace ((x + 2 ^ 63) mod 2 ^ 64 - 2 ^ 63 + y + 2 ^ 63)
    with ((x + 2 ^ 63) mod 2 ^ 64 + y) by lia.
  rewrite Zplus_mod_idemp_l. f_equal. lia.
Qed.


Lemma add_in_range x y : Int64.in_range (Int64.add x y).
Proof. apply wrap_in_range. Qed.

Lemma sub_in_range x y : Int64.in_range (Int64.sub x y).
Proof. apply wrap_in_range. Qed.

(** [burst + arrival + wait] and [arrival + wait + burst] are the same
    64-bit sum. *)
Lemma add_rotate b a w :
  Int64.add (Int64.add b a) w = Int64.add (Int64.add a w) b.
Proof.
  unfold Int64.add. rewrite !wrap_add_l. f_equal. lia.
Qed.



Lemma max_ge_l a b : a <= Int64.max a b.
Proof. unfold Int64.max. destruct (Z.gtb_spec a b); lia. Qed.


End Int64Facts.

(** ** First-come, first-served *)

Section FCFSFacts.
Variable processes : list Process.

Lemma fcfs_schedule_length k :
  length (f_schedule (fcfs_iter processes k)) = length processes.
Proof.
  induction k as [|k IH]; simpl.
  - apply length_replicate.
  - destruct (processes !! k); [|exact IH].
    simpl. rewrite length_insert. exact IH.
Qed.

Lemma fcfs_gantt_length k :
  (k <= length processes)%nat ->
  length (f_gantt (fcfs_iter processes k)) = k.
Proof.
  induction k as [|k IH]; intros Hk; simpl; [reflexivity|].
  destruct (lookup_lt_is_Some_2 processes k) as [p Hp]; [lia|].
  rewrite Hp. simpl. rewrite length_app, IH by lia. simpl. lia.
Qed.

(** Later iterations leave the rows and the slices of earlier ones. *)
Lemma fcfs_schedule_stable i k :
  (i < k)%nat ->
  f_schedule (fcfs_iter processes k) !! i
  = f_schedule (fcfs_iter processes (S i)) !! i.
Proof.
  induction k as [|k IH]; intros Hik; [lia|].
  destruct (decide (i = k)) as [->|Hne]; [reflexivity|].
  rewrite <- IH by lia.
  change (fcfs_iter processes (S k))
    with (let st := fcfs_iter processes k in
          match processes !! k with
          | Some p => fcfs_body k p st
          | None => st
          end).
  cbv zeta. destruct (processes !! k); [|reflexivity].
  simpl. apply list_lookup_insert_ne. lia.
Qed.

Lemma fcfs_gantt_stable i k :
  (i < k <= length processes)%nat ->
  f_gantt (fcfs_iter processes k) !! i
  = f_gantt (fcfs_iter processes (S i)) !! i.
Proof.
  induction k as [|k IH]; intros Hik; [lia|].
  destruct (decide (i = k)) as [->|Hne]; [reflexivity|].
  rewrite <- IH by lia.
  change (fcfs_iter processes (S k))
    with (let st := fcfs_iter processes k in
          match processes !! k with
          | Some p => fcfs_body k p st
          | None => st
          end).
  cbv zeta. destruct (processes !! k); [|reflexivity].
  simpl. apply lookup_app_l. rewrite fcfs_gantt_length; lia.
Qed.

End FCFSFacts.

(** C3. On the batch of two processes that both arrive at time 0, with
    bursts 5 and 3, [FCFSSchedule] reports the average wait 0, not 2.5: the
    wait of the second process is never assigned, as its arrival time is
    not positive, and stays at the 0 of the first one. *)
Theorem fcfs_two_at_zero_average_wait :
  exists o, returned (FCFSSchedule batch_two_at_zero) = Some o
    /\ out_aveWait o = Float64.zero
    /\ out_aveWait o <> two_and_a_half
    /\ map (option_map row_wait) (out_schedule o) = [Some 0; Some 0].
Proof.
  eexists. split; [reflexivity|].
  repeat split; try reflexivity. vm_compute. discriminate.
Qed.

(** C7. In [FCFSSchedule], the wait of the process at index [i] is
    [serviceTime - arrivalTime] only when its arrival time is positive;
    otherwise it is the wait left by the previous iteration (0 before the
    first one), which is the wait of the previous row. That value, stale or
    not, gives the start of the process in the trace and the wait,
    turnaround and exit of its row. *)
Theorem fcfs_wait_assignment (processes : list Process) (i : nat) (p : Process) :
  processes !! i = Some p ->
  let before := fcfs_iter processes i in
  let wait :=
    if ArrivalTime p >? 0
    then Int64.sub (f_serviceTime before) (ArrivalTime p)
    else f_waitingTime before in
  f_waitingTime (fcfs_iter processes 0) = 0
  /\ (forall j prev, i = S j ->
        f_schedule before !! j = Some (Some prev) ->
        f_waitingTime before = row_wait prev)
  /\ f_waitingTime (fcfs_iter processes (S i)) = wait
  /\ exists o, returned (FCFSSchedule processes) = Some o
      /\ out_schedule o !! i
         = Some (Some (mkRow (ProcessID p) (Priority p) (BurstDuration p)
                             (ArrivalTime p) wait
                             (Int64.add (BurstDuration p) wait)
                             (Int64.add (Int64.add (BurstDuration p)
                                                   (ArrivalTime p)) wait)))
      /\ out_gantt o !! i
         = Some (mkTimeSlice (ProcessID p)
                             (Int64.add wait (ArrivalTime p))
                             (Int64.add (f_serviceTime before) (BurstDuration p))).
Proof.
  intros Hp before wait.
  assert (Hi : (i < length processes)%nat) by (eapply lookup_lt_Some; eauto).
  assert (Hstep : fcfs_iter processes (S i) = fcfs_body i p before).
  { simpl. rewrite Hp. reflexivity. }
  split; [reflexivity|]. split; [|split].
  - intros j prev -> Hrow. subst before.
    destruct (lookup_lt_is_Some_2 processes j) as [q Hq]; [lia|].
    assert (Hs : fcfs_iter processes (S j)
                 = fcfs_body j q (fcfs_iter processes j)).
    { simpl. rewrite Hq. reflexivity. }
    rewrite Hs in Hrow |- *. unfold fcfs_body in Hrow |- *.
    cbn [f_schedule f_waitingTime] in Hrow |- *.
    rewrite list_lookup_insert_eq in Hrow.
    + injection Hrow as <-. reflexivity.
    + rewrite fcfs_schedule_length. lia.
  - rewrite Hstep. reflexivity.
  - eexists. split; [reflexivity|].
    cbn [averages out_schedule out_gantt]. subst wait before. split.
    + rewrite fcfs_schedule_stable by lia. rewrite Hstep.
      unfold fcfs_body. cbn [f_schedule].
      apply list_lookup_insert_eq. rewrite fcfs_schedule_length. lia.
    + rewrite fcfs_gantt_stable by lia. rewrite Hstep.
      unfold fcfs_body. cbn [f_gantt].
      rewrite lookup_app_r by (rewrite fcfs_gantt_length; lia).
      rewrite fcfs_gantt_length by lia. rewrite Nat.sub_diag. reflexivity.
Qed.

Lemma fcfs_wait_assignment_witness :
  batch_two_at_zero !! 1%nat = Some (mkProcess 2 0 3 0)
  /\ f_waitingTime (fcfs_iter batch_two_at_zero 2) = 0.
Proof.
  split; [reflexivity|].
  exact (proj1 (proj2 (proj2
    (fcfs_wait_assignment batch_two_at_zero 1 (mkProcess 2 0 3 0) eq_refl)))).
Defined.

(** ** Fuel

    A loop that returns or panics within some bound does the same within
    any larger bound. *)

Lemma rr_loop_unfold fuel processes st :
  rr_loop fuel processes st
  = if (0 <? length (r_queue st))%nat
       || (r_processCounter st <? length processes)%nat
    then match fuel with
         | O => Some (inr st)
         | S fuel' =>
             match rr_body processes st with
             | None => None
             | Some st' => rr_loop fuel' processes st'
             end
         end
    else Some (inl st).
Proof. destruct fuel; reflexivity. Qed.

Lemma rr_loop_mono processes fuel :
  forall fuel' st,
    (fuel <= fuel')%nat ->
    ~ out_of_fuel (rr_loop fuel processes st) ->
    rr_loop fuel' processes st = rr_loop fuel processes st.
Proof.
  induction fuel as [|fuel IH]; intros fuel' st Hle Hfuel;
    rewrite (rr_loop_unfold fuel'); rewrite rr_loop_unfold in Hfuel |- *;
    destruct (_ || _); try reflexivity.
  - exfalso. apply Hfuel. eexists. reflexivity.
  - destruct fuel' as [|fuel']; [lia|].
    destruct (rr_body processes st) as [st'|]; [|reflexivity].
    apply IH; [lia|exact Hfuel].
Qed.

Lemma sjf_loop_unfold key fuel processes st :
  sjf_loop key fuel processes st
  = if (s_processCounter st <? length processes)%nat
    then match fuel with
         | O => Some (inr st)
         | S fuel' =>
             match sjf_body key processes st with
             | None => None
             | Some st' => sjf_loop key fuel' processes st'
             end
         end
    else Some (inl st).
Proof. destruct fuel; reflexivity. Qed.

(** C9. On the empty batch every scheduler returns, with an empty trace and
    an empty table, and its three averages are all NaN: each is a division
    of zero by zero in [float64], which Go evaluates without a panic, and
    no scheduler guards it. *)
Theorem empty_batch_averages :
  let no_data := mkOutput [] [] S754_nan S754_nan S754_nan in
  FCFSSchedule [] = mkCall [] (Done no_data)
  /\ SJFSchedule [] = mkCall [] (Done no_data)
  /\ SJFPrioritySchedule [] = mkCall [] (Done no_data)
  /\ forall fuel, RRSchedule fuel [] = mkCall [] (Done no_data).
Proof.
  cbv zeta. repeat split. intros fuel. unfold RRSchedule.
  rewrite rr_loop_unfold. reflexivity.
Qed.

(** C9, as stated, fails: the average wait that [FCFSSchedule] computes on
    the empty batch is NaN. *)
Lemma empty_batch_averages_cex :
  ~ (forall o, returned (FCFSSchedule []) = Some o ->
               Float64.is_nan (out_aveWait o) = false
               /\ Float64.is_nan (out_aveTurnaround o) = false
               /\ Float64.is_nan (out_aveThroughput o) = false).
Proof.
  intros H. destruct (H _ eq_refl) as [Hnan _]. discriminate Hnan.
Qed.

(** Five iterations end the loop on the round-robin example. *)
Lemma round_robin_example_run fuel :
  RRSchedule (5 + fuel) batch_round_robin = RRSchedule 5 batch_round_robin.
Proof.
  unfold RRSchedule. f_equal.
  rewrite (rr_loop_mono batch_round_robin 5 (5 + fuel)); [reflexivity|lia|].
  vm_compute. intros [s Hs]. discriminate Hs.
Qed.

(** C4. On the batch [{1, arrival 0, burst 3}; {2, arrival 1, burst 2}]
    [RRSchedule] runs five dispatches: the four of the expected trace and
    then process 2 again, from 4 to 5, for the second unit of its burst. *)
Theorem round_robin_example_trace :
  forall fuel,
    out_gantt <$> returned (RRSchedule (5 + fuel) batch_round_robin)
    = Some (expected_round_robin_trace ++ [mkTimeSlice 2 4 5]).
Proof.
  intros fuel. rewrite round_robin_example_run. vm_compute. reflexivity.
Qed.

(** C4, as stated, fails: no run of [RRSchedule] on that batch returns the
    four-interval trace, which leaves one unit of process 2 unscheduled. *)
Lemma round_robin_example_trace_cex :
  ~ (exists fuel o,
       returned (RRSchedule fuel batch_round_robin) = Some o
       /\ out_gantt o = expected_round_robin_trace).
Proof.
  intros (fuel & o & Hret & Htrace).
  do 5 (destruct fuel as [|fuel]; [vm_compute in Hret; discriminate Hret|]).
  change (S (S (S (S (S fuel))))) with (5 + fuel)%nat in Hret.
  rewrite round_robin_example_run in Hret. vm_compute in Hret.
  injection Hret as <-. discriminate Htrace.
Qed.

(** ** Round-robin: the row table is indexed by process id *)

Lemma dispatches_app l1 l2 :
  dispatches (l1 ++ l2) = (dispatches l1 + dispatches l2)%nat.
Proof. induction l1 as [|p l1 IH]; simpl; [reflexivity|]. rewrite IH. lia. Qed.

Lemma store_row_length schedule idx row schedule' :
  store_row schedule idx row = Some schedule' ->
  length schedule' = length schedule.
Proof.
  unfold store_row. destruct (_ && _); [|discriminate].
  intros [= <-]. apply length_insert.
Qed.

Lemma store_row_outside schedule p row :
  Int64.in_range (ProcessID p) ->
  Z.of_nat (length schedule) <= Int64.max_int ->
  id_outside (length schedule) p ->
  store_row schedule (Int64.sub (ProcessID p) 1) row = None.
Proof.
  unfold store_row, id_outside, Int64.sub, Int64.in_range,
    Int64.max_int, Int64.min_int.
  intros Hid Hlen Hout.
  destruct (decide (ProcessID p = - 2 ^ 63)) as [E|E].
  - rewrite E. change (Int64.wrap (- 2 ^ 63 - 1)) with (2 ^ 63 - 1).
    destruct (Z.ltb_spec (2 ^ 63 - 1) (Z.of_nat (length schedule))); [lia|].
    rewrite andb_false_r. reflexivity.
  - rewrite Int64Facts.wrap_small
      by (unfold Int64.in_range, Int64.max_int, Int64.min_int; lia).
    destruct (Z.leb_spec 0 (ProcessID p - 1)); [|reflexivity].
    destruct (Z.ltb_spec (ProcessID p - 1) (Z.of_nat (length schedule)));
      [lia|reflexivity].
Qed.

(** What the admission loop does: it moves a prefix of the processes not
    yet admitted to the back of the queue, and stops at the end of the
    batch or at a process that has not arrived. *)
Lemma rr_admit_spec processes t :
  forall todo queue pc queue' pc',
    (todo + pc = length processes)%nat ->
    rr_admit processes t todo queue pc = (queue', pc') ->
    queue' = queue ++ take (pc' - pc) (drop pc processes)
    /\ (pc <= pc' <= length processes)%nat
    /\ (forall p, processes !! pc' = Some p -> t < ArrivalTime p).
Proof.
  induction todo as [|todo IH]; intros queue pc queue' pc' Hn Hadm.
  - injection Hadm as <- <-. rewrite Nat.sub_diag, take_0, app_nil_r.
    split; [reflexivity|]. split; [lia|].
    intros p Hp. apply lookup_lt_Some in Hp. simpl in Hn. lia.
  - simpl in Hadm.
    destruct (lookup_lt_is_Some_2 processes pc) as [p Hp]; [lia|].
    rewrite Hp in Hadm. destruct (Z.leb_spec (ArrivalTime p) t) as [Hle|Hgt].
    + apply IH in Hadm; [|lia]. destruct Hadm as (-> & Hpc & Hstop).
      split; [|split; [lia|exact Hstop]].
      rewrite <- app_assoc. f_equal.
      rewrite (drop_S _ _ _ Hp).
      replace (pc' - pc)%nat with (S (pc' - S pc)) by lia. reflexivity.
    + injection Hadm as <- <-. rewrite Nat.sub_diag, take_0, app_nil_r.
      split; [reflexivity|]. split; [lia|].
      intros p' Hp'. rewrite Hp in Hp'. injection Hp' as <-. lia.
Qed.

Lemma rr_admit_pending processes t todo queue pc queue' pc' :
  (todo + pc = length processes)%nat ->
  rr_admit processes t todo queue pc = (queue', pc') ->
  queue' ++ drop pc' processes = queue ++ drop pc processes.
Proof.
  intros Hn Hadm.
  destruct (rr_admit_spec _ _ _ _ _ _ _ Hn Hadm) as (-> & Hpc & _).
  rewrite <- app_assoc. f_equal.
  replace pc' with (pc + (pc' - pc))%nat at 2 by lia.
  rewrite <- drop_drop. apply take_drop.
Qed.

Lemma rr_init_inv processes : rr_inv processes (rr_init (length processes)).
Proof.
  split; simpl.
  - lia.
  - apply length_replicate.
  - unfold Int64.in_range, Int64.min_int, Int64.max_int. lia.
  - constructor.
Qed.

Lemma dispatches_of_pos p : (1 <= dispatches_of p)%nat.
Proof. unfold dispatches_of. lia. Qed.

(** One iteration of the round-robin loop, while processes are pending:
    the iteration panics, or it dispatches the process at the head of the
    pending ones, whose id is then inside the table, or the processor idles
    for one tick. *)
Lemma rr_body_progress processes st :
  Forall valid_process processes ->
  rr_inv processes st ->
  rr_pending processes st <> [] ->
  rr_body processes st = None
  \/ exists st',
      rr_body processes st = Some st'
      /\ rr_inv processes st'
      /\ ((dispatches (rr_pending processes st')
           < dispatches (rr_pending processes st))%nat
          \/ (dispatches (rr_pending processes st')
              = dispatches (rr_pending processes st)
              /\ (clock_room st' < clock_room st)%nat))
      /\ (rr_pending processes st' = rr_pending processes st
          \/ exists current rest,
              rr_pending processes st = current :: rest
              /\ (Z.of_nat (length processes) <= Int64.max_int ->
                  ~ id_outside (length processes) current)
              /\ forall Q : Process -> Prop,
                   Exists Q rest -> Exists Q (rr_pending processes st')).
Proof.
  intros Hvalid [Hpc Hsched Hclock Hqueue] Hpending.
  unfold rr_body.
  destruct (rr_admit processes (r_serviceTime st)
              (length processes - r_processCounter st)
              (r_queue st) (r_processCounter st)) as [queue' pc'] eqn:Hadm.
  assert (Hn : (length processes - r_processCounter st + r_processCounter st
                = length processes)%nat) by lia.
  pose proof (rr_admit_pending _ _ _ _ _ _ _ Hn Hadm) as Hpend.
  destruct (rr_admit_spec _ _ _ _ _ _ _ Hn Hadm) as (Hq' & Hpc' & Hstop).
  assert (Hqueue' : Forall valid_process queue').
  { rewrite Hq'. apply Forall_app. split; [exact Hqueue|].
    apply Forall_take, Forall_drop, Hvalid. }
  fold (rr_pending processes st) in Hpend.
  destruct queue' as [|cur rest].
  - (* the processor idles *)
    right. eexists. split; [reflexivity|].
    assert (Hsame : rr_pending processes
                      (mkRR (Int64.add (r_serviceTime st) 1) (r_totalWait st)
                            (r_totalTurnaround st) (r_lastCompletion st)
                            (r_schedule st) (r_gantt st) [] pc')
                    = rr_pending processes st) by exact Hpend.
    rewrite Hsame.
    assert (Hnext : exists p, processes !! pc' = Some p).
    { apply lookup_lt_is_Some_2.
      destruct (decide (pc' < length processes)%nat) as [|Hge]; [assumption|].
      exfalso. apply Hpending. rewrite <- Hpend. simpl.
      apply drop_ge. lia. }
    destruct Hnext as [p Hp]. pose proof (Hstop p Hp) as Hlate.
    assert (Hp_valid : valid_process p).
    { exact (Forall_lookup_1 _ _ _ _ Hvalid Hp). }
    destruct Hp_valid as (_ & Harr & _).
    unfold Int64.in_range, Int64.max_int, Int64.min_int in *.
    assert (Htick : Int64.add (r_serviceTime st) 1 = r_serviceTime st + 1).
    { apply Int64Facts.wrap_small.
      unfold Int64.in_range, Int64.max_int, Int64.min_int. lia. }
    split; [|split; [|left; reflexivity]].
    + split; simpl; try assumption; try lia.
      apply Int64Facts.add_in_range.
    + right. split; [reflexivity|].
      unfold clock_room, Int64.max_int. simpl. rewrite Htick. lia.
  - (* a process is dispatched *)
    unfold rr_dispatch.
    destruct (store_row (r_schedule st) (Int64.sub (ProcessID cur) 1) _)
      as [schedule'|] eqn:Hstore; [|left; reflexivity].
    right. eexists. split; [reflexivity|].
    apply Forall_cons in Hqueue'. destruct Hqueue' as [Hcur Hrest].
    destruct Hcur as (Hid & Harr & Hburst & Hprio).
    rewrite <- Hpend. simpl app.
    unfold rr_pending. cbn [r_queue r_processCounter r_schedule r_serviceTime].
    split; [|split].
    + split; cbn [r_queue r_processCounter r_schedule r_serviceTime].
      * lia.
      * rewrite (store_row_length _ _ _ _ Hstore). exact Hsched.
      * apply Int64Facts.add_in_range.
      * destruct (_ >? 0); [|exact Hrest].
        apply Forall_app. split; [exact Hrest|].
        constructor; [|constructor].
        unfold valid_process. cbn.
        split; [exact Hid|]. split; [exact Harr|].
        split; [apply Int64Facts.sub_in_range|exact Hprio].
    + left. simpl dispatches at 2.
      pose proof (dispatches_of_pos cur) as Hpos.
      unfold Int64.min, quantum, Int64.sub.
      unfold Int64.in_range, Int64.max_int, Int64.min_int in Hburst.
      destruct (Z.ltb_spec 1 (BurstDuration cur)) as [Hgt|Hle].
      * rewrite Int64Facts.wrap_small
          by (unfold Int64.in_range, Int64.max_int, Int64.min_int; lia).
        destruct (Z.gtb_spec (BurstDuration cur - 1) 0); [|lia].
        rewrite <- app_assoc, !dispatches_app. simpl.
        unfold dispatches_of at 1. cbn [BurstDuration].
        unfold dispatches_of. lia.
      * rewrite Z.sub_diag. change (Int64.wrap 0 >? 0) with false.
        cbv iota. lia.
    + right. exists cur, (rest ++ drop pc' processes).
      split; [reflexivity|]. split.
      * intros Hlen Hout.
        rewrite store_row_outside in Hstore; try discriminate;
          rewrite ?Hsched; assumption.
      * intros Q HQ. destruct (_ >? 0); [|exact HQ].
        rewrite <- app_assoc. apply Exists_app in HQ. apply Exists_app.
        destruct HQ as [HQ|HQ]; [left; exact HQ|].
        right. apply Exists_app. right. exact HQ.
Qed.

Lemma rr_pending_loops processes st :
  rr_pending processes st <> [] ->
  (0 <? length (r_queue st))%nat
  || (r_processCounter st <? length processes)%nat = true.
Proof.
  unfold rr_pending. intros Hne.
  destruct (r_queue st) as [|q queue]; [|reflexivity].
  simpl in Hne |- *. apply Nat.ltb_lt.
  destruct (decide (r_processCounter st < length processes)%nat); [assumption|].
  exfalso. apply Hne. apply drop_ge. lia.
Qed.

Lemma rr_nothing_pending processes st :
  (r_processCounter st <= length processes)%nat ->
  rr_pending processes st = [] ->
  (0 <? length (r_queue st))%nat
  || (r_processCounter st <? length processes)%nat = false.
Proof.
  unfold rr_pending. intros Hpc Hnil.
  apply app_eq_nil in Hnil. destruct Hnil as [-> Hdrop]. simpl.
  apply Nat.ltb_ge.
  apply (f_equal length) in Hdrop. rewrite length_drop in Hdrop.
  simpl in Hdrop. lia.
Qed.

(** The loop ends: by induction on the dispatches still to make and,
    between two dispatches, on the ticks left on the clock. It ends in a
    panic when a process with an id outside the table is pending. *)
Lemma rr_loop_ends processes :
  Forall valid_process processes ->
  forall work room st,
    rr_inv processes st ->
    (dispatches (rr_pending processes st) <= work)%nat ->
    (clock_room st <= room)%nat ->
    exists fuel,
      ~ out_of_fuel (rr_loop fuel processes st)
      /\ (Z.of_nat (length processes) <= Int64.max_int ->
          Exists (id_outside (length processes)) (rr_pending processes st) ->
          rr_loop fuel processes st = None).
Proof.
  intros Hvalid.
  induction work as [work IHwork] using lt_wf_ind.
  induction room as [room IHroom] using lt_wf_ind.
  intros st Hinv Hwork Hroom.
  destruct (rr_pending processes st) as [|q pending] eqn:Hpending.
  { exists 0%nat. rewrite rr_loop_unfold.
    rewrite rr_nothing_pending by (try exact Hpending; apply Hinv).
    split; [intros [s Hs]; discriminate Hs|].
    intros _ Hbad. inversion Hbad. }
  assert (Hne : rr_pending processes st <> []) by (rewrite Hpending; discriminate).
  pose proof (rr_pending_loops processes st Hne) as Hloop.
  destruct (rr_body_progress processes st Hvalid Hinv Hne)
    as [Hpanic|(st' & Hbody & Hinv' & Hless & Hnext)].
  - exists 1%nat. rewrite rr_loop_unfold, Hloop, Hpanic.
    split; [intros [s Hs]; discriminate Hs|reflexivity].
  - assert (Hrec : exists fuel,
              ~ out_of_fuel (rr_loop fuel processes st')
              /\ (Z.of_nat (length processes) <= Int64.max_int ->
                  Exists (id_outside (length processes))
                         (rr_pending processes st') ->
                  rr_loop fuel processes st' = None)).
    { rewrite Hpending in Hless.
      destruct Hless as [Hless|[Hsame Hless]].
      - apply (IHwork (dispatches (rr_pending processes st')) ltac:(lia)
                      (clock_room st') st'); auto.
      - apply (IHroom (clock_room st') ltac:(lia) st'); auto. lia. }
    destruct Hrec as (fuel & Hfuel & Hbad'). exists (S fuel).
    rewrite rr_loop_unfold, Hloop, Hbody.
    split; [exact Hfuel|]. intros Hlen Hbad. apply Hbad'; [exact Hlen|].
    destruct Hnext as [Hsame|(current & rest & Hcons & Hinside & Hrest)].
    + rewrite Hsame, Hpending. exact Hbad.
    + rewrite Hpending in Hcons. injection Hcons as <- <-.
      apply Exists_cons in Hbad. destruct Hbad as [Hbad|Hbad].
      * exfalso. exact (Hinside Hlen Hbad).
      * apply Hrest, Hbad.
Qed.

(** On a batch of [int64] descriptors a call of [RRSchedule] ends: it
    returns or it panics. *)
Lemma rr_schedule_ends processes :
  Forall valid_process processes ->
  exists fuel, forall fuel',
    (fuel <= fuel')%nat -> call_outcome (RRSchedule fuel' processes) <> OutOfFuel.
Proof.
  intros Hvalid.
  destruct (rr_loop_ends processes Hvalid
              (dispatches (rr_pending processes (rr_init (length processes))))
              (clock_room (rr_init (length processes)))
              (rr_init (length processes)))
    as (fuel & Hfuel & _); auto using rr_init_inv.
  exists fuel. intros fuel' Hle. unfold RRSchedule. cbn [call_outcome].
  rewrite (rr_loop_mono processes fuel fuel' _ Hle Hfuel).
  destruct (rr_loop fuel processes (rr_init (length processes)))
    as [[st|st]|]; try discriminate.
  exfalso. apply Hfuel. eexists. reflexivity.
Qed.

Lemma round_robin_duplicate_run fuel :
  RRSchedule (2 + fuel) batch_duplicate_id = RRSchedule 2 batch_duplicate_id.
Proof.
  unfold RRSchedule. f_equal.
  rewrite (rr_loop_mono batch_duplicate_id 2 (2 + fuel)); [reflexivity|lia|].
  vm_compute. intros [s Hs]. discriminate Hs.
Qed.

(** C10. [RRSchedule] writes the row of a dispatch at index [ProcessID - 1]
    of a table of [len(processes)] rows: on every batch that holds a
    process whose id is less than 1 or greater than [len(processes)], the
    call panics. *)
Theorem rr_id_outside_table_panics (processes : list Process) :
  Forall valid_process processes ->
  Z.of_nat (length processes) <= Int64.max_int ->
  Exists (id_outside (length processes)) processes ->
  exists fuel, forall fuel',
    (fuel <= fuel')%nat -> call_outcome (RRSchedule fuel' processes) = Panic.
Proof.
  intros Hvalid Hlen Hbad.
  destruct (rr_loop_ends processes Hvalid
              (dispatches (rr_pending processes (rr_init (length processes))))
              (clock_room (rr_init (length processes)))
              (rr_init (length processes)))
    as (fuel & Hfuel & Hpanic); auto using rr_init_inv.
  specialize (Hpanic Hlen Hbad).
  exists fuel. intros fuel' Hle. unfold RRSchedule. cbn [call_outcome].
  rewrite (rr_loop_mono processes fuel fuel' _ Hle Hfuel), Hpanic.
  reflexivity.
Qed.

Lemma rr_id_outside_table_panics_witness :
  exists fuel, forall fuel',
    (fuel <= fuel')%nat ->
    call_outcome (RRSchedule fuel' [mkProcess 0 0 1 0; mkProcess 1 0 1 0])
    = Panic.
Proof.
  apply (rr_id_outside_table_panics [mkProcess 0 0 1 0; mkProcess 1 0 1 0]).
  - repeat constructor; vm_compute; discriminate.
  - vm_compute. discriminate.
  - left. left. reflexivity.
Defined.

(** C10, as stated, counts a duplicated id that leaves a gap among the
    inputs that panic; it does not: with the ids [1; 1] the call returns,
    and the second row of the table stays empty. *)
Lemma rr_id_outside_table_panics_cex :
  ~ (exists fuel, call_outcome (RRSchedule fuel batch_duplicate_id) = Panic)
  /\ (option_map out_schedule (returned (RRSchedule 2 batch_duplicate_id))
      = Some [Some (mkRow 1 0 1 1 1 2 2); None]).
Proof.
  split; [|vm_compute; reflexivity].
  intros [fuel Hpanic].
  do 2 (destruct fuel as [|fuel]; [vm_compute in Hpanic; discriminate Hpanic|]).
  change (S (S fuel)) with (2 + fuel)%nat in Hpanic.
  rewrite round_robin_duplicate_run in Hpanic.
  vm_compute in Hpanic. discriminate Hpanic.
Qed.

(** ** [sort.Slice] permutes the slice *)

Module SortFacts.
Section Permutes.
Local Open Scope nat_scope.

Context {A : Type}.
Variable lt : A -> A -> bool.

Lemma Swap_perm (data : list A) i j : Sort.Swap data i j ≡ₚ data.
Proof.
  unfold Sort.Swap.
  destruct (data !! i) as [x|] eqn:Hi; [|reflexivity].
  destruct (data !! j) as [y|] eqn:Hj; [|reflexivity].
  apply Permutation_insert_swap; assumption.
Qed.

Lemma Swap_length (data : list A) i j :
  length (Sort.Swap data i j) = length data.
Proof. apply Permutation_length, Swap_perm. Qed.

Lemma insertion_inner_perm a j : forall data,
  Sort.insertion_inner lt a j data ≡ₚ data.
Proof.
  induction j as [|j IH]; intros data; simpl; [reflexivity|].
  destruct (_ && _); [|reflexivity]. rewrite IH. apply Swap_perm.
Qed.

Lemma insertion_outer_perm a n : forall i data,
  Sort.insertion_outer lt a i n data ≡ₚ data.
Proof.
  induction n as [|n IH]; intros i data; simpl; [reflexivity|].
  rewrite IH. apply insertion_inner_perm.
Qed.

Lemma insertionSort_perm data a b : Sort.insertionSort_func lt data a b ≡ₚ data.
Proof. apply insertion_outer_perm. Qed.

Lemma siftDown_loop_perm fuel : forall data root hi first,
  Sort.siftDown_loop lt fuel data root hi first ≡ₚ data.
Proof.
  induction fuel as [|fuel IH]; intros data root hi first; simpl; [reflexivity|].
  destruct (_ <=? _); [reflexivity|].
  destruct (negb _); [reflexivity|]. rewrite IH. apply Swap_perm.
Qed.

Lemma siftDown_perm data lo hi first :
  Sort.siftDown_func lt data lo hi first ≡ₚ data.
Proof. apply siftDown_loop_perm. Qed.

Lemma heap_build_perm hi first i : forall data,
  Sort.heap_build lt i data hi first ≡ₚ data.
Proof.
  induction i as [|i IH]; intros data; simpl.
  - apply siftDown_perm.
  - rewrite IH. apply siftDown_perm.
Qed.

Lemma heap_drain_perm first n : forall data,
  Sort.heap_drain lt n data first ≡ₚ data.
Proof.
  induction n as [|n IH]; intros data; simpl; [reflexivity|].
  rewrite IH, siftDown_perm. apply Swap_perm.
Qed.

Lemma heapSort_perm data a b : Sort.heapSort_func lt data a b ≡ₚ data.
Proof.
  unfold Sort.heapSort_func. rewrite heap_drain_perm. apply heap_build_perm.
Qed.

Lemma breakPatterns_perm (data : list A) a b :
  Sort.breakPatterns_func data a b ≡ₚ data.
Proof.
  unfold Sort.breakPatterns_func. destruct (8 <=? b - a); [|reflexivity].
  simpl. rewrite !Swap_perm. reflexivity.
Qed.

Lemma reverse_loop_perm fuel : forall (data : list A) i j,
  Sort.reverse_loop fuel data i j ≡ₚ data.
Proof.
  induction fuel as [|fuel IH]; intros data i j; simpl; [reflexivity|].
  destruct (i <? j); [|reflexivity]. rewrite IH. apply Swap_perm.
Qed.

Lemma reverseRange_perm (data : list A) a b :
  Sort.reverseRange_func data a b ≡ₚ data.
Proof. apply reverse_loop_perm. Qed.

Lemma shift_left_perm lo j : forall data,
  Sort.shift_left lt lo j data ≡ₚ data.
Proof.
  induction j as [|j IH]; intros data; simpl; [reflexivity|].
  destruct (lo <=? S j); [|reflexivity].
  destruct (negb _); [reflexivity|]. rewrite IH. apply Swap_perm.
Qed.

Lemma shift_right_perm n : forall j data,
  Sort.shift_right lt n j data ≡ₚ data.
Proof.
  induction n as [|n IH]; intros j data; simpl; [reflexivity|].
  destruct (negb _); [reflexivity|]. rewrite IH. apply Swap_perm.
Qed.

Lemma partialInsertion_loop_perm steps : forall data a b i,
  fst (Sort.partialInsertion_loop lt steps data a b i) ≡ₚ data.
Proof.
  induction steps as [|steps IH]; intros data a b i; simpl; [reflexivity|].
  match goal with |- context [Sort.scan_up ?f ?c ?x ?y] =>
    generalize (Sort.scan_up f c x y) end.
  intros i'. destruct (i' =? b); [reflexivity|].
  destruct (b - a <? 50); [reflexivity|].
  rewrite IH.
  repeat match goal with
         | |- context [if ?c then _ else _] => destruct c
         end;
    rewrite ?shift_right_perm, ?shift_left_perm; apply Swap_perm.
Qed.

Lemma partialInsertionSort_perm data a b :
  fst (Sort.partialInsertionSort_func lt data a b) ≡ₚ data.
Proof. apply partialInsertion_loop_perm. Qed.

Lemma partitionEqual_loop_perm fuel : forall data a i j,
  fst (Sort.partitionEqual_loop lt fuel data a i j) ≡ₚ data.
Proof.
  induction fuel as [|fuel IH]; intros data a i j; simpl; [reflexivity|].
  destruct (_ <? _); [reflexivity|]. rewrite IH. apply Swap_perm.
Qed.

Lemma partitionEqual_perm data a b pivot :
  fst (Sort.partitionEqual_func lt data a b pivot) ≡ₚ data.
Proof.
  unfold Sort.partitionEqual_func. rewrite partitionEqual_loop_perm.
  apply Swap_perm.
Qed.

Lemma partition_loop_perm fuel : forall data a i j,
  fst (Sort.partition_loop lt fuel data a i j) ≡ₚ data.
Proof.
  induction fuel as [|fuel IH]; intros data a i j; simpl; [reflexivity|].
  destruct (_ <? _); [reflexivity|]. rewrite IH. apply Swap_perm.
Qed.

Lemma partition_perm data a b pivot :
  fst (fst (Sort.partition_func lt data a b pivot)) ≡ₚ data.
Proof.
  unfold Sort.partition_func.
  destruct (_ <? _); simpl; [rewrite !Swap_perm; reflexivity|].
  match goal with
  | |- context [Sort.partition_loop lt ?f ?d ?a ?i ?j] =>
      pose proof (partition_loop_perm f d a i j) as Hloop;
      destruct (Sort.partition_loop lt f d a i j) as [d' j']
  end.
  simpl in Hloop |- *. rewrite Swap_perm, Hloop, !Swap_perm. reflexivity.
Qed.

Lemma pdqsort_perm fuel : forall data a b limit wasBalanced wasPartitioned,
  Sort.pdqsort_func lt fuel data a b limit wasBalanced wasPartitioned ≡ₚ data.
Proof.
  induction fuel as [|fuel IH];
    intros data a b limit wasBalanced wasPartitioned; simpl; [reflexivity|].
  destruct (b - a <=? Sort.maxInsertion); [apply insertionSort_perm|].
  destruct (limit =? 0); [apply heapSort_perm|].
  set (broken := if negb wasBalanced
                 then (Sort.breakPatterns_func data a b, limit - 1)
                 else (data, limit)).
  assert (Hbroken : fst broken ≡ₚ data).
  { subst broken. destruct (negb wasBalanced); simpl;
      [apply breakPatterns_perm|reflexivity]. }
  destruct broken as [data1 limit1]. simpl in Hbroken.
  destruct (Sort.choosePivot_func lt data1 a b) as [pivot hint].
  set (reversed := match hint with
                   | Sort.decreasingHint =>
                       (Sort.reverseRange_func data1 a b, b - 1 - (pivot - a),
                        Sort.increasingHint)
                   | _ => (data1, pivot, hint)
                   end).
  assert (Hreversed : fst (fst reversed) ≡ₚ data).
  { subst reversed. destruct hint; simpl; rewrite ?reverseRange_perm; assumption. }
  destruct reversed as [[data2 pivot2] hint2]. simpl in Hreversed.
  set (partial := match hint2 with
                  | Sort.increasingHint =>
                      if wasBalanced && wasPartitioned
                      then Sort.partialInsertionSort_func lt data2 a b
                      else (data2, false)
                  | _ => (data2, false)
                  end).
  assert (Hpartial : fst partial ≡ₚ data).
  { subst partial. destruct hint2; simpl; try assumption.
    destruct (_ && _); simpl; rewrite ?partialInsertionSort_perm; assumption. }
  destruct partial as [data3 sorted]. simpl in Hpartial.
  destruct sorted; [assumption|].
  destruct (_ && _).
  - pose proof (partitionEqual_perm data3 a b pivot2) as Hpart.
    destruct (Sort.partitionEqual_func lt data3 a b pivot2) as [data4 mid].
    simpl in Hpart. rewrite IH, Hpart. assumption.
  - pose proof (partition_perm data3 a b pivot2) as Hpart.
    destruct (Sort.partition_func lt data3 a b pivot2) as [[data4 mid] already].
    simpl in Hpart.
    destruct (_ <? _); rewrite !IH, Hpart; assumption.
Qed.

Lemma Slice_perm data : Sort.Slice lt data ≡ₚ data.
Proof. apply pdqsort_perm. Qed.

End Permutes.
End SortFacts.

(** ** Popping the ready queue *)

(** When the ready queue is empty and the next process has not arrived, an
    iteration of the loop admits nothing and pops the empty queue. *)
Lemma sjf_body_idle key processes st p :
  s_readyQueue st = [] ->
  processes !! s_processCounter st = Some p ->
  s_serviceTime st < ArrivalTime p ->
  sjf_body key processes st = None.
Proof.
  intros Hq Hp Hlt. unfold sjf_body.
  assert (Hn : (s_processCounter st < length processes)%nat)
    by (eapply lookup_lt_Some; eauto).
  destruct (length processes - s_processCounter st)%nat as [|todo] eqn:E; [lia|].
  simpl. rewrite Hp.
  destruct (Z.leb_spec (ArrivalTime p) (s_serviceTime st)); [lia|].
  rewrite Hq. reflexivity.
Qed.

(** A batch in which no process has arrived at time 0: the first iteration
    finds the ready queue empty and pops it. *)
Lemma sjf_schedule_late key (processes : list Process) :
  processes <> [] ->
  Forall (fun p => 0 < ArrivalTime p) processes ->
  call_outcome (sjf_schedule key processes) = Panic.
Proof.
  intros Hne Hlate. unfold sjf_schedule. cbv zeta. cbn [call_outcome].
  pose proof (SortFacts.Slice_perm arrival_less processes) as Hperm.
  set (sorted := Sort.Slice arrival_less processes) in *.
  assert (Hlen : (0 < length sorted)%nat).
  { rewrite (Permutation_length Hperm). destruct processes; [congruence|].
    cbn [length]. lia. }
  destruct (lookup_lt_is_Some_2 sorted 0 Hlen) as [p Hp].
  assert (Hp_late : 0 < ArrivalTime p).
  { apply (proj1 (Forall_forall _ _) Hlate).
    rewrite <- Hperm. exact (list_elem_of_lookup_2 _ _ _ Hp). }
  destruct (2 * length sorted)%nat as [|fuel] eqn:Hfuel; [lia|].
  rewrite sjf_loop_unfold. cbn [sjf_init s_processCounter].
  replace (0 <? length sorted)%nat with true
    by (symmetry; apply Nat.ltb_lt; exact Hlen).
  rewrite (sjf_body_idle key sorted (sjf_init (length sorted)) p);
    [reflexivity|reflexivity|exact Hp|exact Hp_late].
Qed.

(** C2. [SJFSchedule] and [SJFPrioritySchedule] pop the ready queue while it
    is empty, and panic, on batches with positive bursts. The loop has no
    branch that advances the clock to the next arrival: an iteration that
    finds the queue empty and the next process not yet arrived pops the
    empty queue. So the call panics on every batch in which no process
    arrives at time 0, and on batches where the processor idles between
    two arrivals. *)
Theorem sjf_pops_empty_queue :
  (forall key processes st p,
     s_readyQueue st = [] ->
     processes !! s_processCounter st = Some p ->
     s_serviceTime st < ArrivalTime p ->
     sjf_body key processes st = None)
  /\ (forall processes,
        processes <> [] ->
        Forall (fun p => 0 < ArrivalTime p) processes ->
        call_outcome (SJFSchedule processes) = Panic
        /\ call_outcome (SJFPrioritySchedule processes) = Panic)
  /\ Forall (fun p => 0 < BurstDuration p) batch_late_arrival
  /\ call_outcome (SJFSchedule batch_late_arrival) = Panic
  /\ call_outcome (SJFPrioritySchedule batch_late_arrival) = Panic
  /\ Forall (fun p => 0 < BurstDuration p) batch_idle_gap
  /\ call_outcome (SJFSchedule batch_idle_gap) = Panic
  /\ call_outcome (SJFPrioritySchedule batch_idle_gap) = Panic.
Proof.
  split; [exact sjf_body_idle|]. split.
  - intros processes Hne Hlate.
    split; apply sjf_schedule_late; assumption.
  - repeat split; try (vm_compute; reflexivity);
      repeat constructor; vm_compute; reflexivity.
Qed.

(** ** Slices of at most 12 elements are sorted by insertion *)

Module InsertionFacts.
Section Insertion.
Local Open Scope nat_scope.

Context {A : Type}.
Variable lt : A -> A -> bool.

Lemma ins_rev_length x r : length (ins_rev lt x r) = S (length r).
Proof.
  induction r as [|y r IH]; simpl; [reflexivity|].
  destruct (lt x y); simpl; [rewrite IH|]; reflexivity.
Qed.

Lemma Swap_adjacent (front : list A) y x back :
  Sort.Swap (front ++ y :: x :: back) (S (length front)) (length front)
  = front ++ x :: y :: back.
Proof.
  unfold Sort.Swap.
  replace ((front ++ y :: x :: back) !! S (length front)) with (Some x).
  2:{ symmetry. change (front ++ y :: x :: back) with (front ++ [y] ++ x :: back).
      rewrite app_assoc. apply list_lookup_middle.
      rewrite length_app. simpl. lia. }
  rewrite list_lookup_middle by reflexivity.
  rewrite (insert_app_r_alt front), Nat.sub_diag by lia. simpl.
  rewrite insert_app_r_alt by lia.
  replace (S (length front) - length front) with 1 by lia. reflexivity.
Qed.

Lemma Less_adjacent (front : list A) y x back :
  Sort.Less lt (front ++ y :: x :: back) (S (length front)) (length front)
  = lt x y.
Proof.
  unfold Sort.Less.
  replace ((front ++ y :: x :: back) !! S (length front)) with (Some x).
  2:{ symmetry. change (front ++ y :: x :: back) with (front ++ [y] ++ x :: back).
      rewrite app_assoc. apply list_lookup_middle.
      rewrite length_app. simpl. lia. }
  rewrite list_lookup_middle by reflexivity. reflexivity.
Qed.

(** The inner loop of the insertion sort inserts the element at index [j]
    in the [j] elements before it. *)
Lemma insertion_inner_spec : forall rprefix x back,
  Sort.insertion_inner lt 0 (length rprefix) (rev rprefix ++ x :: back)
  = rev (ins_rev lt x rprefix) ++ back.
Proof.
  induction rprefix as [|y r IH]; intros x back; [reflexivity|].
  cbn [length Sort.insertion_inner rev ins_rev].
  rewrite <- app_assoc. cbn [app].
  rewrite <- (length_rev r), Less_adjacent. cbn [Nat.ltb Nat.leb andb].
  destruct (lt x y).
  - rewrite Swap_adjacent, length_rev, IH. cbn [rev].
    rewrite <- app_assoc. reflexivity.
  - cbn [rev]. rewrite <- !app_assoc. reflexivity.
Qed.

Lemma insertion_outer_spec : forall rest rprefix,
  Sort.insertion_outer lt 0 (length rprefix) (length rest)
                       (rev rprefix ++ rest)
  = rev (insertion_fold lt rest rprefix).
Proof.
  induction rest as [|x rest IH]; intros rprefix; simpl.
  - apply app_nil_r.
  - rewrite insertion_inner_spec.
    rewrite <- (ins_rev_length x rprefix). apply IH.
Qed.

Lemma insertionSort_spec data :
  Sort.insertionSort_func lt data 0 (length data)
  = rev (insertion_fold lt data []).
Proof.
  unfold Sort.insertionSort_func. destruct data as [|x rest]; [reflexivity|].
  simpl. rewrite Nat.sub_0_r. apply (insertion_outer_spec rest [x]).
Qed.

Lemma Slice_small data :
  length data <= Sort.maxInsertion ->
  Sort.Slice lt data
  = rev (insertion_fold lt data []).
Proof.
  intros Hlen. unfold Sort.Slice. cbn [Sort.pdqsort_func].
  rewrite Nat.sub_0_r.
  destruct (Nat.leb_spec (length data) Sort.maxInsertion); [|lia].
  apply insertionSort_spec.
Qed.

End Insertion.
End InsertionFacts.

(** ** The order in which the shortest-job-first schedulers see the batch *)

Section ArrivalOrder.

Lemma ins_rev_perm x r : ins_rev arrival_less x r ≡ₚ x :: r.
Proof.
  induction r as [|y r IH]; cbn [ins_rev]; [reflexivity|].
  destruct (arrival_less x y); [|reflexivity].
  rewrite IH. apply Permutation_swap.
Qed.

Lemma ins_rev_desc x r :
  arrival_desc r -> arrival_desc (ins_rev arrival_less x r).
Proof.
  unfold arrival_desc.
  induction r as [|y r IH]; intros Hr; cbn [ins_rev].
  - repeat constructor.
  - apply StronglySorted_cons in Hr. destruct Hr as [Hy Hr].
    unfold arrival_less at 1.
    destruct (Z.ltb_spec (ArrivalTime x) (ArrivalTime y)).
    + apply StronglySorted_cons. split; [|apply IH, Hr].
      rewrite ins_rev_perm. constructor; [lia|exact Hy].
    + apply StronglySorted_cons. split.
      * constructor; [assumption|].
        eapply Forall_impl; [exact Hy|]. simpl. intros z Hz. lia.
      * apply StronglySorted_cons. split; assumption.
Qed.

Lemma arrival_desc_rev l : arrival_desc l -> arrival_sorted (rev l).
Proof.
  unfold arrival_desc, arrival_sorted.
  induction l as [|x l IH]; intros Hl; simpl; [constructor|].
  apply StronglySorted_cons in Hl. destruct Hl as [Hx Hl].
  apply StronglySorted_app. split; [|split].
  - intros p q Hp Hq. apply list_elem_of_singleton in Hq. subst q.
    apply list_elem_of_In, in_rev, list_elem_of_In in Hp.
    exact (proj1 (Forall_forall _ _) Hx p Hp).
  - apply IH, Hl.
  - repeat constructor.
Qed.

Lemma ins_rev_ties a x r :
  arriving_at a (rev (ins_rev arrival_less x r))
  = arriving_at a (rev r ++ [x]).
Proof.
  unfold arriving_at.
  induction r as [|y r IH]; [reflexivity|]. cbn [ins_rev].
  unfold arrival_less at 1.
  destruct (Z.ltb_spec (ArrivalTime x) (ArrivalTime y)).
  - cbn [rev]. rewrite !List.filter_app, IH, !List.filter_app. simpl.
    rewrite <- !app_assoc. f_equal.
    destruct (Z.eqb_spec (ArrivalTime x) a), (Z.eqb_spec (ArrivalTime y) a);
      try reflexivity; lia.
  - reflexivity.
Qed.

Lemma insertion_fold_perm : forall data acc,
  insertion_fold arrival_less data acc ≡ₚ acc ++ data.
Proof.
  induction data as [|x data IH]; intros acc; simpl.
  - rewrite app_nil_r. reflexivity.
  - rewrite IH, ins_rev_perm. apply Permutation_middle.
Qed.

Lemma insertion_fold_desc : forall data acc,
  arrival_desc acc ->
  arrival_desc (insertion_fold arrival_less data acc).
Proof.
  induction data as [|x data IH]; intros acc Hacc; simpl; [exact Hacc|].
  apply IH, ins_rev_desc, Hacc.
Qed.

Lemma insertion_fold_ties a : forall data acc,
  arriving_at a (rev (insertion_fold arrival_less data acc))
  = arriving_at a (rev acc ++ data).
Proof.
  induction data as [|x data IH]; intros acc; simpl.
  - rewrite app_nil_r. reflexivity.
  - rewrite IH. unfold arriving_at in *.
    rewrite List.filter_app.
    fold (arriving_at a (rev (ins_rev arrival_less x acc))). rewrite ins_rev_ties.
    unfold arriving_at. rewrite <- List.filter_app, <- app_assoc. reflexivity.
Qed.

(** On at most 12 processes [sort.Slice] is a stable sort by arrival time. *)
Lemma Slice_small_stable processes :
  (length processes <= 12)%nat ->
  arrival_sorted (Sort.Slice arrival_less processes)
  /\ ties_keep_order processes (Sort.Slice arrival_less processes).
Proof.
  intros Hlen. rewrite InsertionFacts.Slice_small by exact Hlen. split.
  - apply arrival_desc_rev, insertion_fold_desc. constructor.
  - intros a. apply (insertion_fold_ties a processes []).
Qed.

End ArrivalOrder.

(** ** Ranges of a slice and what a sort leaves outside them *)

Module RangeFacts.
Section Ranges.
Local Open Scope nat_scope.

Context {A : Type}.
Variable key : A -> Z.
Variable lt : A -> A -> bool.
Hypothesis lt_key : forall x y, lt x y = (key x <? key y)%Z.

Lemma Less_key_at (data : list A) i j :
  i < length data -> j < length data ->
  Sort.Less lt data i j = (key_at key data i <? key_at key data j)%Z.
Proof.
  intros Hi Hj. unfold Sort.Less, key_at.
  destruct (lookup_lt_is_Some_2 data i Hi) as [x ->].
  destruct (lookup_lt_is_Some_2 data j Hj) as [y ->].
  apply lt_key.
Qed.

Lemma Swap_lookup (data : list A) i j k :
  i < length data -> j < length data ->
  Sort.Swap data i j !! k
  = if k =? i then data !! j else if k =? j then data !! i else data !! k.
Proof.
  intros Hi Hj. unfold Sort.Swap.
  destruct (lookup_lt_is_Some_2 data i Hi) as [x Hx].
  destruct (lookup_lt_is_Some_2 data j Hj) as [y Hy].
  rewrite Hx, Hy.
  destruct (Nat.eqb_spec k i) as [->|Hki].
  - rewrite list_lookup_insert_eq by (rewrite length_insert; lia). reflexivity.
  - rewrite list_lookup_insert_ne by lia.
    destruct (Nat.eqb_spec k j) as [->|Hkj].
    + rewrite list_lookup_insert_eq by lia. reflexivity.
    + rewrite list_lookup_insert_ne by lia. reflexivity.
Qed.

Lemma Swap_key_at (data : list A) i j k :
  i < length data -> j < length data ->
  key_at key (Sort.Swap data i j) k
  = if k =? i then key_at key data j
    else if k =? j then key_at key data i else key_at key data k.
Proof.
  intros Hi Hj. unfold key_at. rewrite Swap_lookup by assumption.
  destruct (k =? i); [reflexivity|]. destruct (k =? j); reflexivity.
Qed.

Lemma frame_refl a b (data : list A) : frame a b data data.
Proof. repeat split; reflexivity. Qed.

Lemma frame_trans a b (d1 d2 d3 : list A) :
  frame a b d1 d2 -> frame a b d2 d3 -> frame a b d1 d3.
Proof.
  intros (Hl1 & Ho1 & Hp1) (Hl2 & Ho2 & Hp2). split; [congruence|]. split.
  - intros i Hi. rewrite Ho2, Ho1 by exact Hi. reflexivity.
  - rewrite Hp2. exact Hp1.
Qed.

Lemma frame_weaken a b a' b' (d d' : list A) :
  a' <= a -> b <= b' -> frame a b d d' -> frame a' b' d d'.
Proof.
  intros Ha Hb (Hl & Ho & Hp). split; [exact Hl|]. split; [|exact Hp].
  intros i Hi. apply Ho. lia.
Qed.

Lemma frame_Swap a b (data : list A) i j :
  a <= i < b -> a <= j < b -> b <= length data ->
  frame a b data (Sort.Swap data i j).
Proof.
  intros Hi Hj Hb. split; [apply SortFacts.Swap_length|]. split; [|apply SortFacts.Swap_perm].
  intros k Hk. rewrite Swap_lookup by lia.
  destruct (Nat.eqb_spec k i); [lia|]. destruct (Nat.eqb_spec k j); [lia|].
  reflexivity.
Qed.

Lemma frame_key_at a b (d d' : list A) i :
  frame a b d d' -> i < a \/ b <= i -> key_at key d' i = key_at key d i.
Proof. intros (_ & Ho & _) Hi. unfold key_at. rewrite Ho by exact Hi. reflexivity. Qed.

Lemma range_split a b (data : list A) :
  a <= b -> data = take a data ++ range a b data ++ drop b data.
Proof.
  intros Hab. unfold range.
  rewrite <- (take_drop a data) at 1. f_equal.
  rewrite <- (take_drop (b - a) (drop a data)) at 1. f_equal.
  rewrite drop_drop. f_equal. lia.
Qed.

(** A frame permutes the range. *)
Lemma frame_range a b (d d' : list A) :
  a <= b -> frame a b d d' -> range a b d' ≡ₚ range a b d.
Proof.
  intros Hab (Hl & Ho & Hp).
  assert (Htake : take a d' = take a d).
  { apply list_eq. intros i. destruct (decide (i < a)).
    - rewrite !lookup_take_lt by assumption. apply Ho. lia.
    - rewrite !lookup_take_ge by lia. reflexivity. }
  assert (Hdrop : drop b d' = drop b d).
  { apply list_eq. intros i. rewrite !lookup_drop. apply Ho. lia. }
  pose proof (range_split a b d Hab) as Ed.
  pose proof (range_split a b d' Hab) as Ed'.
  rewrite Htake, Hdrop in Ed'.
  assert (Hmid : take a d ++ range a b d' ++ drop b d
                 ≡ₚ take a d ++ range a b d ++ drop b d).
  { rewrite <- Ed', <- Ed. exact Hp. }
  apply Permutation_app_inv_l in Hmid. apply Permutation_app_inv_r in Hmid.
  exact Hmid.
Qed.

Lemma range_lookup a b (data : list A) i :
  i < b - a -> range a b data !! i = data !! (a + i).
Proof.
  intros Hi. unfold range. rewrite lookup_take_lt by exact Hi.
  apply lookup_drop.
Qed.

(** A property of the elements of the range is kept by a frame. *)
Lemma frame_Forall a b (d d' : list A) (P : A -> Prop) :
  a <= b -> b <= length d -> frame a b d d' ->
  (forall i x, a <= i < b -> d !! i = Some x -> P x) ->
  forall i x, a <= i < b -> d' !! i = Some x -> P x.
Proof.
  intros Hab Hb Hframe HP i x Hi Hx.
  assert (Hin : x ∈ range a b d').
  { apply list_elem_of_lookup. exists (i - a).
    rewrite range_lookup by lia. rewrite <- Hx. f_equal. lia. }
  rewrite (frame_range a b d d' Hab Hframe) in Hin.
  apply list_elem_of_lookup in Hin. destruct Hin as [k Hk].
  assert (Hklt : k < b - a).
  { apply lookup_lt_Some in Hk. unfold range in Hk.
    rewrite length_take in Hk. lia. }
  rewrite range_lookup in Hk by exact Hklt.
  apply (HP (a + k) x); [lia|exact Hk].
Qed.

(** Bounds on the keys of the range are kept by a frame. *)
Lemma frame_keys a b (d d' : list A) (P : Z -> Prop) :
  a <= b -> b <= length d -> frame a b d d' ->
  (forall i, a <= i < b -> P (key_at key d i)) ->
  forall i, a <= i < b -> P (key_at key d' i).
Proof.
  intros Hab Hb Hframe HP i Hi.
  pose proof Hframe as (Hl & _ & _).
  destruct (lookup_lt_is_Some_2 d' i) as [x Hx]; [lia|].
  unfold key_at. rewrite Hx.
  apply (frame_Forall a b d d' (fun x => P (key x)) Hab Hb Hframe) with i;
    [|exact Hi|exact Hx].
  intros k y Hk Hy. specialize (HP k Hk). unfold key_at in HP.
  rewrite Hy in HP. exact HP.
Qed.

Lemma frame_guarded a b (d d' : list A) :
  a <= b -> b <= length d -> frame a b d d' ->
  guarded key a b d -> guarded key a b d'.
Proof.
  intros Hab Hb Hframe Hg i Ha Hi Hib.
  rewrite (frame_key_at a b d d' (a - 1) Hframe) by lia.
  apply (frame_keys a b d d' (fun k => key_at key d (a - 1) <= k)%Z
           Hab Hb Hframe); [|lia].
  intros k Hk. apply Hg; lia.
Qed.

End Ranges.
End RangeFacts.

Ltac swap_keys key :=
  rewrite ?(RangeFacts.Swap_key_at key) by lia;
  repeat match goal with
         | |- context [Nat.eqb ?x ?y] => destruct (Nat.eqb_spec x y)
         end;
  subst.

Ltac by_order :=
  first [ lia
        | match goal with H : _ |- _ => apply H; lia end ].

(** ** The insertion sort of a range *)

Module InsertionRangeFacts.
Section InsertionRange.
Local Open Scope nat_scope.

Context {A : Type}.
Variable key : A -> Z.
Variable lt : A -> A -> bool.
Hypothesis lt_key : forall x y, lt x y = (key x <? key y)%Z.

(** The inner loop of the insertion sort: the element at [j], which is not
    above those of [(j, e)], goes down to its place among those of
    [[a, j)], which are sorted and not above those of [(j, e)] either. *)
Lemma insertion_inner_sorts a e : forall j (d : list A),
  a <= j -> j < e -> e <= length d ->
  sorted_range key a j d ->
  sorted_range key j e d ->
  (forall i k, a <= i -> i < j -> j < k -> k < e ->
               (key_at key d i <= key_at key d k)%Z) ->
  frame a e d (Sort.insertion_inner lt a j d)
  /\ sorted_range key a e (Sort.insertion_inner lt a j d).
Proof.
  induction j as [|j IH]; intros d Ha He Hlen Hlow Hhigh Hcross.
  - simpl. split; [apply RangeFacts.frame_refl|].
    replace a with 0 by lia. exact Hhigh.
  - cbn [Sort.insertion_inner].
    rewrite (RangeFacts.Less_key_at key lt lt_key) by lia.
    destruct (Nat.ltb_spec a (S j)) as [Haj|Haj];
      [destruct (Z.ltb_spec (key_at key d (S j)) (key_at key d j)) as [Hlt|Hge]|];
      cbn [andb].
    + destruct (IH (Sort.Swap d (S j) j)) as [Hframe Hsorted];
        rewrite ?SortFacts.Swap_length; try lia.
      * intros i k Hi Hik Hk. swap_keys key; by_order.
      * intros i k Hi Hik Hk. swap_keys key; by_order.
      * intros i k Hi Hij Hjk Hk. swap_keys key; by_order.
      * split; [|exact Hsorted].
        eapply RangeFacts.frame_trans; [|exact Hframe].
        apply RangeFacts.frame_Swap; lia.
    + split; [apply RangeFacts.frame_refl|].
      intros i k Hi Hik Hk.
      destruct (decide (k <= j)) as [Hkj|Hkj]; [apply Hlow; lia|].
      destruct (decide (S j <= i)) as [Hji|Hji]; [apply Hhigh; lia|].
      destruct (decide (k = S j)) as [->|Hne].
      * specialize (Hlow i j ltac:(lia) ltac:(lia) ltac:(lia)). lia.
      * apply Hcross; lia.
    + split; [apply RangeFacts.frame_refl|].
      intros i k Hi Hik Hk. apply Hhigh; lia.
Qed.

Lemma insertion_outer_sorts a b : forall n i (d : list A),
  a <= i -> i + n = b -> b <= length d ->
  sorted_range key a i d ->
  frame a b d (Sort.insertion_outer lt a i n d)
  /\ sorted_range key a b (Sort.insertion_outer lt a i n d).
Proof.
  induction n as [|n IH]; intros i d Ha Hb Hlen Hsorted.
  - simpl. split; [apply RangeFacts.frame_refl|].
    replace b with i by lia. exact Hsorted.
  - cbn [Sort.insertion_outer].
    destruct (insertion_inner_sorts a (S i) i d) as [Hframe Hinner]; try lia.
    + exact Hsorted.
    + intros x y Hx Hxy Hy. replace y with x by lia. lia.
    + pose proof Hframe as (Hl & _ & _).
      destruct (IH (S i) (Sort.insertion_inner lt a i d)) as [Hframe' Hout];
        try lia; [exact Hinner|].
      split; [|exact Hout].
      eapply RangeFacts.frame_trans; [|exact Hframe'].
      eapply RangeFacts.frame_weaken; [| |exact Hframe]; lia.
Qed.

Lemma insertionSort_sorts (d : list A) a b :
  a <= b -> b <= length d ->
  frame a b d (Sort.insertionSort_func lt d a b)
  /\ sorted_range key a b (Sort.insertionSort_func lt d a b).
Proof.
  intros Hab Hlen. unfold Sort.insertionSort_func.
  destruct (decide (a = b)) as [->|Hne].
  - replace (b - (b + 1)) with 0 by lia. simpl.
    split; [apply RangeFacts.frame_refl|]. intros i j Hi Hij Hj. lia.
  - apply insertion_outer_sorts; try lia.
    intros i j Hi Hij Hj. replace j with i by lia. lia.
Qed.

End InsertionRange.
End InsertionRangeFacts.

(** ** The partitions around a pivot *)

Module PartitionFacts.
Section Partition.
Local Open Scope nat_scope.

Context {A : Type}.
Variable key : A -> Z.
Variable lt : A -> A -> bool.
Hypothesis lt_key : forall x y, lt x y = (key x <? key y)%Z.

(** [scan_up] stops at the first index of [[i, j]] where the condition
    fails, or at [j + 1]. *)
Lemma scan_up_spec cond j : forall fuel i,
  i <= S j -> S j - i <= fuel ->
  i <= Sort.scan_up fuel cond i j <= S j
  /\ (forall k, i <= k -> k < Sort.scan_up fuel cond i j -> cond k = true)
  /\ (Sort.scan_up fuel cond i j <= j ->
      cond (Sort.scan_up fuel cond i j) = false).
Proof.
  induction fuel as [|fuel IH]; intros i Hi Hfuel; cbn [Sort.scan_up].
  - split; [lia|]. split; intros; lia.
  - destruct (Nat.leb_spec i j) as [Hij|Hij]; cbn [andb].
    + destruct (cond i) eqn:Hc.
      * destruct (IH (S i)) as (Hb & Hall & Hstop); try lia.
        split; [lia|]. split; [|exact Hstop].
        intros k Hk Hk'. destruct (decide (k = i)) as [->|]; [exact Hc|].
        apply Hall; lia.
      * split; [lia|]. split; [intros; lia|]. intros _. exact Hc.
    + split; [lia|]. split; intros; lia.
Qed.

(** [scan_down] stops at the last index of [[i, j]] where the condition
    fails, or at [i - 1]. *)
Lemma scan_down_spec cond i : forall fuel j,
  1 <= i -> i <= S j -> S j - i <= fuel ->
  i <= S (Sort.scan_down fuel cond i j)
  /\ Sort.scan_down fuel cond i j <= j
  /\ (forall k, Sort.scan_down fuel cond i j < k -> k <= j -> cond k = true)
  /\ (i <= Sort.scan_down fuel cond i j ->
      cond (Sort.scan_down fuel cond i j) = false).
Proof.
  induction fuel as [|fuel IH]; intros j H1 Hi Hfuel; cbn [Sort.scan_down].
  - split; [lia|]. split; [lia|]. split; intros; lia.
  - destruct (Nat.leb_spec i j) as [Hij|Hij]; cbn [andb].
    + destruct (cond j) eqn:Hc.
      * destruct (IH (j - 1)) as (Hb & Hle & Hall & Hstop); try lia.
        split; [lia|]. split; [lia|]. split; [|exact Hstop].
        intros k Hk Hk'. destruct (decide (k = j)) as [->|]; [exact Hc|].
        apply Hall; lia.
      * split; [lia|]. split; [lia|]. split; [intros; lia|]. intros _. exact Hc.
    + split; [lia|]. split; [lia|]. split; intros; lia.
Qed.

(** The loop of [partition_func], with the pivot at index [a]: when it is
    left at [j], the range [(a, j]] is below the pivot and the range
    [(j, b)] is not. *)
Lemma partition_loop_spec a b : forall fuel (d : list A) i j,
  b <= length d -> a + 1 <= i -> j + 1 <= b -> i <= j + 1 ->
  j + 1 - i <= fuel ->
  (forall k, a < k -> k < i -> (key_at key d k < key_at key d a)%Z) ->
  (forall k, j < k -> k < b -> (key_at key d a <= key_at key d k)%Z) ->
  let d' := fst (Sort.partition_loop lt fuel d a i j) in
  let j' := snd (Sort.partition_loop lt fuel d a i j) in
  frame (a + 1) b d d'
  /\ a <= j' /\ j' < b
  /\ (forall k, a < k -> k <= j' -> (key_at key d' k < key_at key d a)%Z)
  /\ (forall k, j' < k -> k < b -> (key_at key d a <= key_at key d' k)%Z).
Proof.
  induction fuel as [|fuel IH]; intros d i j Hlen Hi Hj Hij Hfuel Hlow Hhigh;
    cbn [Sort.partition_loop].
  - cbn [fst snd]. split; [apply RangeFacts.frame_refl|].
    split; [lia|]. split; [lia|]. split; [|exact Hhigh].
    intros k Hk Hk'. apply Hlow; lia.
  - destruct (scan_up_spec (fun i => Sort.Less lt d i a) j (S j - i) i)
      as (Hi1 & Hup & Hupstop); try lia.
    set (i1 := Sort.scan_up (S j - i) (fun i => Sort.Less lt d i a) i j) in *.
    destruct (scan_down_spec (fun j => negb (Sort.Less lt d j a)) i1
                (S j - i1) j)
      as (Hj1 & Hj1' & Hdown & Hdownstop); try lia.
    set (j1 := Sort.scan_down (S j - i1)
                 (fun j => negb (Sort.Less lt d j a)) i1 j) in *.
    clearbody j1. clearbody i1.
    assert (Hlow1 : forall k, a < k -> k < i1 ->
                              (key_at key d k < key_at key d a)%Z).
    { intros k Hk Hk'. destruct (decide (k < i)) as [|Hge]; [apply Hlow; lia|].
      specialize (Hup k ltac:(lia) Hk').
      rewrite (RangeFacts.Less_key_at key lt lt_key) in Hup by lia. lia. }
    assert (Hhigh1 : forall k, j1 < k -> k < b ->
                               (key_at key d a <= key_at key d k)%Z).
    { intros k Hk Hk'. destruct (decide (j < k)) as [|Hle]; [apply Hhigh; lia|].
      specialize (Hdown k Hk ltac:(lia)).
      rewrite (RangeFacts.Less_key_at key lt lt_key) in Hdown by lia.
      destruct (Z.ltb_spec (key_at key d k) (key_at key d a));
        [discriminate|lia]. }
    destruct (Nat.ltb_spec j1 i1) as [Hlt|Hge].
    + cbn [fst snd]. split; [apply RangeFacts.frame_refl|].
      split; [lia|]. split; [lia|]. split; [|exact Hhigh1].
      intros k Hk Hk'. apply Hlow1; lia.
    + specialize (Hupstop ltac:(lia)). specialize (Hdownstop Hge).
      rewrite (RangeFacts.Less_key_at key lt lt_key) in Hupstop, Hdownstop by lia.
      destruct (Z.ltb_spec (key_at key d i1) (key_at key d a)) as [|Hpi];
        [discriminate|].
      destruct (Z.ltb_spec (key_at key d j1) (key_at key d a)) as [Hpj|];
        [|discriminate].
      assert (Hne : i1 < j1).
      { destruct (decide (i1 = j1)) as [E|]; [rewrite E in Hpi; lia|lia]. }
      assert (Hpivot : key_at key (Sort.Swap d i1 j1) a = key_at key d a)
        by (swap_keys key; lia).
      destruct (IH (Sort.Swap d i1 j1) (S i1) (j1 - 1))
        as (Hframe & Ha' & Hb' & Hlow' & Hhigh');
        rewrite ?SortFacts.Swap_length, ?Hpivot; try lia.
      * intros k Hk Hk'. swap_keys key; by_order.
      * intros k Hk Hk'. swap_keys key; by_order.
      * rewrite Hpivot in Hlow', Hhigh'.
        split; [|split; [exact Ha'|split; [exact Hb'|split; assumption]]].
        eapply RangeFacts.frame_trans; [|exact Hframe].
        apply RangeFacts.frame_Swap; lia.
Qed.

(** [partition_func] runs one iteration of its loop before the loop. *)
Lemma partition_func_loop (d : list A) a b pivot :
  let d0 := Sort.Swap d a pivot in
  let r := Sort.partition_loop lt (S (b - a)) d0 a (a + 1) (b - 1) in
  fst (Sort.partition_func lt d a b pivot) = (Sort.Swap (fst r) (snd r) a, snd r).
Proof.
  cbv zeta. unfold Sort.partition_func. cbn [Sort.partition_loop].
  destruct (_ <? _); [reflexivity|].
  destruct (Sort.partition_loop lt (b - a) _ a _ _) as [d' j']. reflexivity.
Qed.

(** [partition_func]: the pivot ends at [mid], above the range [[a, mid)]
    and not above the range [(mid, b)]. *)
Lemma partition_spec (d : list A) a b pivot :
  a < b -> b <= length d -> a <= pivot < b ->
  let d' := fst (fst (Sort.partition_func lt d a b pivot)) in
  let mid := snd (fst (Sort.partition_func lt d a b pivot)) in
  frame a b d d'
  /\ a <= mid /\ mid < b
  /\ (forall k, a <= k -> k < mid -> (key_at key d' k < key_at key d' mid)%Z)
  /\ (forall k, mid < k -> k < b -> (key_at key d' mid <= key_at key d' k)%Z).
Proof.
  intros Hab Hlen Hpivot. cbv zeta. rewrite partition_func_loop. cbn [fst snd].
  set (d0 := Sort.Swap d a pivot).
  assert (Hlen0 : length d0 = length d) by apply SortFacts.Swap_length.
  destruct (partition_loop_spec a b (S (b - a)) d0 (a + 1) (b - 1))
    as (Hframe & Ha & Hb & Hlow & Hhigh); try lia.
  set (d1 := fst (Sort.partition_loop lt (S (b - a)) d0 a (a + 1) (b - 1))) in *.
  set (j := snd (Sort.partition_loop lt (S (b - a)) d0 a (a + 1) (b - 1))) in *.
  clearbody d1 j.
  pose proof Hframe as (Hlen1 & _ & _).
  assert (Hpiv1 : key_at key d1 a = key_at key d0 a).
  { apply (RangeFacts.frame_key_at key (a + 1) b d0 d1 a Hframe). lia. }
  split; [|split; [exact Ha|split; [exact Hb|split]]].
  - apply (RangeFacts.frame_trans a b d d0);
      [apply RangeFacts.frame_Swap; lia|].
    apply (RangeFacts.frame_trans a b d0 d1);
      [apply (RangeFacts.frame_weaken (a + 1) b); [lia|lia|exact Hframe]|].
    apply RangeFacts.frame_Swap; lia.
  - intros k Hk Hk'. swap_keys key; rewrite ?Hpiv1; by_order.
  - intros k Hk Hk'. swap_keys key; rewrite ?Hpiv1; by_order.
Qed.

(** The loop of [partitionEqual_func], with the pivot at index [a]: when
    it is left at [i], the range [(a, i)] is not above the pivot and the
    range [[i, b)] is. *)
Lemma partitionEqual_loop_spec a b : forall fuel (d : list A) i j,
  b <= length d -> a + 1 <= i -> j + 1 <= b -> i <= j + 1 ->
  j + 1 - i <= fuel ->
  (forall k, a < k -> k < i -> (key_at key d k <= key_at key d a)%Z) ->
  (forall k, j < k -> k < b -> (key_at key d a < key_at key d k)%Z) ->
  let d' := fst (Sort.partitionEqual_loop lt fuel d a i j) in
  let i' := snd (Sort.partitionEqual_loop lt fuel d a i j) in
  frame (a + 1) b d d'
  /\ a < i' /\ i' <= b
  /\ (forall k, a < k -> k < i' -> (key_at key d' k <= key_at key d a)%Z)
  /\ (forall k, i' <= k -> k < b -> (key_at key d a < key_at key d' k)%Z).
Proof.
  induction fuel as [|fuel IH]; intros d i j Hlen Hi Hj Hij Hfuel Hlow Hhigh;
    cbn [Sort.partitionEqual_loop].
  - cbn [fst snd]. split; [apply RangeFacts.frame_refl|].
    split; [lia|]. split; [lia|]. split; [exact Hlow|].
    intros k Hk Hk'. apply Hhigh; lia.
  - destruct (scan_up_spec (fun i => negb (Sort.Less lt d a i)) j (S j - i) i)
      as (Hi1 & Hup & Hupstop); try lia.
    set (i1 := Sort.scan_up (S j - i)
                 (fun i => negb (Sort.Less lt d a i)) i j) in *.
    destruct (scan_down_spec (fun j => Sort.Less lt d a j) i1 (S j - i1) j)
      as (Hj1 & Hj1' & Hdown & Hdownstop); try lia.
    set (j1 := Sort.scan_down (S j - i1)
                 (fun j => Sort.Less lt d a j) i1 j) in *.
    clearbody j1. clearbody i1.
    assert (Hlow1 : forall k, a < k -> k < i1 ->
                              (key_at key d k <= key_at key d a)%Z).
    { intros k Hk Hk'. destruct (decide (k < i)) as [|Hge]; [apply Hlow; lia|].
      specialize (Hup k ltac:(lia) Hk').
      rewrite (RangeFacts.Less_key_at key lt lt_key) in Hup by lia.
      destruct (Z.ltb_spec (key_at key d a) (key_at key d k));
        [discriminate|lia]. }
    assert (Hhigh1 : forall k, j1 < k -> k < b ->
                               (key_at key d a < key_at key d k)%Z).
    { intros k Hk Hk'. destruct (decide (j < k)) as [|Hle]; [apply Hhigh; lia|].
      specialize (Hdown k Hk ltac:(lia)).
      rewrite (RangeFacts.Less_key_at key lt lt_key) in Hdown by lia. lia. }
    destruct (Nat.ltb_spec j1 i1) as [Hlt|Hge].
    + cbn [fst snd]. split; [apply RangeFacts.frame_refl|].
      split; [lia|]. split; [lia|]. split; [exact Hlow1|].
      intros k Hk Hk'. apply Hhigh1; lia.
    + specialize (Hupstop ltac:(lia)). specialize (Hdownstop Hge).
      rewrite (RangeFacts.Less_key_at key lt lt_key) in Hupstop, Hdownstop by lia.
      destruct (Z.ltb_spec (key_at key d a) (key_at key d i1)) as [Hpi|];
        [|discriminate].
      destruct (Z.ltb_spec (key_at key d a) (key_at key d j1)) as [|Hpj];
        [discriminate|].
      assert (Hne : i1 < j1).
      { destruct (decide (i1 = j1)) as [E|]; [rewrite E in Hpi; lia|lia]. }
      assert (Hpivot : key_at key (Sort.Swap d i1 j1) a = key_at key d a)
        by (swap_keys key; lia).
      destruct (IH (Sort.Swap d i1 j1) (S i1) (j1 - 1))
        as (Hframe & Ha' & Hb' & Hlow' & Hhigh');
        rewrite ?SortFacts.Swap_length, ?Hpivot; try lia.
      * intros k Hk Hk'. swap_keys key; by_order.
      * intros k Hk Hk'. swap_keys key; by_order.
      * rewrite Hpivot in Hlow', Hhigh'.
        split; [|split; [exact Ha'|split; [exact Hb'|split; assumption]]].
        eapply RangeFacts.frame_trans; [|exact Hframe].
        apply RangeFacts.frame_Swap; lia.
Qed.

(** [partitionEqual_func]: the range [[a, mid)] is not above the pivot and
    the range [[mid, b)] is. *)
Lemma partitionEqual_spec (d : list A) a b pivot :
  a < b -> b <= length d -> a <= pivot < b ->
  let d' := fst (Sort.partitionEqual_func lt d a b pivot) in
  let mid := snd (Sort.partitionEqual_func lt d a b pivot) in
  frame a b d d'
  /\ a < mid /\ mid <= b
  /\ (forall k, a <= k -> k < mid ->
                (key_at key d' k <= key_at key d pivot)%Z)
  /\ (forall k, mid <= k -> k < b ->
                (key_at key d pivot < key_at key d' k)%Z).
Proof.
  intros Hab Hlen Hpivot. cbv zeta. unfold Sort.partitionEqual_func.
  set (d0 := Sort.Swap d a pivot).
  assert (Hlen0 : length d0 = length d) by apply SortFacts.Swap_length.
  assert (Hp0 : key_at key d0 a = key_at key d pivot).
  { subst d0. swap_keys key; lia. }
  destruct (partitionEqual_loop_spec a b (b - a) d0 (a + 1) (b - 1))
    as (Hframe & Ha & Hb & Hlow & Hhigh); try lia.
  set (d1 := fst (Sort.partitionEqual_loop lt (b - a) d0 a (a + 1) (b - 1))) in *.
  set (mid := snd (Sort.partitionEqual_loop lt (b - a) d0 a (a + 1) (b - 1))) in *.
  clearbody d1 mid.
  assert (Hpiv1 : key_at key d1 a = key_at key d0 a).
  { apply (RangeFacts.frame_key_at key (a + 1) b d0 d1 a Hframe). lia. }
  rewrite Hp0 in *.
  split; [|split; [exact Ha|split; [exact Hb|split]]].
  - apply (RangeFacts.frame_trans a b d d0);
      [apply RangeFacts.frame_Swap; lia|].
    apply (RangeFacts.frame_weaken (a + 1) b); [lia|lia|exact Hframe].
  - intros k Hk Hk'. destruct (decide (k = a)) as [->|]; [lia|].
    apply Hlow; lia.
  - exact Hhigh.
Qed.

End Partition.
End PartitionFacts.

(** ** The heap sort of a range *)

Module HeapSortFacts.
Section HeapSort.
Local Open Scope nat_scope.

Context {A : Type}.
Variable key : A -> Z.
Variable lt : A -> A -> bool.
Hypothesis lt_key : forall x y, lt x y = (key x <? key y)%Z.

(** [siftDown]: when every node from [lo] on but [root] is not below its
    children, and the parent of [root] is not below the children of
    [root], every node from [lo] on is not below its children afterwards. *)
Lemma siftDown_loop_heap lo hi first : forall fuel (d : list A) root,
  first + hi <= length d -> lo <= root -> hi - root <= fuel ->
  (forall i, lo <= i -> i < hi -> i <> root -> heap_at key d hi first i) ->
  (forall i c, lo <= i -> (root = 2 * i + 1 \/ root = 2 * i + 2) ->
               (c = 2 * root + 1 \/ c = 2 * root + 2) -> c < hi ->
               (key_at key d (first + c) <= key_at key d (first + i))%Z) ->
  frame (first + root) (first + hi) d
        (Sort.siftDown_loop lt fuel d root hi first)
  /\ forall i, lo <= i -> i < hi ->
       heap_at key (Sort.siftDown_loop lt fuel d root hi first) hi first i.
Proof.
  induction fuel as [|fuel IH]; intros d root Hlen Hlo Hfuel Hheap Hparent;
    cbn [Sort.siftDown_loop].
  - split; [apply RangeFacts.frame_refl|].
    intros i Hi Hhi. destruct (decide (i = root)) as [->|Hne]; [lia|].
    apply Hheap; assumption.
  - destruct (Nat.leb_spec hi (2 * root + 1)) as [Hleaf|Hchild].
    { split; [apply RangeFacts.frame_refl|].
      intros i Hi Hhi. destruct (decide (i = root)) as [->|Hne].
      - split; intros; lia.
      - apply Hheap; assumption. }
    set (c := if (2 * root + 1 + 1 <? hi)
                 && Sort.Less lt d (first + (2 * root + 1))
                                   (first + (2 * root + 1) + 1)
              then 2 * root + 1 + 1 else 2 * root + 1).
    assert (Hc : (c = 2 * root + 1 \/ c = 2 * root + 2) /\ c < hi
                 /\ (key_at key d (first + (2 * root + 1))
                     <= key_at key d (first + c))%Z
                 /\ (2 * root + 2 < hi ->
                     (key_at key d (first + (2 * root + 2))
                      <= key_at key d (first + c))%Z)).
    { subst c. destruct (Nat.ltb_spec (2 * root + 1 + 1) hi) as [H2|H2];
        cbn [andb].
      - rewrite (RangeFacts.Less_key_at key lt lt_key) by lia.
        replace (first + (2 * root + 1) + 1) with (first + (2 * root + 2)) by lia.
        destruct (Z.ltb_spec (key_at key d (first + (2 * root + 1)))
                             (key_at key d (first + (2 * root + 2)))).
        + replace (2 * root + 1 + 1) with (2 * root + 2) by lia.
          repeat split; try lia.
        + repeat split; try lia.
      - repeat split; try lia. }
    clearbody c. destruct Hc as (Hc & Hchi & Hc1 & Hc2).
    rewrite (RangeFacts.Less_key_at key lt lt_key) by lia.
    destruct (Z.ltb_spec (key_at key d (first + root))
                         (key_at key d (first + c))) as [Hlt|Hge];
      cbn [negb].
    + (* the element goes down to [c] *)
      destruct (IH (Sort.Swap d (first + root) (first + c)) c)
        as [Hframe Hdone]; rewrite ?SortFacts.Swap_length; try lia.
      * intros i Hi Hhi Hne.
        destruct (decide (i = root)) as [->|Hiroot].
        { split; intros Hk; swap_keys key; lia. }
        destruct (decide (root = 2 * i + 1 \/ root = 2 * i + 2)) as [Hpar|Hpar].
        { pose proof (Hheap i Hi Hhi Hiroot) as [Hh1 Hh2].
          pose proof (Hparent i c Hi Hpar Hc Hchi) as Hgrand.
          split; intros Hk; swap_keys key; lia. }
        pose proof (Hheap i Hi Hhi Hiroot) as [Hh1 Hh2].
        split; intros Hk; swap_keys key; lia.
      * intros i cc Hi Hpar Hcc Hcchi.
        assert (i = root) as -> by lia.
        pose proof (Hheap c ltac:(lia) Hchi ltac:(lia)) as [Hh1 Hh2].
        destruct Hcc as [->| ->]; swap_keys key; lia.
      * split; [|exact Hdone].
        apply (RangeFacts.frame_trans (first + root) (first + hi) d
                 (Sort.Swap d (first + root) (first + c)));
          [apply RangeFacts.frame_Swap; lia|].
        apply (RangeFacts.frame_weaken (first + c) (first + hi));
          [lia|lia|exact Hframe].
    + split; [apply RangeFacts.frame_refl|].
      intros i Hi Hhi. destruct (decide (i = root)) as [->|Hne].
      * split; intros; [lia|]. specialize (Hc2 ltac:(lia)). lia.
      * apply Hheap; assumption.
Qed.

Lemma siftDown_heap lo hi first (d : list A) :
  first + hi <= length d ->
  (forall i, lo < i -> i < hi -> heap_at key d hi first i) ->
  frame (first + lo) (first + hi) d (Sort.siftDown_func lt d lo hi first)
  /\ forall i, lo <= i -> i < hi ->
       heap_at key (Sort.siftDown_func lt d lo hi first) hi first i.
Proof.
  intros Hlen Hheap. unfold Sort.siftDown_func.
  apply siftDown_loop_heap; [lia|lia|lia| |lia].
  intros i Hi Hhi Hne. apply Hheap; lia.
Qed.

(** The loop that builds the heap, from the node [i] down to the root. *)
Lemma heap_build_heap hi first : forall i (d : list A),
  first + hi <= length d ->
  (forall k, i < k -> k < hi -> heap_at key d hi first k) ->
  frame first (first + hi) d (Sort.heap_build lt i d hi first)
  /\ forall k, k < hi -> heap_at key (Sort.heap_build lt i d hi first) hi first k.
Proof.
  induction i as [|i IH]; intros d Hlen Hheap; cbn [Sort.heap_build].
  - destruct (siftDown_heap 0 hi first d Hlen Hheap) as [Hframe Hdone].
    split.
    + apply (RangeFacts.frame_weaken (first + 0) (first + hi));
        [lia|lia|exact Hframe].
    + intros k Hk. apply Hdone; lia.
  - destruct (siftDown_heap (S i) hi first d Hlen Hheap) as [Hframe Hdone].
    pose proof Hframe as (Hl & _ & _).
    destruct (IH (Sort.siftDown_func lt d (S i) hi first)) as [Hframe' Hall].
    + lia.
    + intros k Hk Hhi. apply Hdone; lia.
    + split; [|exact Hall].
      eapply RangeFacts.frame_trans; [|exact Hframe'].
      apply (RangeFacts.frame_weaken (first + S i) (first + hi));
        [lia|lia|exact Hframe].
Qed.

(** The root of a heap holds the greatest key. *)
Lemma heap_root_max hi first (d : list A) :
  (forall k, k < hi -> heap_at key d hi first k) ->
  forall j, j < hi ->
    (key_at key d (first + j) <= key_at key d (first + 0))%Z.
Proof.
  intros Hheap j. induction j as [j IH] using lt_wf_ind. intros Hj.
  destruct j as [|j]; [lia|].
  assert (Hparent : exists p, p < S j /\ (S j = 2 * p + 1 \/ S j = 2 * p + 2)).
  { exists (j / 2). pose proof (Nat.div_mod_eq j 2) as Hdiv.
    pose proof (Nat.mod_upper_bound j 2 ltac:(lia)). lia. }
  destruct Hparent as (p & Hp & Hchild).
  specialize (IH p Hp ltac:(lia)).
  destruct (Hheap p ltac:(lia)) as [Hl Hr].
  destruct Hchild as [E|E]; rewrite E in *.
  - specialize (Hl ltac:(lia)). lia.
  - specialize (Hr ltac:(lia)). lia.
Qed.

(** A heap of [hi] nodes is a heap of fewer nodes. *)
Lemma heap_at_shrink hi hi' first (d : list A) i :
  hi' <= hi -> heap_at key d hi first i -> heap_at key d hi' first i.
Proof. intros Hle [Hl Hr]. split; intros H; [apply Hl|apply Hr]; lia. Qed.

(** The loop that empties the heap: the greatest key goes to the end, in
    front of the keys already in place. *)
Lemma heap_drain_sorts hi first : forall n (d : list A),
  n <= hi -> first + hi <= length d ->
  (forall k, k < n -> heap_at key d n first k) ->
  sorted_range key (first + n) (first + hi) d ->
  (forall i k, i < n -> n <= k -> k < hi ->
               (key_at key d (first + i) <= key_at key d (first + k))%Z) ->
  frame first (first + hi) d (Sort.heap_drain lt n d first)
  /\ sorted_range key first (first + hi) (Sort.heap_drain lt n d first).
Proof.
  induction n as [|n IH]; intros d Hn Hlen Hheap Hsorted Hcross;
    cbn [Sort.heap_drain].
  - split; [apply RangeFacts.frame_refl|].
    replace (first + 0) with first in Hsorted by lia. exact Hsorted.
  - pose proof (heap_root_max (S n) first d Hheap) as Hmax.
    set (d1 := Sort.Swap d first (first + n)).
    assert (Hlen1 : length d1 = length d) by apply SortFacts.Swap_length.
    assert (Hframe1 : frame first (first + hi) d d1)
      by (apply RangeFacts.frame_Swap; lia).
    assert (Hswap : forall k,
              key_at key d1 (first + k)
              = if k =? 0 then key_at key d (first + n)
                else if k =? n then key_at key d (first + 0)
                     else key_at key d (first + k)).
    { intros k. subst d1. replace (first + 0) with first by lia.
      rewrite (RangeFacts.Swap_key_at key) by lia.
      destruct (Nat.eqb_spec (first + k) first), (Nat.eqb_spec k 0),
        (Nat.eqb_spec (first + k) (first + n)), (Nat.eqb_spec k n);
        first [reflexivity | exfalso; lia]. }
    assert (Hlast : key_at key d1 (first + n) = key_at key d (first + 0)).
    { rewrite Hswap. destruct (Nat.eqb_spec n 0) as [->|_]; [reflexivity|].
      rewrite Nat.eqb_refl. reflexivity. }
    assert (Hroot : key_at key d1 (first + 0) = key_at key d (first + n)).
    { rewrite Hswap. reflexivity. }
    assert (Hrest : forall k, k <> 0 -> k <> n ->
              key_at key d1 (first + k) = key_at key d (first + k)).
    { intros k H0 Hkn. rewrite Hswap.
      destruct (Nat.eqb_spec k 0), (Nat.eqb_spec k n);
        first [reflexivity | exfalso; lia]. }
    clear Hswap.
    destruct (siftDown_heap 0 n first d1) as [Hframe2 Hheap2].
    { lia. }
    { intros i Hi Hin.
      destruct (heap_at_shrink (S n) n first d i ltac:(lia)
                  (Hheap i ltac:(lia))) as [Hl Hr].
      split; intros Hk; rewrite !Hrest by lia; [apply Hl|apply Hr]; exact Hk. }
    set (d2 := Sort.siftDown_func lt d1 0 n first) in *.
    pose proof Hframe2 as (Hlen2 & _ & _).
    replace (first + 0) with first in Hframe2 by lia.
    assert (Hout2 : forall k, n <= k ->
              key_at key d2 (first + k) = key_at key d1 (first + k)).
    { intros k Hk.
      apply (RangeFacts.frame_key_at key first (first + n) d1 d2);
        [exact Hframe2|lia]. }
    assert (Hin2 : forall (P : Z -> Prop),
              (forall i, i < n -> P (key_at key d1 (first + i))) ->
              forall i, i < n -> P (key_at key d2 (first + i))).
    { intros P HP i Hi.
      apply (RangeFacts.frame_keys key first (first + n) d1 d2 P);
        [lia|lia|exact Hframe2| |lia].
      intros k Hk. replace k with (first + (k - first)) by lia.
      apply HP. lia. }
    assert (Hbelow : forall i, i < n ->
              (key_at key d1 (first + i) <= key_at key d (first + 0))%Z).
    { intros i Hi. destruct (Nat.eq_dec i 0) as [->|Hi0].
      - rewrite Hroot. apply Hmax. lia.
      - rewrite Hrest by lia. apply Hmax. lia. }
    assert (Hcross1 : forall i k, i < n -> n < k -> k < hi ->
              (key_at key d1 (first + i) <= key_at key d (first + k))%Z).
    { intros i k Hi Hnk Hk. destruct (Nat.eq_dec i 0) as [->|Hi0].
      - rewrite Hroot. apply Hcross; lia.
      - rewrite Hrest by lia. apply Hcross; lia. }
    destruct (IH d2) as [Hframe3 Hsorted3].
    + lia.
    + lia.
    + intros k Hk. apply Hheap2; lia.
    + assert (Hgen : forall i k, n <= i -> i <= k -> k < hi ->
                (key_at key d2 (first + i) <= key_at key d2 (first + k))%Z).
      { intros i k Hi Hik Hk. rewrite !Hout2 by lia.
        destruct (Nat.eq_dec i n) as [->|Hin].
        - rewrite Hlast. destruct (Nat.eq_dec k n) as [->|Hkn].
          + rewrite Hlast. lia.
          + rewrite Hrest by lia. apply Hcross; lia.
        - rewrite !Hrest by lia. apply Hsorted; lia. }
      intros i k Hi Hik Hk.
      replace i with (first + (i - first)) by lia.
      replace k with (first + (k - first)) by lia.
      apply Hgen; lia.
    + intros i k Hi Hnk Hk. rewrite (Hout2 k) by lia.
      apply (Hin2 (fun x => (x <= key_at key d1 (first + k))%Z)); [|exact Hi].
      intros j Hj. destruct (Nat.eq_dec k n) as [->|Hkn].
      * rewrite Hlast. apply Hbelow, Hj.
      * rewrite (Hrest k) by lia. apply Hcross1; lia.
    + split; [|exact Hsorted3].
      apply (RangeFacts.frame_trans first (first + hi) d d1); [exact Hframe1|].
      apply (RangeFacts.frame_trans first (first + hi) d1 d2);
        [|exact Hframe3].
      apply (RangeFacts.frame_weaken first (first + n)); [lia|lia|exact Hframe2].
Qed.

Lemma heapSort_sorts (d : list A) a b :
  a <= b -> b <= length d ->
  frame a b d (Sort.heapSort_func lt d a b)
  /\ sorted_range key a b (Sort.heapSort_func lt d a b).
Proof.
  intros Hab Hlen. unfold Sort.heapSort_func.
  destruct (heap_build_heap (b - a) a ((b - a - 1) / 2) d) as [Hframe Hheap].
  { lia. }
  { intros k Hk Hhi. pose proof (Nat.div_mod_eq (b - a - 1) 2) as Hdiv.
    pose proof (Nat.mod_upper_bound (b - a - 1) 2 ltac:(lia)).
    split; intros; lia. }
  set (d1 := Sort.heap_build lt ((b - a - 1) / 2) d (b - a) a) in *.
  pose proof Hframe as (Hlen1 & _ & _).
  destruct (heap_drain_sorts (b - a) a (b - a) d1) as [Hframe2 Hsorted];
    try lia.
  - exact Hheap.
  - intros i j Hi Hij Hj. lia.
  - replace (a + (b - a)) with b in * by lia.
    split; [|exact Hsorted].
    apply (RangeFacts.frame_trans a b d d1); assumption.
Qed.

End HeapSort.
End HeapSortFacts.

(** ** The choice of the pivot *)

Module PivotFacts.
Section Pivot.
Local Open Scope nat_scope.

Context {A : Type}.
Variable key : A -> Z.
Variable lt : A -> A -> bool.
Hypothesis lt_key : forall x y, lt x y = (key x <? key y)%Z.

(** The mask of [breakPatterns_func] keeps a random index below twice the
    length of the range. *)
Lemma random_index_bound (length : nat) (random : Z) :
  0 < length ->
  Z.to_nat (Z.land random (Sort.nextPowerOfTwo length - 1)) < 2 * length.
Proof.
  intros Hpos. unfold Sort.nextPowerOfTwo, Sort.bits_Len.
  destruct length as [|n]; [lia|].
  set (e := S (Nat.log2 (S n))).
  replace (2 ^ Z.of_nat e - 1)%Z with (Z.ones (Z.of_nat e))
    by (rewrite Z.ones_equiv; lia).
  rewrite Z.land_ones by lia.
  pose proof (Z.mod_pos_bound random (2 ^ Z.of_nat e) ltac:(lia)) as Hmod.
  pose proof (Nat.log2_spec (S n) ltac:(lia)) as [Hlow _].
  assert (Hpow : (2 ^ Z.of_nat e = 2 * Z.of_nat (2 ^ Nat.log2 (S n)))%Z).
  { subst e. rewrite Nat2Z.inj_succ, Z.pow_succ_r by lia.
    rewrite Nat2Z.inj_pow. reflexivity. }
  lia.
Qed.

Lemma breakPatterns_frame (d : list A) a b :
  a <= b -> b <= length d ->
  frame a b d (Sort.breakPatterns_func d a b).
Proof.
  intros Hab Hlen. unfold Sort.breakPatterns_func.
  destruct (Nat.leb_spec 8 (b - a)) as [Hlong|_];
    [|apply RangeFacts.frame_refl].
  assert (Hq : 2 <= (b - a) / 4 /\ (b - a) / 4 * 4 <= b - a).
  { pose proof (Nat.div_mod_eq (b - a) 4) as Hdiv.
    pose proof (Nat.mod_upper_bound (b - a) 4 ltac:(lia)). lia. }
  revert Hq. generalize ((b - a) / 4). intros q Hq.
  match goal with
  | |- frame a b d (snd (fold_left ?f _ _)) => set (step := f)
  end.
  assert (Hstep : forall (acc : Z * list A) i, i < 3 ->
            frame a b d (snd acc) -> frame a b d (snd (step acc i))).
  { intros acc i Hi Hframe. pose proof Hframe as (Hl & _ & _).
    eapply RangeFacts.frame_trans; [exact Hframe|].
    pose proof (random_index_bound (b - a) (Sort.xorshift_Next (fst acc))
                  ltac:(lia)) as Hother.
    subst step. cbn [fst snd]. revert Hother.
    generalize (Z.to_nat (Z.land (Sort.xorshift_Next (fst acc))
                            (Sort.nextPowerOfTwo (b - a) - 1))).
    intros other Hother.
    apply RangeFacts.frame_Swap; [lia| |lia].
    destruct (Nat.leb_spec (b - a) other); lia. }
  cbn [fold_left].
  apply Hstep; [lia|]. apply Hstep; [lia|]. apply Hstep; [lia|].
  apply RangeFacts.frame_refl.
Qed.

Lemma reverse_loop_frame a b : forall fuel (d : list A) i j,
  a <= i -> j < b -> b <= length d ->
  frame a b d (Sort.reverse_loop fuel d i j).
Proof.
  induction fuel as [|fuel IH]; intros d i j Hi Hj Hlen;
    cbn [Sort.reverse_loop]; [apply RangeFacts.frame_refl|].
  destruct (Nat.ltb_spec i j) as [Hij|_]; [|apply RangeFacts.frame_refl].
  apply (RangeFacts.frame_trans a b d (Sort.Swap d i j)).
  - apply RangeFacts.frame_Swap; lia.
  - apply IH; [lia|lia|]. rewrite SortFacts.Swap_length. exact Hlen.
Qed.

Lemma reverseRange_frame (d : list A) a b :
  a < b -> b <= length d -> frame a b d (Sort.reverseRange_func d a b).
Proof.
  intros Hab Hlen. unfold Sort.reverseRange_func.
  apply reverse_loop_frame; lia.
Qed.

Lemma order2_choice (d : list A) x y swaps :
  let r := Sort.order2_func lt d x y swaps in
  (fst (fst r) = x /\ snd (fst r) = y) \/ (fst (fst r) = y /\ snd (fst r) = x).
Proof.
  unfold Sort.order2_func. destruct (Sort.Less lt d y x); cbn; auto.
Qed.

Lemma median_choice (d : list A) x y z swaps :
  let m := fst (Sort.median_func lt d x y z swaps) in
  m = x \/ m = y \/ m = z.
Proof.
  unfold Sort.median_func.
  pose proof (order2_choice d x y swaps) as H1.
  destruct (Sort.order2_func lt d x y swaps) as [[x1 y1] s1].
  pose proof (order2_choice d y1 z s1) as H2.
  destruct (Sort.order2_func lt d y1 z s1) as [[y2 z2] s2].
  pose proof (order2_choice d x1 y2 s2) as H3.
  destruct (Sort.order2_func lt d x1 y2 s2) as [[x3 y3] s3].
  cbn in *. lia.
Qed.

Lemma medianAdjacent_choice (d : list A) x swaps :
  let m := fst (Sort.medianAdjacent_func lt d x swaps) in
  x - 1 <= m <= x + 1.
Proof.
  unfold Sort.medianAdjacent_func.
  pose proof (median_choice d (x - 1) x (x + 1) swaps) as H.
  cbv zeta in *. lia.
Qed.

(** The pivot is an index of the range. *)
Lemma choosePivot_range (d : list A) a b :
  a < b ->
  a <= fst (Sort.choosePivot_func lt d a b) < b.
Proof.
  intros Hab. unfold Sort.choosePivot_func.
  assert (Hq : (b - a) / 4 * 4 <= b - a
               /\ (8 <= b - a -> 2 <= (b - a) / 4)).
  { pose proof (Nat.div_mod_eq (b - a) 4) as Hdiv.
    pose proof (Nat.mod_upper_bound (b - a) 4 ltac:(lia)). lia. }
  revert Hq. generalize ((b - a) / 4). intros q Hq.
  assert (Hgoal : forall (r : nat * nat),
            a <= fst r < b ->
            a <= fst (if snd r =? 0 then (fst r, Sort.increasingHint)
                      else if snd r =? 4 * 3 then (fst r, Sort.decreasingHint)
                           else (fst r, Sort.unknownHint)) < b).
  { intros [j s] Hj. cbn [fst snd] in *.
    destruct (s =? 0); [exact Hj|]. destruct (s =? 4 * 3); exact Hj. }
  match goal with
  | |- context [let '(j, swaps) := ?e in _] =>
      assert (Hr : a <= fst e < b); [|destruct e as [j s]; apply (Hgoal (j, s)); exact Hr]
  end.
  destruct (Nat.leb_spec 8 (b - a)) as [Hlong|Hshort]; [|cbn [fst]; lia].
  destruct (Nat.leb_spec 50 (b - a)) as [Hninther|_].
  - pose proof (medianAdjacent_choice d (a + q * 1) 0) as Hi.
    destruct (Sort.medianAdjacent_func lt d (a + q * 1) 0) as [i s1].
    pose proof (medianAdjacent_choice d (a + q * 2) s1) as Hj.
    destruct (Sort.medianAdjacent_func lt d (a + q * 2) s1) as [j s2].
    pose proof (medianAdjacent_choice d (a + q * 3) s2) as Hk.
    destruct (Sort.medianAdjacent_func lt d (a + q * 3) s2) as [k s3].
    pose proof (median_choice d i j k s3) as Hm.
    cbn [fst] in *. cbv zeta in Hm. lia.
  - pose proof (median_choice d (a + q * 1) (a + q * 2) (a + q * 3) 0) as Hm.
    cbv zeta in Hm. lia.
Qed.

End Pivot.
End PivotFacts.

(** ** The partial insertion sort *)

Module PartialInsertionFacts.
Section PartialInsertion.
Local Open Scope nat_scope.

Context {A : Type}.
Variable key : A -> Z.
Variable lt : A -> A -> bool.
Hypothesis lt_key : forall x y, lt x y = (key x <? key y)%Z.

(** The keys of a range in ascending order stay so when the slice changes
    after the range only. *)
Lemma sorted_range_frame a i b (d d' : list A) :
  frame i b d d' -> sorted_range key a i d -> sorted_range key a i d'.
Proof.
  intros Hframe Hsorted x y Hx Hxy Hy.
  rewrite !(RangeFacts.frame_key_at key i b d d') by (exact Hframe || lia).
  apply Hsorted; lia.
Qed.

Lemma sorted_range_extend a i i' (d : list A) :
  a < i -> sorted_range key a i d ->
  (forall k, i <= k -> k < i' ->
             (key_at key d (k - 1) <= key_at key d k)%Z) ->
  sorted_range key a i' d.
Proof.
  intros Hai Hsorted Hadj x y Hx Hxy. revert x Hx Hxy.
  induction y as [|y IH]; intros x Hx Hxy Hy.
  - replace x with 0 by lia. lia.
  - destruct (Nat.eq_dec x (S y)) as [->|Hne]; [lia|].
    destruct (Nat.lt_ge_cases (S y) i) as [Hlow|Hhigh].
    + apply Hsorted; lia.
    + specialize (Hadj (S y) Hhigh Hy).
      replace (S y - 1) with y in Hadj by lia.
      specialize (IH x Hx ltac:(lia) ltac:(lia)). lia.
Qed.

(** With no smaller key before the range, the shift to the left stops at
    the start of the range, as the inner loop of the insertion sort does. *)
Lemma shift_left_guarded a : forall j (d : list A),
  a <= j -> j < length d -> guarded key a (S j) d ->
  Sort.shift_left lt 1 j d = Sort.insertion_inner lt a j d.
Proof.
  induction j as [|j IH]; intros d Haj Hlen Hguard; [reflexivity|].
  cbn [Sort.shift_left Sort.insertion_inner].
  replace (1 <=? S j) with true by (symmetry; apply Nat.leb_le; lia).
  destruct (Nat.ltb_spec a (S j)) as [Hlt|Hge]; cbn [andb].
  - destruct (Sort.Less lt d (S j) j) eqn:Hless; cbn [negb]; [|reflexivity].
    apply IH; [lia|rewrite SortFacts.Swap_length; lia|].
    intros k Ha Hak Hkj.
    rewrite !(RangeFacts.Swap_key_at key) by lia.
    destruct (Nat.eqb_spec (a - 1) (S j)); [lia|].
    destruct (Nat.eqb_spec (a - 1) j); [lia|].
    destruct (Nat.eqb_spec k (S j)); [lia|].
    destruct (Nat.eqb_spec k j); apply Hguard; lia.
  - assert (a = S j) as -> by lia.
    rewrite (RangeFacts.Less_key_at key lt lt_key) by lia.
    specialize (Hguard (S j) ltac:(lia) ltac:(lia) ltac:(lia)).
    replace (S j - 1) with j in Hguard by lia.
    destruct (Z.ltb_spec (key_at key d (S j)) (key_at key d j)); [lia|].
    reflexivity.
Qed.

Lemma shift_right_frame lo hi : forall n j (d : list A),
  lo < j -> j + n <= hi -> hi <= length d ->
  frame lo hi d (Sort.shift_right lt n j d).
Proof.
  induction n as [|n IH]; intros j d Hlo Hhi Hlen; cbn [Sort.shift_right];
    [apply RangeFacts.frame_refl|].
  destruct (Sort.Less lt d j (j - 1)); cbn [negb];
    [|apply RangeFacts.frame_refl].
  apply (RangeFacts.frame_trans lo hi d (Sort.Swap d j (j - 1))).
  - apply RangeFacts.frame_Swap; lia.
  - apply IH; [lia|lia|rewrite SortFacts.Swap_length; lia].
Qed.

Lemma partialInsertion_loop_spec a b : forall steps (d : list A) i,
  a < i -> i <= b -> b <= length d ->
  sorted_range key a i d -> guarded key a b d ->
  frame a b d (fst (Sort.partialInsertion_loop lt steps d a b i))
  /\ (snd (Sort.partialInsertion_loop lt steps d a b i) = true ->
      sorted_range key a b (fst (Sort.partialInsertion_loop lt steps d a b i))).
Proof.
  induction steps as [|steps IH]; intros d i Hai Hib Hlen Hsorted Hguard;
    cbn [Sort.partialInsertion_loop].
  - cbn [fst snd]. split; [apply RangeFacts.frame_refl|discriminate].
  - destruct (PartitionFacts.scan_up_spec
                (fun i => negb (Sort.Less lt d i (i - 1))) (b - 1) (b - i) i)
      as (Hrange & Hbefore & _); [lia|lia|].
    revert Hrange Hbefore.
    generalize (Sort.scan_up (b - i)
                  (fun i => negb (Sort.Less lt d i (i - 1))) i (b - 1)).
    intros i' Hrange Hbefore.
    assert (Hsorted' : sorted_range key a i' d).
    { apply (sorted_range_extend a i i' d Hai Hsorted).
      intros k Hik Hki. specialize (Hbefore k Hik Hki). cbv beta in Hbefore.
      rewrite (RangeFacts.Less_key_at key lt lt_key) in Hbefore by lia.
      destruct (Z.ltb_spec (key_at key d k) (key_at key d (k - 1)));
        [discriminate|lia]. }
    destruct (Nat.eqb_spec i' b) as [->|Hne].
    { cbn [fst snd]. split; [apply RangeFacts.frame_refl|].
      intros _. exact Hsorted'. }
    destruct (b - a <? 50).
    { cbn [fst snd]. split; [apply RangeFacts.frame_refl|discriminate]. }
    set (d1 := Sort.Swap d i' (i' - 1)).
    assert (Hframe1 : frame a b d d1)
      by (apply RangeFacts.frame_Swap; lia).
    assert (Hlen1 : length d1 = length d) by apply SortFacts.Swap_length.
    assert (Hguard1 : guarded key a b d1)
      by (apply (RangeFacts.frame_guarded key a b d d1);
          [lia|lia|exact Hframe1|exact Hguard]).
    assert (Hsorted1 : sorted_range key a (i' - 1) d1).
    { intros x y Hx Hxy Hy. subst d1.
      rewrite !(RangeFacts.Swap_key_at key) by lia.
      destruct (Nat.eqb_spec x i'); [lia|].
      destruct (Nat.eqb_spec x (i' - 1)); [lia|].
      destruct (Nat.eqb_spec y i'); [lia|].
      destruct (Nat.eqb_spec y (i' - 1)); [lia|].
      apply Hsorted'; lia. }
    set (d2 := if 2 <=? i' - a then Sort.shift_left lt 1 (i' - 1) d1 else d1).
    assert (H2 : frame a i' d1 d2 /\ sorted_range key a i' d2).
    { subst d2. destruct (Nat.leb_spec 2 (i' - a)) as [Hfar|Hnear].
      - rewrite (shift_left_guarded a) by
          (try lia; intros k Ha Hk Hki; apply Hguard1; lia).
        apply (InsertionRangeFacts.insertion_inner_sorts key lt lt_key);
          [lia|lia|lia|exact Hsorted1| |].
        + intros x y Hx Hxy Hy. replace y with x by lia. lia.
        + intros x y Hx Hxi Hy Hyi. lia.
      - split; [apply RangeFacts.frame_refl|].
        intros x y Hx Hxy Hy. replace y with x by lia. lia. }
    destruct H2 as [Hframe2 Hsorted2].
    pose proof Hframe2 as (Hlen2 & _ & _).
    set (d3 := if 2 <=? b - i'
               then Sort.shift_right lt (b - (i' + 1)) (i' + 1) d2 else d2).
    assert (Hframe3 : frame i' b d2 d3).
    { subst d3. destruct (2 <=? b - i'); [|apply RangeFacts.frame_refl].
      apply shift_right_frame; lia. }
    pose proof Hframe3 as (Hlen3 & _ & _).
    assert (Hframe : frame a b d d3).
    { apply (RangeFacts.frame_trans a b d d1); [exact Hframe1|].
      apply (RangeFacts.frame_trans a b d1 d2).
      - apply (RangeFacts.frame_weaken a i'); [lia|lia|exact Hframe2].
      - apply (RangeFacts.frame_weaken i' b); [lia|lia|exact Hframe3]. }
    destruct (IH d3 i') as [Hrec Hdone]; [lia|lia|lia| | |].
    + apply (sorted_range_frame a i' b d2 d3 Hframe3 Hsorted2).
    + apply (RangeFacts.frame_guarded key a b d d3);
        [lia|lia|exact Hframe|exact Hguard].
    + split; [|exact Hdone].
      apply (RangeFacts.frame_trans a b d d3); assumption.
Qed.

Lemma partialInsertionSort_spec (d : list A) a b :
  a < b -> b <= length d -> guarded key a b d ->
  frame a b d (fst (Sort.partialInsertionSort_func lt d a b))
  /\ (snd (Sort.partialInsertionSort_func lt d a b) = true ->
      sorted_range key a b (fst (Sort.partialInsertionSort_func lt d a b))).
Proof.
  intros Hab Hlen Hguard. unfold Sort.partialInsertionSort_func.
  apply partialInsertion_loop_spec; [lia|lia|exact Hlen| |exact Hguard].
  intros x y Hx Hxy Hy. replace y with x by lia. lia.
Qed.

End PartialInsertion.
End PartialInsertionFacts.

(** ** [sort.Slice] sorts slices of every length *)

Module PdqsortFacts.
Section Pdqsort.
Local Open Scope nat_scope.

Context {A : Type}.
Variable key : A -> Z.
Variable lt : A -> A -> bool.
Hypothesis lt_key : forall x y, lt x y = (key x <? key y)%Z.

Lemma pivot_at_frame_left a mid b (d d' : list A) :
  a <= mid -> mid < b -> b <= length d ->
  frame a mid d d' -> pivot_at key a mid b d -> pivot_at key a mid b d'.
Proof.
  intros Ha Hb Hlen Hframe [Hleft Hright].
  assert (Hmid : key_at key d' mid = key_at key d mid)
    by (apply (RangeFacts.frame_key_at key a mid); [exact Hframe|lia]).
  split; intros k Hk1 Hk2; rewrite Hmid.
  - apply (RangeFacts.frame_keys key a mid d d'
             (fun x => (x <= key_at key d mid)%Z));
      [lia|lia|exact Hframe| |lia].
    intros i Hi. apply Hleft; lia.
  - rewrite (RangeFacts.frame_key_at key a mid d d') by (exact Hframe || lia).
    apply Hright; lia.
Qed.

Lemma pivot_at_frame_right a mid b (d d' : list A) :
  a <= mid -> mid < b -> b <= length d ->
  frame (mid + 1) b d d' -> pivot_at key a mid b d -> pivot_at key a mid b d'.
Proof.
  intros Ha Hb Hlen Hframe [Hleft Hright].
  assert (Hmid : key_at key d' mid = key_at key d mid)
    by (apply (RangeFacts.frame_key_at key (mid + 1) b); [exact Hframe|lia]).
  split; intros k Hk1 Hk2; rewrite Hmid.
  - rewrite (RangeFacts.frame_key_at key (mid + 1) b d d')
      by (exact Hframe || lia).
    apply Hleft; lia.
  - apply (RangeFacts.frame_keys key (mid + 1) b d d'
             (fun x => (key_at key d mid <= x)%Z));
      [lia|lia|exact Hframe| |lia].
    intros i Hi. apply Hright; lia.
Qed.

(** Two sorted halves around a pivot make a sorted range. *)
Lemma sorted_range_join a mid b (d : list A) :
  pivot_at key a mid b d ->
  sorted_range key a mid d -> sorted_range key (mid + 1) b d ->
  sorted_range key a b d.
Proof.
  intros [Hleft Hright] Hlow Hhigh x y Hx Hxy Hy.
  destruct (Nat.lt_trichotomy x mid) as [Hxm|[->|Hxm]];
    destruct (Nat.lt_trichotomy y mid) as [Hym|[->|Hym]]; try lia.
  - apply Hlow; lia.
  - apply Hleft; lia.
  - specialize (Hleft x ltac:(lia) ltac:(lia)).
    specialize (Hright y ltac:(lia) ltac:(lia)). lia.
  - apply Hright; lia.
  - apply Hhigh; lia.
Qed.

Lemma pivot_at_guarded a mid b (d : list A) :
  pivot_at key a mid b d -> guarded key (mid + 1) b d.
Proof.
  intros [_ Hright] i _ Hi Hib.
  replace (mid + 1 - 1) with mid by lia. apply Hright; lia.
Qed.

Lemma guarded_shrink a b b' (d : list A) :
  b' <= b -> guarded key a b d -> guarded key a b' d.
Proof. intros Hb Hguard i Ha Hi Hib. apply Hguard; lia. Qed.

Lemma guarded_frame_after a b lo hi (d d' : list A) :
  b <= lo -> frame lo hi d d' -> guarded key a b d -> guarded key a b d'.
Proof.
  intros Hb Hframe Hguard i Ha Hi Hib.
  rewrite !(RangeFacts.frame_key_at key lo hi d d') by (exact Hframe || lia).
  apply Hguard; lia.
Qed.

(** [pdqsort_func] sorts the range it is given, and nothing else moves,
    when no key of the range is below the key just before it. *)
Lemma pdqsort_sorts : forall fuel (d : list A) a b limit wasBalanced wasPartitioned,
  a <= b -> b <= length d -> b - a < fuel -> guarded key a b d ->
  frame a b d (Sort.pdqsort_func lt fuel d a b limit wasBalanced wasPartitioned)
  /\ sorted_range key a b
       (Sort.pdqsort_func lt fuel d a b limit wasBalanced wasPartitioned).
Proof.
  induction fuel as [|fuel IH];
    intros d a b limit wasBalanced wasPartitioned Hab Hlen Hfuel Hguard;
    [lia|].
  cbn [Sort.pdqsort_func].
  destruct (Nat.leb_spec (b - a) Sort.maxInsertion) as [_|Hlong];
    [apply (InsertionRangeFacts.insertionSort_sorts key lt lt_key); lia|].
  unfold Sort.maxInsertion in Hlong.
  destruct (limit =? 0);
    [apply (HeapSortFacts.heapSort_sorts key lt lt_key); lia|].
  set (broken := if negb wasBalanced
                 then (Sort.breakPatterns_func d a b, limit - 1)
                 else (d, limit)).
  assert (Hbroken : frame a b d (fst broken)).
  { subst broken. destruct (negb wasBalanced); cbn [fst];
      [apply PivotFacts.breakPatterns_frame; lia|apply RangeFacts.frame_refl]. }
  destruct broken as [d1 limit1]. cbn [fst] in Hbroken.
  pose proof Hbroken as (Hlen1 & _ & _).
  pose proof (PivotFacts.choosePivot_range lt d1 a b ltac:(lia)) as Hpivot.
  destruct (Sort.choosePivot_func lt d1 a b) as [pivot hint].
  cbn [fst] in Hpivot.
  set (reversed := match hint with
                   | Sort.decreasingHint =>
                       (Sort.reverseRange_func d1 a b, b - 1 - (pivot - a),
                        Sort.increasingHint)
                   | _ => (d1, pivot, hint)
                   end).
  assert (Hreversed : frame a b d1 (fst (fst reversed))
                      /\ a <= snd (fst reversed) < b).
  { subst reversed. destruct hint; cbn [fst snd];
      (split; [|lia]);
      first [apply RangeFacts.frame_refl
            |apply PivotFacts.reverseRange_frame; lia]. }
  destruct reversed as [[d2 pivot2] hint2]. cbn [fst snd] in Hreversed.
  destruct Hreversed as [Hframe2 Hpivot2].
  pose proof Hframe2 as (Hlen2 & _ & _).
  assert (Hframe02 : frame a b d d2)
    by (apply (RangeFacts.frame_trans a b d d1); assumption).
  assert (Hguard2 : guarded key a b d2)
    by (apply (RangeFacts.frame_guarded key a b d d2);
        [lia|lia|exact Hframe02|exact Hguard]).
  set (partial := match hint2 with
                  | Sort.increasingHint =>
                      if wasBalanced && wasPartitioned
                      then Sort.partialInsertionSort_func lt d2 a b
                      else (d2, false)
                  | _ => (d2, false)
                  end).
  assert (Hpartial : frame a b d2 (fst partial)
                     /\ (snd partial = true ->
                         sorted_range key a b (fst partial))).
  { assert (Hnone : frame a b d2 (fst (d2, false))
                    /\ (snd (d2, false) = true ->
                        sorted_range key a b (fst (d2, false))))
      by (cbn [fst snd]; split; [apply RangeFacts.frame_refl|discriminate]).
    subst partial. destruct hint2; try exact Hnone.
    destruct (wasBalanced && wasPartitioned); [|exact Hnone].
    apply (PartialInsertionFacts.partialInsertionSort_spec key lt lt_key);
      [lia|lia|exact Hguard2]. }
  destruct partial as [d3 sorted]. cbn [fst snd] in Hpartial.
  destruct Hpartial as [Hframe3 Hsorted3].
  pose proof Hframe3 as (Hlen3 & _ & _).
  assert (Hframe03 : frame a b d d3)
    by (apply (RangeFacts.frame_trans a b d d2); assumption).
  assert (Hguard3 : guarded key a b d3)
    by (apply (RangeFacts.frame_guarded key a b d d3);
        [lia|lia|exact Hframe03|exact Hguard]).
  destruct sorted; [split; [exact Hframe03|apply Hsorted3; reflexivity]|].
  clear Hsorted3.
  destruct ((0 <? a) && negb (Sort.Less lt d3 (a - 1) pivot2)) eqn:Hequal.
  - apply andb_prop in Hequal as [Hpos Hnotless].
    apply Nat.ltb_lt in Hpos.
    rewrite (RangeFacts.Less_key_at key lt lt_key) in Hnotless by lia.
    apply negb_true_iff, Z.ltb_ge in Hnotless.
    destruct (PartitionFacts.partitionEqual_spec key lt lt_key d3 a b pivot2)
      as (Hframe4 & Hmid1 & Hmid2 & Hleft & Hright); [lia|lia|lia|].
    destruct (Sort.partitionEqual_func lt d3 a b pivot2) as [d4 mid].
    cbn [fst snd] in Hframe4, Hmid1, Hmid2, Hleft, Hright.
    pose proof Hframe4 as (Hlen4 & _ & _).
    assert (Hguard4 : guarded key a b d4)
      by (apply (RangeFacts.frame_guarded key a b d3 d4);
          [lia|lia|exact Hframe4|exact Hguard3]).
    assert (Hbefore : key_at key d4 (a - 1) = key_at key d3 (a - 1))
      by (apply (RangeFacts.frame_key_at key a b); [exact Hframe4|lia]).
    assert (Hflat : forall k, a - 1 <= k -> k < mid ->
              key_at key d4 k = key_at key d3 pivot2).
    { intros k Hk1 Hk2.
      pose proof (Hguard3 pivot2 ltac:(lia) ltac:(lia) ltac:(lia)) as Hp.
      destruct (Nat.eq_dec k (a - 1)) as [->|Hne]; [lia|].
      specialize (Hleft k ltac:(lia) Hk2).
      specialize (Hguard4 k ltac:(lia) ltac:(lia) ltac:(lia)). lia. }
    destruct (IH d4 mid b limit1 wasBalanced wasPartitioned)
      as [Hframe5 Hsorted5]; [lia|lia|lia| |].
    { intros k _ Hk1 Hk2. rewrite (Hflat (mid - 1)) by lia.
      specialize (Hright k Hk1 Hk2). lia. }
    set (d5 := Sort.pdqsort_func lt fuel d4 mid b limit1 wasBalanced
                 wasPartitioned) in *.
    split.
    + apply (RangeFacts.frame_trans a b d d3); [exact Hframe03|].
      apply (RangeFacts.frame_trans a b d3 d4); [exact Hframe4|].
      apply (RangeFacts.frame_weaken mid b); [lia|lia|exact Hframe5].
    + assert (Hlow : forall k, a <= k -> k < mid ->
                key_at key d5 k = key_at key d3 pivot2).
      { intros k Hk1 Hk2.
        rewrite (RangeFacts.frame_key_at key mid b d4 d5)
          by (exact Hframe5 || lia).
        apply Hflat; lia. }
      assert (Hhigh : forall k, mid <= k -> k < b ->
                (key_at key d3 pivot2 < key_at key d5 k)%Z).
      { intros k Hk1 Hk2.
        apply (RangeFacts.frame_keys key mid b d4 d5
                 (fun x => (key_at key d3 pivot2 < x)%Z));
          [lia|lia|exact Hframe5| |lia].
        intros i Hi. apply Hright; lia. }
      intros x y Hx Hxy Hy.
      destruct (Nat.lt_ge_cases x mid) as [Hxm|Hxm];
        destruct (Nat.lt_ge_cases y mid) as [Hym|Hym]; try lia.
      * rewrite !Hlow by lia. lia.
      * rewrite (Hlow x) by lia. specialize (Hhigh y Hym Hy). lia.
      * apply Hsorted5; lia.
  - clear Hequal.
    destruct (PartitionFacts.partition_spec key lt lt_key d3 a b pivot2)
      as (Hframe4 & Hmid1 & Hmid2 & Hleft & Hright); [lia|lia|lia|].
    destruct (Sort.partition_func lt d3 a b pivot2) as [[d4 mid] already].
    cbn [fst snd] in Hframe4, Hmid1, Hmid2, Hleft, Hright.
    pose proof Hframe4 as (Hlen4 & _ & _).
    assert (Hframe04 : frame a b d d4)
      by (apply (RangeFacts.frame_trans a b d d3); assumption).
    assert (Hguard4 : guarded key a b d4)
      by (apply (RangeFacts.frame_guarded key a b d d4);
          [lia|lia|exact Hframe04|exact Hguard]).
    assert (Hpivot4 : pivot_at key a mid b d4).
    { split; intros k Hk1 Hk2;
        [specialize (Hleft k Hk1 Hk2)|specialize (Hright k Hk1 Hk2)]; lia. }
    destruct (mid - a <? b - mid).
    + destruct (IH d4 a mid limit1 true true) as [Hframe5 Hsorted5];
        [lia|lia|lia|apply (guarded_shrink a b); [lia|exact Hguard4]|].
      set (d5 := Sort.pdqsort_func lt fuel d4 a mid limit1 true true) in *.
      pose proof Hframe5 as (Hlen5 & _ & _).
      pose proof (pivot_at_frame_left a mid b d4 d5 ltac:(lia) ltac:(lia)
                    ltac:(lia) Hframe5 Hpivot4) as Hpivot5.
      destruct (IH d5 (mid + 1) b limit1 ((b - a) / 8 <=? mid - a) already)
        as [Hframe6 Hsorted6];
        [lia|lia|lia|apply (pivot_at_guarded a), Hpivot5|].
      set (d6 := Sort.pdqsort_func lt fuel d5 (mid + 1) b limit1
                   ((b - a) / 8 <=? mid - a) already) in *.
      split.
      * apply (RangeFacts.frame_trans a b d d4); [exact Hframe04|].
        apply (RangeFacts.frame_trans a b d4 d5).
        -- apply (RangeFacts.frame_weaken a mid); [lia|lia|exact Hframe5].
        -- apply (RangeFacts.frame_weaken (mid + 1) b);
             [lia|lia|exact Hframe6].
      * apply (sorted_range_join a mid b).
        -- apply (pivot_at_frame_right a mid b d5 d6);
             [lia|lia|lia|exact Hframe6|exact Hpivot5].
        -- apply (PartialInsertionFacts.sorted_range_frame key a mid b d5 d6);
             [|exact Hsorted5].
           apply (RangeFacts.frame_weaken (mid + 1) b);
             [lia|lia|exact Hframe6].
        -- exact Hsorted6.
    + destruct (IH d4 (mid + 1) b limit1 true true) as [Hframe5 Hsorted5];
        [lia|lia|lia|apply (pivot_at_guarded a), Hpivot4|].
      set (d5 := Sort.pdqsort_func lt fuel d4 (mid + 1) b limit1 true true)
        in *.
      pose proof Hframe5 as (Hlen5 & _ & _).
      pose proof (pivot_at_frame_right a mid b d4 d5 ltac:(lia) ltac:(lia)
                    ltac:(lia) Hframe5 Hpivot4) as Hpivot5.
      destruct (IH d5 a mid limit1 ((b - a) / 8 <=? b - mid) already)
        as [Hframe6 Hsorted6]; [lia|lia|lia| |].
      { apply (guarded_frame_after a mid (mid + 1) b d4 d5);
          [lia|exact Hframe5|].
        apply (guarded_shrink a b); [lia|exact Hguard4]. }
      set (d6 := Sort.pdqsort_func lt fuel d5 a mid limit1
                   ((b - a) / 8 <=? b - mid) already) in *.
      split.
      * apply (RangeFacts.frame_trans a b d d4); [exact Hframe04|].
        apply (RangeFacts.frame_trans a b d4 d5).
        -- apply (RangeFacts.frame_weaken (mid + 1) b);
             [lia|lia|exact Hframe5].
        -- apply (RangeFacts.frame_weaken a mid); [lia|lia|exact Hframe6].
      * apply (sorted_range_join a mid b).
        -- apply (pivot_at_frame_left a mid b d5 d6);
             [lia|lia|lia|exact Hframe6|exact Hpivot5].
        -- exact Hsorted6.
        -- intros x y Hx Hxy Hy.
           rewrite !(RangeFacts.frame_key_at key a mid d5 d6)
             by (exact Hframe6 || lia).
           apply Hsorted5; lia.
Qed.

(** [sort.Slice] puts the keys in ascending order, whatever the length. *)
Lemma Slice_sorts (d : list A) :
  Sort.Slice lt d ≡ₚ d
  /\ sorted_range key 0 (length d) (Sort.Slice lt d).
Proof.
  unfold Sort.Slice.
  destruct (pdqsort_sorts (S (length d)) d 0 (length d)
              (Sort.bits_Len (length d)) true true) as [(_ & _ & Hperm) Hsorted];
    [lia|lia|lia| |split; assumption].
  intros i Ha. lia.
Qed.

End Pdqsort.
End PdqsortFacts.

(** Ascending keys by index are ascending arrival times along the list. *)
Lemma sorted_range_arrival (l : list Process) :
  sorted_range ArrivalTime 0 (length l) l -> arrival_sorted l.
Proof.
  induction l as [|p l IH]; intros Hsorted; [constructor|].
  constructor.
  - apply IH. intros i j Hi Hij Hj.
    apply (Hsorted (S i) (S j)); cbn [length]; lia.
  - apply Forall_lookup_2. intros i q Hq.
    pose proof (lookup_lt_Some _ _ _ Hq) as Hlt.
    specialize (Hsorted 0%nat (S i) ltac:(lia) ltac:(lia)
                  ltac:(cbn [length]; lia)).
    change (key_at ArrivalTime (p :: l) (S i))
      with (key_at ArrivalTime l i) in Hsorted.
    unfold key_at at 2 in Hsorted. rewrite Hq in Hsorted. exact Hsorted.
Qed.

Lemma Slice_arrival_sorted (processes : list Process) :
  arrival_sorted (Sort.Slice arrival_less processes).
Proof.
  apply sorted_range_arrival.
  destruct (PdqsortFacts.Slice_sorts ArrivalTime arrival_less
              ltac:(reflexivity) processes) as [Hperm Hsorted].
  rewrite (Permutation_length Hperm). exact Hsorted.
Qed.

(** C5. [SJFSchedule] and [SJFPrioritySchedule] first sort the slice by
    arrival time with [sort.Slice], and schedule the sorted slice. The
    sorted slice holds the processes of the batch in ascending order of
    arrival, whatever their number; when the batch has at most 12
    processes, those with equal arrival times keep their input order. *)
Theorem sjf_sorts_by_arrival (processes : list Process) :
  let sorted := Sort.Slice arrival_less processes in
  call_processes (SJFSchedule processes) = sorted
  /\ call_processes (SJFPrioritySchedule processes) = sorted
  /\ sorted ≡ₚ processes
  /\ arrival_sorted sorted
  /\ ((length processes <= 12)%nat -> ties_keep_order processes sorted).
Proof.
  cbv zeta. split; [reflexivity|]. split; [reflexivity|]. split; [|split].
  - apply SortFacts.Slice_perm.
  - apply Slice_arrival_sorted.
  - intros Hlen. apply Slice_small_stable, Hlen.
Qed.

Lemma sjf_sorts_by_arrival_witness :
  ties_keep_order batch_two_at_zero
                  (Sort.Slice arrival_less batch_two_at_zero).
Proof.
  apply (proj2 (proj2 (proj2 (proj2 (sjf_sorts_by_arrival batch_two_at_zero))))).
  simpl. lia.
Defined.

(** C5, as stated, fails on larger batches: of the thirteen processes of
    [batch_thirteen], twelve arrive at time 0 with ids 2 to 13 in that
    order, and the sorted slice starts with the one of id 7. *)
Lemma sjf_sorts_by_arrival_cex :
  ~ ties_keep_order batch_thirteen (call_processes (SJFSchedule batch_thirteen))
  /\ ~ ties_keep_order batch_thirteen
         (call_processes (SJFPrioritySchedule batch_thirteen))
  /\ map ProcessID (call_processes (SJFSchedule batch_thirteen))
     = [7; 2; 3; 4; 5; 6; 8; 9; 10; 11; 12; 13; 1].
Proof.
  split; [|split]; [| |vm_compute; reflexivity];
    intros H; specialize (H 0); vm_compute in H; discriminate H.
Qed.

(** ** [sort.Slice] leaves a slice that is in order *)

Module OrderedFacts.
Section Ordered.
Local Open Scope nat_scope.

Context {A : Type}.
Variable lt : A -> A -> bool.
Variable data : list A.

(** No element is smaller than one before it. *)
Hypothesis in_order : forall i j, i <= j -> Sort.Less lt data j i = false.

Lemma insertion_inner_ordered a j : Sort.insertion_inner lt a j data = data.
Proof.
  destruct j as [|j]; simpl; [reflexivity|].
  rewrite in_order by lia. rewrite andb_false_r. reflexivity.
Qed.

Lemma insertion_outer_ordered a n : forall i,
  Sort.insertion_outer lt a i n data = data.
Proof.
  induction n as [|n IH]; intros i; simpl; [reflexivity|].
  rewrite insertion_inner_ordered. apply IH.
Qed.

Lemma order2_ordered a b swaps :
  a <= b -> Sort.order2_func lt data a b swaps = (a, b, swaps).
Proof. intros H. unfold Sort.order2_func. rewrite in_order by exact H. reflexivity. Qed.

Lemma median_ordered a b c swaps :
  a <= b -> b <= c -> Sort.median_func lt data a b c swaps = (b, swaps).
Proof.
  intros Hab Hbc. unfold Sort.median_func.
  rewrite (order2_ordered a b) by exact Hab.
  rewrite (order2_ordered b c) by exact Hbc.
  rewrite (order2_ordered a b) by exact Hab. reflexivity.
Qed.

Lemma choosePivot_ordered a b :
  snd (Sort.choosePivot_func lt data a b) = Sort.increasingHint.
Proof.
  unfold Sort.choosePivot_func, Sort.medianAdjacent_func.
  destruct (8 <=? b - a); [|reflexivity].
  destruct (50 <=? b - a); generalize ((b - a) / 4); intros q.
  - rewrite (median_ordered (a + q * 1 - 1)) by lia. cbv beta iota.
    rewrite (median_ordered (a + q * 2 - 1)) by lia. cbv beta iota.
    rewrite (median_ordered (a + q * 3 - 1)) by lia. cbv beta iota.
    rewrite median_ordered by lia. reflexivity.
  - rewrite median_ordered by lia. reflexivity.
Qed.

Lemma scan_up_all cond b : forall fuel i,
  (forall k, cond k = true) ->
  i + fuel = b ->
  Sort.scan_up fuel cond i (b - 1) = b.
Proof.
  induction fuel as [|fuel IH]; intros i Hcond Hb; simpl; [lia|].
  destruct (Nat.leb_spec i (b - 1)); [|lia].
  rewrite Hcond. simpl. apply IH; [exact Hcond|lia].
Qed.

Lemma partialInsertion_loop_ordered steps a b i :
  1 <= i <= b ->
  Sort.partialInsertion_loop lt (S steps) data a b i = (data, true).
Proof.
  intros Hi. cbn [Sort.partialInsertion_loop].
  rewrite scan_up_all; [rewrite Nat.eqb_refl; reflexivity| |lia].
  intros k. rewrite in_order by lia. reflexivity.
Qed.

Lemma partialInsertionSort_ordered a b :
  a < b -> Sort.partialInsertionSort_func lt data a b = (data, true).
Proof.
  intros Hab. apply partialInsertion_loop_ordered. lia.
Qed.

Lemma bits_Len_pos n : 0 < n -> Sort.bits_Len n <> 0.
Proof. destruct n; [lia|discriminate]. Qed.

Lemma Slice_ordered : Sort.Slice lt data = data.
Proof.
  unfold Sort.Slice. cbn [Sort.pdqsort_func]. rewrite Nat.sub_0_r.
  destruct (Nat.leb_spec (length data) Sort.maxInsertion) as [Hle|Hgt].
  { apply insertion_outer_ordered. }
  unfold Sort.maxInsertion in Hgt.
  destruct (Nat.eqb_spec (Sort.bits_Len (length data)) 0) as [E|_].
  { exfalso. revert E. apply bits_Len_pos. lia. }
  cbn [negb].
  pose proof (choosePivot_ordered 0 (length data)) as Hhint.
  destruct (Sort.choosePivot_func lt data 0 (length data)) as [pivot hint].
  simpl in Hhint. subst hint. cbn [andb].
  rewrite partialInsertionSort_ordered by lia. reflexivity.
Qed.

End Ordered.
End OrderedFacts.

Lemma StronglySorted_lookup {A} (R : A -> A -> Prop) (l : list A) :
  StronglySorted R l ->
  forall i j x y, (i < j)%nat -> l !! i = Some x -> l !! j = Some y -> R x y.
Proof.
  induction 1 as [|z l Hl IH Hz]; intros i j x y Hij Hi Hj.
  - rewrite lookup_nil in Hi. discriminate.
  - destruct j as [|j]; [lia|]. simpl in Hj.
    destruct i as [|i]; simpl in Hi.
    + injection Hi as <-.
      exact (proj1 (Forall_forall _ _) Hz y (list_elem_of_lookup_2 _ _ _ Hj)).
    + apply (IH i j); [lia|assumption..].
Qed.

Lemma arrival_sorted_in_order (l : list Process) :
  arrival_sorted l ->
  forall i j, (i <= j)%nat -> Sort.Less arrival_less l j i = false.
Proof.
  intros Hl i j Hij. unfold Sort.Less, arrival_less.
  destruct (l !! j) as [y|] eqn:Hj; [|reflexivity].
  destruct (l !! i) as [x|] eqn:Hi; [|reflexivity].
  apply Z.ltb_ge.
  destruct (decide (i = j)) as [->|Hne].
  - rewrite Hi in Hj. injection Hj as <-. lia.
  - apply (StronglySorted_lookup _ l Hl i j); [lia|assumption..].
Qed.

(** C1. [FCFSSchedule] and [RRSchedule] leave the caller's slice as it was
    (the round-robin queue holds copies, and the burst is decremented on
    them). [SJFSchedule] and [SJFPrioritySchedule] sort the caller's slice
    in place: after the call it holds the same descriptors, in the order
    [sort.Slice] gives them, which is the input order when the batch was
    already in ascending order of arrival. *)
Theorem schedulers_and_the_input_slice (processes : list Process) :
  call_processes (FCFSSchedule processes) = processes
  /\ (forall fuel, call_processes (RRSchedule fuel processes) = processes)
  /\ call_processes (SJFSchedule processes) ≡ₚ processes
  /\ call_processes (SJFPrioritySchedule processes) ≡ₚ processes
  /\ (arrival_sorted processes ->
      call_processes (SJFSchedule processes) = processes
      /\ call_processes (SJFPrioritySchedule processes) = processes).
Proof.
  split; [reflexivity|]. split; [reflexivity|].
  split; [apply SortFacts.Slice_perm|]. split; [apply SortFacts.Slice_perm|].
  intros Hsorted.
  assert (Hsame : Sort.Slice arrival_less processes = processes).
  { apply OrderedFacts.Slice_ordered, arrival_sorted_in_order, Hsorted. }
  split; exact Hsame.
Qed.

Lemma schedulers_and_the_input_slice_witness :
  call_processes (SJFSchedule batch_round_robin) = batch_round_robin
  /\ call_processes (SJFPrioritySchedule batch_round_robin) = batch_round_robin.
Proof.
  apply (proj2 (proj2 (proj2 (proj2
           (schedulers_and_the_input_slice batch_round_robin))))).
  repeat constructor; simpl; lia.
Defined.

(** C1, as stated, fails for the two shortest-job-first schedulers: they
    reorder a slice that is out of arrival order. *)
Lemma schedulers_and_the_input_slice_cex :
  call_processes (SJFSchedule batch_out_of_order) <> batch_out_of_order
  /\ call_processes (SJFPrioritySchedule batch_out_of_order)
     <> batch_out_of_order
  /\ call_processes (SJFSchedule batch_out_of_order)
     = [mkProcess 2 0 1 0; mkProcess 1 1 1 0].
Proof.
  split; [|split]; [| |vm_compute; reflexivity];
    intros H; vm_compute in H; discriminate H.
Qed.

(** ** The ready queue holds the processes pushed and not yet popped *)

Module HeapFacts.

Lemma queue_Swap_perm (pq : PriorityQueue.t) i j : PriorityQueue.Swap pq i j ≡ₚ pq.
Proof. exact (SortFacts.Swap_perm pq i j). Qed.

Lemma up_loop_perm fuel : forall h j, Heap.up_loop fuel h j ≡ₚ h.
Proof.
  induction fuel as [|fuel IH]; intros h j; simpl; [reflexivity|].
  destruct (_ || _); [reflexivity|]. rewrite IH. apply queue_Swap_perm.
Qed.

Lemma down_loop_perm fuel : forall h i n, Heap.down_loop fuel h i n ≡ₚ h.
Proof.
  induction fuel as [|fuel IH]; intros h i n; simpl; [reflexivity|].
  destruct (_ <=? _)%nat; [reflexivity|].
  destruct (negb _); [reflexivity|]. rewrite IH. apply queue_Swap_perm.
Qed.

Lemma Push_perm h x : Heap.Push h x ≡ₚ x :: h.
Proof.
  unfold Heap.Push, Heap.up, PriorityQueue.Push.
  rewrite up_loop_perm. symmetry. apply Permutation_cons_append.
Qed.

Lemma Pop_perm h x h' : Heap.Pop h = Some (x, h') -> h ≡ₚ x :: h'.
Proof.
  unfold Heap.Pop, Heap.down, PriorityQueue.Pop.
  destruct (PriorityQueue.Len h) as [|n]; [discriminate|].
  set (h1 := Heap.down_loop n (PriorityQueue.Swap h 0 n) 0 n).
  assert (Hperm : h1 ≡ₚ h).
  { subst h1. rewrite down_loop_perm. apply queue_Swap_perm. }
  destruct (last h1) as [item|] eqn:Hlast; [|discriminate].
  intros [= <- <-].
  apply last_Some in Hlast. destruct Hlast as [front Hfront].
  rewrite <- Hperm, Hfront, removelast_last.
  symmetry. apply Permutation_cons_append.
Qed.

Lemma Push_length h x : length (Heap.Push h x) = S (length h).
Proof. exact (Permutation_length (Push_perm h x)). Qed.

Lemma Pop_length h x h' :
  Heap.Pop h = Some (x, h') -> length h = S (length h').
Proof. intros H. exact (Permutation_length (Pop_perm h x h' H)). Qed.

End HeapFacts.

(** ** Rows and the completion identity *)


Lemma rows_satisfy_make P n : rows_satisfy P (make_schedule n).
Proof. apply Forall_replicate. intros r Hr. discriminate Hr. Qed.

Lemma rows_satisfy_store P schedule idx row schedule' :
  rows_satisfy P schedule -> P row ->
  store_row schedule idx row = Some schedule' ->
  rows_satisfy P schedule'.
Proof.
  unfold store_row. intros Hall Hrow. destruct (_ && _); [|discriminate].
  intros [= <-]. apply Forall_insert; [exact Hall|].
  intros r [= <-]. exact Hrow.
Qed.

Lemma rows_satisfy_impl (P Q : Row -> Prop) schedule :
  (forall r, P r -> Q r) -> rows_satisfy P schedule -> rows_satisfy Q schedule.
Proof.
  intros HPQ Hall. eapply Forall_impl; [exact Hall|].
  intros row H r Hr. apply HPQ, H, Hr.
Qed.

(** ** The loop of the shortest-job-first schedulers *)

Section SJFFacts.
Variable key : Process -> Z.
Variable processes : list Process.

Lemma sjf_init_inv : sjf_inv processes (sjf_init (length processes)).
Proof.
  split; simpl.
  - lia.
  - apply length_replicate.
  - constructor.
  - apply rows_satisfy_make.
Qed.

Lemma sjf_admit_spec t : forall todo queue pc queue' pc',
  (todo + pc = length processes)%nat ->
  Forall (fun pp => pp_Process pp ∈ processes) queue ->
  sjf_admit key processes t todo queue pc = (queue', pc') ->
  Forall (fun pp => pp_Process pp ∈ processes) queue'
  /\ (pc <= pc' <= length processes)%nat
  /\ (length queue' + pc = length queue + pc')%nat.
Proof.
  induction todo as [|todo IH]; intros queue pc queue' pc' Hn Hqueue Hadm.
  - injection Hadm as <- <-. repeat split; [assumption|lia..].
  - simpl in Hadm.
    destruct (lookup_lt_is_Some_2 processes pc) as [p Hp]; [lia|].
    rewrite Hp in Hadm. destruct (ArrivalTime p <=? t).
    + apply IH in Hadm; [|lia|].
      * destruct Hadm as (Hq & Hpc & Hlen).
        rewrite HeapFacts.Push_length in Hlen.
        repeat split; [assumption|lia..].
      * rewrite HeapFacts.Push_perm. constructor; [|exact Hqueue].
        simpl. eapply list_elem_of_lookup_2, Hp.
    + injection Hadm as <- <-. repeat split; [assumption|lia..].
Qed.

Lemma sjf_body_inv st st' :
  sjf_inv processes st ->
  sjf_body key processes st = Some st' ->
  sjf_inv processes st' /\ (sjf_measure processes st' < sjf_measure processes st)%nat.
Proof.
  intros [Hpc Hlen Hqueue Hrows]. unfold sjf_body.
  destruct (sjf_admit key processes (s_serviceTime st)
              (length processes - s_processCounter st)
              (s_readyQueue st) (s_processCounter st))
    as [queue' pc'] eqn:Hadm.
  apply sjf_admit_spec in Hadm; [|lia|exact Hqueue].
  destruct Hadm as (Hqueue' & Hpc' & Hcount).
  destruct (Heap.Pop queue') as [[current queue'']|] eqn:Hpop; [|discriminate].
  destruct (store_row _ _ _) as [schedule'|] eqn:Hstore; [|discriminate].
  intros [= <-].
  pose proof (HeapFacts.Pop_perm _ _ _ Hpop) as Hperm.
  pose proof (HeapFacts.Pop_length _ _ _ Hpop) as Hpoplen.
  rewrite Hperm in Hqueue'. apply Forall_cons in Hqueue'.
  destruct Hqueue' as [Hcurrent Hqueue''].
  split.
  - split; simpl.
    + lia.
    + rewrite (store_row_length _ _ _ _ Hstore). exact Hlen.
    + exact Hqueue''.
    + eapply rows_satisfy_store; [exact Hrows| |exact Hstore].
      exists (pp_Process current). split; [exact Hcurrent|].
      split; [repeat split|].
      unfold completion_identity. simpl. apply Int64Facts.add_rotate.
  - unfold sjf_measure. simpl. lia.
Qed.

(** The loop ends within the fuel its measure asks for: it panics, or it is
    left in a state where the invariant holds. *)
Lemma sjf_loop_total : forall fuel st,
  sjf_inv processes st ->
  (sjf_measure processes st <= fuel)%nat ->
  sjf_loop key fuel processes st = None
  \/ exists st', sjf_loop key fuel processes st = Some (inl st') /\ sjf_inv processes st'.
Proof.
  induction fuel as [|fuel IH]; intros st Hinv Hfuel;
    rewrite sjf_loop_unfold;
    destruct (Nat.ltb_spec (s_processCounter st) (length processes)) as [Hlt|Hge];
    try (right; eexists; split; [reflexivity|exact Hinv]).
  - unfold sjf_measure in Hfuel. lia.
  - destruct (sjf_body key processes st) as [st'|] eqn:Hbody; [|left; reflexivity].
    destruct (sjf_body_inv st st' Hinv Hbody) as [Hinv' Hless].
    apply IH; [exact Hinv'|lia].
Qed.

End SJFFacts.

(** The rows of a call of a shortest-job-first scheduler that returns. *)
Lemma sjf_schedule_rows key processes o :
  returned (sjf_schedule key processes) = Some o ->
  rows_satisfy (row_of_batch processes) (out_schedule o).
Proof.
  unfold returned, sjf_schedule. cbn [call_outcome].
  set (sorted := Sort.Slice arrival_less processes).
  destruct (sjf_loop_total key sorted (2 * length sorted) (sjf_init (length sorted)))
    as [Hpanic|(st & Hloop & Hinv)].
  - apply sjf_init_inv.
  - unfold sjf_measure. simpl. lia.
  - rewrite Hpanic. discriminate.
  - rewrite Hloop. intros [= <-]. simpl.
    eapply rows_satisfy_impl; [|exact (sinv_rows _ _ Hinv)].
    intros r (p & Hp & Hrow). exists p. split; [|exact Hrow].
    subst sorted. rewrite SortFacts.Slice_perm in Hp. exact Hp.
Qed.

(** The bound on the iterations of the loop is never reached. *)
Lemma sjf_schedule_fuel key processes :
  call_outcome (sjf_schedule key processes) <> OutOfFuel.
Proof.
  unfold sjf_schedule. cbn [call_outcome].
  set (sorted := Sort.Slice arrival_less processes).
  destruct (sjf_loop_total key sorted (2 * length sorted) (sjf_init (length sorted)))
    as [Hpanic|(st & Hloop & Hinv)].
  - apply sjf_init_inv.
  - unfold sjf_measure. simpl. lia.
  - rewrite Hpanic. discriminate.
  - rewrite Hloop. discriminate.
Qed.

(** ** The rows of first-come, first-served *)


(** ** The rows of round-robin *)


Lemma copy_of_batch processes :
  Forall (copy_of processes) processes.
Proof.
  apply Forall_forall. intros p Hp. exists p. repeat split. exact Hp.
Qed.






(** ** Floating point: the key of the priority scheduler *)

Module Float64Facts.
















End Float64Facts.

(** ** Decimal numbers: printing and parsing *)

Module DecimalFacts.

Ltac digit_cases d :=
  let H := fresh in
  assert (H : d = 0 \/ d = 1 \/ d = 2 \/ d = 3 \/ d = 4 \/ d = 5 \/ d = 6
              \/ d = 7 \/ d = 8 \/ d = 9) by lia;
  repeat (destruct H as [H|H]; [subst d|]); [..|subst d].

Lemma digit_of_char d : 0 <= d <= 9 -> digit_of (digit_char d) = Some d.
Proof. intros Hd. digit_cases d; reflexivity. Qed.

Lemma digit_char_not_sign d :
  0 <= d <= 9 ->
  Ascii.eqb (digit_char d) "+" = false /\ Ascii.eqb (digit_char d) "-" = false.
Proof. intros Hd. digit_cases d; split; reflexivity. Qed.

Lemma digit_of_range c d : digit_of c = Some d -> 0 <= d <= 9.
Proof.
  unfold digit_of. cbv zeta.
  destruct (Z.leb_spec 48 (Z.of_nat (nat_of_ascii c)));
    destruct (Z.leb_spec (Z.of_nat (nat_of_ascii c)) 57);
    cbn [andb]; intros [= <-]; lia.
Qed.

Lemma cutoff_value : maxUint64 / 10 + 1 = 1844674407370955162.
Proof. reflexivity. Qed.

Lemma maxUint64_value : maxUint64 = 18446744073709551615.
Proof. reflexivity. Qed.

(** A step of the loop of [ParseUint] on a digit, when the number fits. *)
Lemma ParseUint_loop_digit d s n :
  0 <= d <= 9 -> 0 <= n -> n * 10 + d <= maxUint64 ->
  ParseUint_loop (String (digit_char d) s) n = ParseUint_loop s (n * 10 + d).
Proof.
  intros Hd Hn Hfit. cbn [ParseUint_loop]. rewrite digit_of_char by exact Hd.
  rewrite cutoff_value. rewrite maxUint64_value in *.
  destruct (Z.leb_spec 1844674407370955162 n); [lia|].
  cbv zeta. destruct (Z.ltb_spec 18446744073709551615 (n * 10 + d)); [lia|].
  reflexivity.
Qed.

Lemma fmt_digits_length fuel : forall u buf,
  String.length (fmt_digits fuel u buf)
  = (ndigits fuel u + String.length buf)%nat.
Proof.
  induction fuel as [|fuel IH]; intros u buf; cbn [fmt_digits ndigits];
    [reflexivity|].
  destruct (10 <=? u); [|reflexivity].
  cbv zeta. rewrite IH. cbn [String.length]. lia.
Qed.

(** Parsing the digits that [fmt_digits] wrote gives the number back. *)
Lemma fmt_digits_parse fuel : forall u buf n,
  0 <= u < 10 ^ Z.of_nat fuel -> 0 <= n ->
  n * 10 ^ Z.of_nat (ndigits fuel u) + u <= maxUint64 ->
  ParseUint_loop (fmt_digits fuel u buf) n
  = ParseUint_loop buf (n * 10 ^ Z.of_nat (ndigits fuel u) + u).
Proof.
  induction fuel as [|fuel IH]; intros u buf n Hu Hn Hfit;
    cbn [fmt_digits ndigits] in *.
  - change (10 ^ Z.of_nat 0) with 1 in *. f_equal. lia.
  - rewrite Nat2Z.inj_succ, Z.pow_succ_r in Hu by lia.
    destruct (Z.leb_spec 10 u) as [Hbig|Hsmall].
    + cbv zeta.
      pose proof (Z.div_mod u 10 ltac:(lia)) as Hdiv.
      pose proof (Z.mod_pos_bound u 10 ltac:(lia)) as Hmod.
      revert Hdiv Hmod Hfit. generalize (u mod 10). generalize (u / 10).
      intros q r Hdiv Hmod Hfit.
      rewrite Nat2Z.inj_succ, Z.pow_succ_r in Hfit by lia.
      assert (Hpow : 0 < 10 ^ Z.of_nat (ndigits fuel q))
        by (apply Z.pow_pos_nonneg; lia).
      assert (HnP : 0 <= n * 10 ^ Z.of_nat (ndigits fuel q))
        by (apply Z.mul_nonneg_nonneg; lia).
      rewrite maxUint64_value in Hfit.
      rewrite IH; [| lia | lia | rewrite maxUint64_value; lia].
      rewrite ParseUint_loop_digit;
        [| lia | lia | rewrite maxUint64_value; lia].
      f_equal. rewrite Nat2Z.inj_succ, Z.pow_succ_r by lia. lia.
    + change (Z.of_nat 1) with 1 in *. change (10 ^ 1) with 10 in *.
      apply ParseUint_loop_digit; lia.
Qed.

(** [fmt_digits] writes a digit first. *)
Lemma fmt_digits_head fuel : forall u buf,
  0 <= u ->
  (fuel = O -> exists d rest, 0 <= d <= 9 /\ buf = String (digit_char d) rest) ->
  exists d rest,
    0 <= d <= 9 /\ fmt_digits fuel u buf = String (digit_char d) rest.
Proof.
  induction fuel as [|fuel IH]; intros u buf Hu Hbuf; cbn [fmt_digits].
  - apply Hbuf. reflexivity.
  - destruct (Z.leb_spec 10 u) as [Hbig|Hsmall].
    + cbv zeta. apply IH.
      * apply Z.div_pos; lia.
      * intros _. exists (u - u / 10 * 10), buf. split; [|reflexivity].
        pose proof (Z.div_mod u 10 ltac:(lia)).
        pose proof (Z.mod_pos_bound u 10 ltac:(lia)). lia.
    + exists u, buf. split; [lia|reflexivity].
Qed.

(** The number of digits of a number below [10 ^ k]. *)
Lemma ndigits_le fuel : forall u (k : nat),
  0 <= u < 10 ^ Z.of_nat k -> (1 <= k)%nat -> (ndigits fuel u <= k)%nat.
Proof.
  induction fuel as [|fuel IH]; intros u k Hu Hk; cbn [ndigits]; [lia|].
  destruct (Z.leb_spec 10 u) as [Hbig|Hsmall]; [|lia].
  destruct k as [|k]; [lia|].
  rewrite Nat2Z.inj_succ, Z.pow_succ_r in Hu by lia.
  destruct k as [|k]; [change (10 ^ Z.of_nat 0) with 1 in Hu; lia|].
  apply le_n_S, IH; [|lia].
  split; [apply Z.div_pos; lia|].
  apply Z.div_lt_upper_bound; lia.
Qed.

Lemma ndigits_ge fuel : forall u (k : nat),
  10 ^ Z.of_nat k <= u -> (k < fuel)%nat -> (S k <= ndigits fuel u)%nat.
Proof.
  induction fuel as [|fuel IH]; intros u k Hu Hk; cbn [ndigits]; [lia|].
  destruct k as [|k].
  - destruct (10 <=? u); lia.
  - rewrite Nat2Z.inj_succ, Z.pow_succ_r in Hu by lia.
    assert (Hpow : 0 < 10 ^ Z.of_nat k) by (apply Z.pow_pos_nonneg; lia).
    destruct (Z.leb_spec 10 u) as [Hbig|Hsmall]; [|lia].
    apply le_n_S, IH; [|lia].
    apply Z.div_le_lower_bound; lia.
Qed.

Lemma decimal_value_mono s : forall n v,
  0 <= n -> decimal_value s n = Some v -> n <= v.
Proof.
  induction s as [|c s IH]; intros n v Hn; cbn [decimal_value].
  - intros [= <-]. lia.
  - destruct (digit_of c) as [d|] eqn:Hc; [|discriminate].
    pose proof (digit_of_range c d Hc) as Hd. intros Hv.
    specialize (IH (n * 10 + d) v ltac:(lia) Hv). lia.
Qed.

(** What the loop of [ParseUint] returns, from the number denoted. *)
Lemma ParseUint_loop_value s : forall n,
  0 <= n <= maxUint64 ->
  match decimal_value s n with
  | Some v =>
      ParseUint_loop s n
      = if v <=? maxUint64 then (v, None) else (maxUint64, Some ErrRange)
  | None =>
      ParseUint_loop s n = (0, Some ErrSyntax)
      \/ ParseUint_loop s n = (maxUint64, Some ErrRange)
  end.
Proof.
  induction s as [|c s IH]; intros n Hn; cbn [decimal_value ParseUint_loop].
  - destruct (Z.leb_spec n maxUint64); [reflexivity|lia].
  - destruct (digit_of c) as [d|] eqn:Hc; [|left; reflexivity].
    pose proof (digit_of_range c d Hc) as Hd.
    pose proof (decimal_value_mono s (n * 10 + d)) as Hmono.
    rewrite cutoff_value. cbv zeta.
    destruct (Z.leb_spec 1844674407370955162 n) as [Hcut|Hcut].
    { destruct (decimal_value s (n * 10 + d)) as [v|]; [|right; reflexivity].
      specialize (Hmono v ltac:(lia) eq_refl).
      rewrite maxUint64_value in *.
      destruct (Z.leb_spec v 18446744073709551615); [lia|reflexivity]. }
    destruct (Z.ltb_spec maxUint64 (n * 10 + d)) as [Hover|Hfit].
    { destruct (decimal_value s (n * 10 + d)) as [v|]; [|right; reflexivity].
      specialize (Hmono v ltac:(lia) eq_refl).
      destruct (Z.leb_spec v maxUint64); [lia|reflexivity]. }
    apply IH. lia.
Qed.

Lemma ParseUint_value s :
  s <> EmptyString ->
  match decimal_value s 0 with
  | Some v =>
      ParseUint s
      = if v <=? maxUint64 then (v, None) else (maxUint64, Some ErrRange)
  | None =>
      ParseUint s = (0, Some ErrSyntax)
      \/ ParseUint s = (maxUint64, Some ErrRange)
  end.
Proof.
  intros Hs. pose proof (ParseUint_loop_value s 0) as H.
  rewrite maxUint64_value in H at 1. specialize (H ltac:(lia)).
  destruct s; [congruence|exact H].
Qed.

(** The end of [ParseInt], from what [ParseUint] returned. *)
Lemma ParseInt_of_unsigned (neg : bool) (body : string) :
  body <> EmptyString ->
  let r :=
    match ParseUint body with
    | (_, Some ErrSyntax) => (0, Some ErrSyntax)
    | (un, _) =>
        let cutoff := 2 ^ 63 in
        if negb neg && (cutoff <=? un) then (cutoff - 1, Some ErrRange)
        else if neg && (cutoff <? un) then (- cutoff, Some ErrRange)
        else (if neg then - un else un, None)
    end in
  match decimal_value body 0 with
  | Some v =>
      0 <= v
      /\ (Int64.in_range (if neg then - v else v) ->
          r = (if neg then - v else v, None))
      /\ (~ Int64.in_range (if neg then - v else v) -> snd r <> None)
  | None => snd r <> None
  end.
Proof.
  intros Hbody. cbv zeta.
  pose proof (ParseUint_value body Hbody) as Hun.
  pose proof (decimal_value_mono body 0) as Hmono.
  destruct (decimal_value body 0) as [v|].
  - specialize (Hmono v ltac:(lia) eq_refl). split; [exact Hmono|].
    rewrite Hun. unfold Int64.in_range, Int64.min_int, Int64.max_int.
    rewrite maxUint64_value.
    change (2 ^ 63) with 9223372036854775808.
    change (2 ^ 63 - 1) with 9223372036854775807.
    change (- 2 ^ 63) with (- 9223372036854775808).
    destruct (Z.leb_spec v 18446744073709551615); destruct neg; cbn [negb andb];
      repeat match goal with
             | |- context [Z.leb ?a ?b] => destruct (Z.leb_spec a b)
             | |- context [Z.ltb ?a ?b] => destruct (Z.ltb_spec a b)
             end;
      cbn [snd]; split; intros; first [reflexivity|discriminate|lia].
  - destruct Hun as [-> | ->]; [cbn; discriminate|].
    destruct neg; cbn; discriminate.
Qed.

Lemma ParseInt_value s :
  match signed_decimal s with
  | Some n =>
      (Int64.in_range n -> ParseInt s = (n, None))
      /\ (~ Int64.in_range n -> snd (ParseInt s) <> None)
  | None => snd (ParseInt s) <> None
  end.
Proof.
  destruct s as [|c rest]; [cbn; discriminate|].
  unfold ParseInt, signed_decimal.
  destruct (Ascii.eqb c "+") eqn:Hplus.
  { destruct rest as [|c' rest']; [cbn; discriminate|].
    pose proof (ParseInt_of_unsigned false (String c' rest') ltac:(discriminate))
      as H.
    cbv zeta in H. destruct (decimal_value (String c' rest') 0); [|exact H].
    exact (proj2 H). }
  destruct (Ascii.eqb c "-") eqn:Hminus.
  { destruct rest as [|c' rest']; [cbn; discriminate|].
    pose proof (ParseInt_of_unsigned true (String c' rest') ltac:(discriminate))
      as H.
    cbv zeta in H.
    destruct (decimal_value (String c' rest') 0); [|exact H].
    exact (proj2 H). }
  pose proof (ParseInt_of_unsigned false (String c rest) ltac:(discriminate))
    as H.
  cbv zeta in H. destruct (decimal_value (String c rest) 0); [|exact H].
  exact (proj2 H).
Qed.

(** [fmt.Sprint] writes what [ParseInt] reads back. *)
Lemma ParseInt_Sprint n : Int64.in_range n -> ParseInt (Sprint n) = (n, None).
Proof.
  unfold Int64.in_range, Int64.min_int, Int64.max_int.
  change (2 ^ 63 - 1) with 9223372036854775807.
  change (- 2 ^ 63) with (- 9223372036854775808).
  intros Hn. unfold Sprint. cbv zeta.
  assert (Hparse : forall u, 0 <= u <= 9223372036854775808 ->
            exists c rest,
              fmt_digits 20 u "" = String c rest
              /\ Ascii.eqb c "+" = false /\ Ascii.eqb c "-" = false
              /\ ParseUint (String c rest) = (u, None)).
  { intros u Hu.
    destruct (fmt_digits_head 20 u "" ltac:(lia) ltac:(discriminate))
      as (d & rest & Hd & Hhead).
    exists (digit_char d), rest.
    destruct (digit_char_not_sign d Hd) as [Hplus Hminus].
    repeat split; try assumption.
    unfold ParseUint. rewrite <- Hhead.
    assert (H20 : 10 ^ Z.of_nat 20 = 100000000000000000000) by reflexivity.
    rewrite fmt_digits_parse;
      [|rewrite H20; lia|lia|rewrite maxUint64_value; lia].
    cbn [ParseUint_loop]. reflexivity. }
  destruct (Z.ltb_spec n 0) as [Hneg|Hpos].
  - destruct (Hparse (- n) ltac:(lia)) as (c & rest & -> & _ & _ & Hun).
    unfold ParseInt. change (Ascii.eqb "-" "+") with false.
    change (Ascii.eqb "-" "-") with true. cbv iota. rewrite Hun.
    change (2 ^ 63) with 9223372036854775808. cbn [negb andb].
    destruct (Z.ltb_spec 9223372036854775808 (- n)); [lia|].
    f_equal. lia.
  - destruct (Hparse n ltac:(lia)) as (c & rest & -> & Hplus & Hminus & Hun).
    unfold ParseInt. rewrite Hplus, Hminus. rewrite Hun.
    change (2 ^ 63) with 9223372036854775808. cbn [negb andb].
    destruct (Z.leb_spec 9223372036854775808 n); [lia|reflexivity].
Qed.

Lemma Sprint_denotes n : Int64.in_range n -> signed_decimal (Sprint n) = Some n.
Proof.
  intros Hn. pose proof (ParseInt_value (Sprint n)) as H.
  rewrite (ParseInt_Sprint n Hn) in H.
  destruct (signed_decimal (Sprint n)) as [v|]; [|cbn in H; congruence].
  destruct H as [Hin Hout].
  assert (Hv : Int64.in_range v).
  { unfold Int64.in_range in *.
    destruct (Z_le_dec Int64.min_int v); destruct (Z_le_dec v Int64.max_int);
      try (split; assumption); exfalso; apply Hout; try reflexivity; lia. }
  specialize (Hin Hv). congruence.
Qed.

Lemma mustStrToInt_cases (s : string) :
  (forall n, mustStrToInt s = Returns n
             <-> signed_decimal s = Some n /\ Int64.in_range n)
  /\ ((exists n, mustStrToInt s = Returns n) \/ mustStrToInt s = Exits 1).
Proof.
  pose proof (ParseInt_value s) as H.
  unfold mustStrToInt.
  destruct (ParseInt s) as [i [e|]] eqn:Hparse; cbn [snd] in H.
  - split; [|right; reflexivity].
    intros n. split; [discriminate|]. intros [Hs Hn].
    rewrite Hs in H. destruct H as [H _]. specialize (H Hn). discriminate H.
  - split; [|left; exists i; reflexivity].
    destruct (signed_decimal s) as [v|]; [|congruence].
    destruct H as [Hin Hout].
    assert (Hv : Int64.in_range v).
    { unfold Int64.in_range in *.
      destruct (Z_le_dec Int64.min_int v); destruct (Z_le_dec v Int64.max_int);
        try (split; assumption); exfalso; apply Hout; try reflexivity; lia. }
    specialize (Hin Hv). injection Hin as ->.
    intros n. split.
    + intros [= <-]. split; [reflexivity|exact Hv].
    + intros [[= <-] _]. reflexivity.
Qed.

Lemma mustStrToInt_returns s n :
  mustStrToInt s = Returns n <-> signed_decimal s = Some n /\ Int64.in_range n.
Proof. apply mustStrToInt_cases. Qed.

(** [mustStrToInt], from the number that the string denotes. *)
Lemma mustStrToInt_view s :
  mustStrToInt s
  = match signed_decimal s with
    | Some n =>
        if (Int64.min_int <=? n) && (n <=? Int64.max_int)
        then Returns n else Exits 1
    | None => Exits 1
    end.
Proof.
  destruct (mustStrToInt_cases s) as [Hiff Hcases].
  destruct (signed_decimal s) as [n|].
  - destruct (Z.leb_spec Int64.min_int n); destruct (Z.leb_spec n Int64.max_int);
      cbn [andb];
      try (apply Hiff; split; [reflexivity|split; assumption]);
      (destruct Hcases as [[m Hm]|Hexit]; [|exact Hexit]);
      apply Hiff in Hm as [[= ->] [? ?]]; lia.
  - destruct Hcases as [[m Hm]|Hexit]; [|exact Hexit].
    apply Hiff in Hm as [[=] _].
Qed.

Lemma mustStrToInt_no_panic s : mustStrToInt s <> Panics.
Proof.
  destruct (proj2 (mustStrToInt_cases s)) as [[n ->] | ->]; discriminate.
Qed.

End DecimalFacts.

(** X1. Reading back a number that [fmt.Sprint] printed: [mustStrToInt]
    returns every [int64] from its decimal form. *)
Theorem mustStrToInt_Sprint (n : Z) :
  Int64.in_range n -> mustStrToInt (Sprint n) = Returns n.
Proof.
  intros Hn. unfold mustStrToInt.
  rewrite (DecimalFacts.ParseInt_Sprint n Hn). reflexivity.
Qed.

Lemma mustStrToInt_Sprint_witness :
  mustStrToInt (Sprint (- 9223372036854775808))
  = Returns (- 9223372036854775808).
Proof.
  apply (mustStrToInt_Sprint (- 9223372036854775808)).
  unfold Int64.in_range, Int64.min_int, Int64.max_int. lia.
Defined.

(** X2. [mustStrToInt] returns the number that its argument denotes when
    the argument is an optional sign followed by decimal digits and the
    number is an [int64]; on every other string (the empty string, a sign
    alone, a space or any other byte that is not a digit, a number out of
    range) the program exits with status 1. It never panics. *)
Theorem mustStrToInt_spec (s : string) :
  (forall n, mustStrToInt s = Returns n
             <-> signed_decimal s = Some n /\ Int64.in_range n)
  /\ ((exists n, mustStrToInt s = Returns n) \/ mustStrToInt s = Exits 1).
Proof. exact (DecimalFacts.mustStrToInt_cases s). Qed.

(** ** Loading the batch *)

Module LoadFacts.

Lemma load_row_spec (row : list string) (p : Process) :
  load_row row (mkProcess 0 0 0 0) = Returns p <-> process_of row p.
Proof.
  unfold process_of, load_row.
  destruct row as [|f0 row];
    cbn [index lookup list_lookup mbind Run_bind option_bind length];
    [split; [discriminate|intros [Hlen _]; lia]|].
  pose proof (DecimalFacts.mustStrToInt_returns f0) as H0.
  destruct row as [|f1 row];
    cbn [index lookup list_lookup mbind Run_bind option_bind length];
    [split; [destruct (mustStrToInt f0); discriminate|intros [Hlen _]; lia]|].
  pose proof (DecimalFacts.mustStrToInt_returns f1) as H1.
  destruct row as [|f2 rest];
    cbn [index lookup list_lookup mbind Run_bind option_bind length];
    [split; [destruct (mustStrToInt f0); try discriminate;
             destruct (mustStrToInt f1); discriminate|intros [Hlen _]; lia]|].
  pose proof (DecimalFacts.mustStrToInt_returns f2) as H2.
  assert (Hlen : (exists f3, rest = [f3])
                 \/ (S (S (S (length rest))) =? 4)%nat = false).
  { destruct rest as [|f3 [|f4 rest]]; cbn; eauto. }
  split.
  - destruct (mustStrToInt f0) as [v0| |]; try discriminate.
    destruct (mustStrToInt f1) as [v1| |]; try discriminate.
    destruct (mustStrToInt f2) as [v2| |]; try discriminate.
    cbn [mbind Run_bind].
    destruct (proj1 (H0 v0) eq_refl) as [S0 R0].
    destruct (proj1 (H1 v1) eq_refl) as [S1 R1].
    destruct (proj1 (H2 v2) eq_refl) as [S2 R2].
    destruct Hlen as [[f3 ->] | ->].
    + cbn [length Nat.eqb index lookup list_lookup mbind Run_bind option_bind].
      pose proof (DecimalFacts.mustStrToInt_returns f3) as H3.
      destruct (mustStrToInt f3) as [v3| |]; try discriminate.
      destruct (proj1 (H3 v3) eq_refl) as [S3 R3].
      intros [= <-]. unfold valid_process. cbn.
      repeat split;
        first [assumption | apply R0 | apply R1 | apply R2 | apply R3 | lia].
    + intros [= <-]. unfold valid_process. cbn.
      repeat split;
        first [assumption | apply R0 | apply R1 | apply R2 | discriminate
              | lia].
  - intros (_ & S0 & S1 & S2 & S3 & V0 & V1 & V2 & V3).
    cbn [mbind option_bind] in S0, S1, S2.
    rewrite (proj2 (H0 _) (conj S0 V0)), (proj2 (H1 _) (conj S1 V2)),
      (proj2 (H2 _) (conj S2 V1)).
    cbn [mbind Run_bind].
    destruct Hlen as [[f3 ->] | Hlen].
    + cbn [length Nat.eqb index lookup list_lookup mbind Run_bind option_bind]
        in *.
      rewrite (proj2 (DecimalFacts.mustStrToInt_returns f3 _) (conj S3 V3)).
      cbn [mbind Run_bind]. destruct p; reflexivity.
    + rewrite Hlen in *. destruct p; cbn in *; subst. reflexivity.
Qed.

(** The loop fills the elements from [i] on, one for each row. *)
Lemma load_rows_spec : forall rows i processes ps,
  (forall j, (i <= j < i + length rows)%nat ->
             processes !! j = Some (mkProcess 0 0 0 0)) ->
  load_rows rows i processes = Returns ps
  <-> exists new,
        Forall2 process_of rows new
        /\ ps = take i processes ++ new ++ drop (i + length rows) processes.
Proof.
  induction rows as [|row rows IH]; intros i processes ps Hzero;
    cbn [load_rows length] in *.
  - rewrite Nat.add_0_r. split.
    + intros [= <-]. exists []. split; [constructor|].
      cbn [app]. symmetry. apply take_drop.
    + intros (new & Hnew & ->). apply Forall2_nil_inv_l in Hnew as ->.
      cbn [app]. rewrite take_drop. reflexivity.
  - unfold index at 1. rewrite (Hzero i) by lia.
    cbn [mbind Run_bind].
    assert (Hi : (i < length processes)%nat)
      by (apply lookup_lt_is_Some; rewrite (Hzero i) by lia; eauto).
    assert (Hrest : forall p j, (S i <= j < S i + length rows)%nat ->
              <[i := p]> processes !! j = Some (mkProcess 0 0 0 0)).
    { intros p j Hj. rewrite list_lookup_insert_ne by lia. apply Hzero. lia. }
    assert (Hshape : forall p new,
              take (S i) (<[i := p]> processes) ++ new
                ++ drop (S i + length rows) (<[i := p]> processes)
              = take i processes ++ (p :: new)
                  ++ drop (i + S (length rows)) processes).
    { intros p new.
      rewrite (take_S_r _ i p) by (apply list_lookup_insert_eq; exact Hi).
      rewrite take_insert_ge by lia. rewrite drop_insert_lt by lia.
      rewrite <- app_assoc. cbn [app].
      replace (S i + length rows)%nat with (i + S (length rows))%nat by lia.
      reflexivity. }
    split.
    + destruct (load_row row (mkProcess 0 0 0 0)) as [p| |] eqn:Hrow;
        cbn [mbind Run_bind]; try discriminate.
      intros Hloop. apply (IH (S i) _ ps (Hrest p)) in Hloop
        as (new & Hnew & ->).
      exists (p :: new). split; [|apply Hshape].
      constructor; [apply load_row_spec; exact Hrow|exact Hnew].
    + intros (new & Hnew & ->).
      apply Forall2_cons_inv_l in Hnew as (p & new' & Hp & Hnew' & ->).
      apply load_row_spec in Hp. rewrite Hp. cbn [mbind Run_bind].
      apply (IH (S i) _ _ (Hrest p)). exists new'.
      split; [exact Hnew'|]. symmetry. apply Hshape.
Qed.

Lemma loadProcesses_returns rows r :
  loadProcesses (inl rows) = Returns r
  <-> exists ps, r = inl ps /\ Forall2 process_of rows ps.
Proof.
  unfold loadProcesses.
  pose proof (load_rows_spec rows 0
                (replicate (length rows) (mkProcess 0 0 0 0))) as Hspec.
  assert (Hzero : forall j, (0 <= j < 0 + length rows)%nat ->
            replicate (length rows) (mkProcess 0 0 0 0) !! j
            = Some (mkProcess 0 0 0 0))
    by (intros j Hj; apply lookup_replicate_2; lia).
  assert (Hshape : forall new : list Process,
            take 0 (replicate (length rows) (mkProcess 0 0 0 0)) ++ new
              ++ drop (0 + length rows)
                   (replicate (length rows) (mkProcess 0 0 0 0)) = new).
  { intros new. cbn [take app Nat.add].
    rewrite drop_ge by (rewrite length_replicate; lia). apply app_nil_r. }
  destruct (load_rows rows 0 (replicate (length rows) (mkProcess 0 0 0 0)))
    as [ps| |] eqn:Hload; cbn [mbind Run_bind].
  - destruct (proj1 (Hspec ps Hzero) eq_refl) as (new & Hnew & Hps).
    rewrite Hshape in Hps. subst new. split.
    + intros [= <-]. exists ps. split; [reflexivity|exact Hnew].
    + intros (ps' & -> & Hps'). do 2 f_equal.
      assert (Hret : Returns ps = Returns ps'); [|congruence].
      apply (Hspec ps' Hzero). exists ps'. rewrite Hshape. split; auto.
  - split; [discriminate|]. intros (ps' & -> & Hps').
    assert (Hret : @Exits (list Process) status = Returns ps'); [|discriminate].
    apply (Hspec ps' Hzero). exists ps'. rewrite Hshape. split; auto.
  - split; [discriminate|]. intros (ps' & -> & Hps').
    assert (Hret : @Panics (list Process) = Returns ps'); [|discriminate].
    apply (Hspec ps' Hzero). exists ps'. rewrite Hshape. split; auto.
Qed.

Lemma process_of_record (p : Process) :
  valid_process p -> process_of (record_of p) p.
Proof.
  intros (Hid & Harrival & Hburst & Hpriority).
  unfold process_of, record_of.
  cbn [length lookup list_lookup mbind option_bind Nat.eqb].
  rewrite !DecimalFacts.Sprint_denotes by assumption.
  repeat split; try reflexivity; try apply Hid; try apply Harrival;
    try apply Hburst; try apply Hpriority. cbn. lia.
Qed.

Lemma bind_exit {A B : Type} (m : Run A) (f : A -> Run B) status :
  m ≫= f = Exits status ->
  m = Exits status \/ exists a, m = Returns a /\ f a = Exits status.
Proof.
  destruct m as [a| |]; cbn [mbind Run_bind]; intros H;
    [right; exists a; auto|left; congruence|discriminate H].
Qed.

Lemma index_exit {A : Type} (l : list A) i status : index l i <> Exits status.
Proof. unfold index. destruct (l !! i); discriminate. Qed.

Lemma mustStrToInt_exit f status : mustStrToInt f = Exits status -> status = 1.
Proof.
  destruct (proj2 (DecimalFacts.mustStrToInt_cases f)) as [[n ->] | ->];
    congruence.
Qed.

Lemma load_row_exit row p status :
  load_row row p = Exits status -> status = 1.
Proof.
  intros H. unfold load_row in H.
  repeat match type of H with
         | _ ≫= _ = Exits _ =>
             apply bind_exit in H as [H|(? & _ & H)];
             [first [ apply index_exit in H; contradiction
                    | exact (mustStrToInt_exit _ _ H) ]|]
         | (if ?c then _ else _) = _ => destruct c
         | Returns _ = Exits _ => discriminate H
         end.
Qed.

Lemma load_rows_exit : forall rows i processes status,
  load_rows rows i processes = Exits status -> status = 1.
Proof.
  induction rows as [|row rows IH]; intros i processes status;
    cbn [load_rows]; [discriminate|].
  unfold index. destruct (processes !! i) as [p0|];
    cbn [mbind Run_bind]; [|discriminate].
  destruct (load_row row p0) as [p| |] eqn:Hrow; cbn [mbind Run_bind].
  - apply IH.
  - intros [= <-]. exact (load_row_exit _ _ _ Hrow).
  - discriminate.
Qed.

End LoadFacts.

(** X3. [loadProcesses] returns a batch exactly when every record has
    three fields or more and its first three fields, and the fourth when
    the record has exactly four, denote [int64] numbers. The batch then has
    one process for each record, in the order of the file: the id is the
    first field, the burst the second, the arrival time the third, and the
    priority the fourth field when the record has exactly four fields and
    0 otherwise (further fields are not read). *)
Theorem loadProcesses_spec (rows : list (list string))
    (r : list Process + string) :
  loadProcesses (inl rows) = Returns r
  <-> exists ps, r = inl ps /\ Forall2 process_of rows ps.
Proof. exact (LoadFacts.loadProcesses_returns rows r). Qed.

(** X4. A batch written one process a record, as id, burst, arrival time
    and priority in decimal, is the batch that [loadProcesses] returns. *)
Theorem loadProcesses_records (ps : list Process) :
  Forall valid_process ps ->
  loadProcesses (inl (map record_of ps)) = Returns (inl ps).
Proof.
  intros Hvalid. apply LoadFacts.loadProcesses_returns.
  exists ps. split; [reflexivity|].
  induction Hvalid as [|p ps Hp _ IH]; cbn [map]; constructor;
    [apply LoadFacts.process_of_record; exact Hp|exact IH].
Qed.

Lemma loadProcesses_records_witness :
  loadProcesses (inl (map record_of batch_round_robin))
  = Returns (inl batch_round_robin).
Proof.
  apply (loadProcesses_records batch_round_robin).
  repeat constructor; vm_compute; intros H; discriminate H.
Defined.

(** X5. A record with fewer than three fields never loads: the call
    panics on the missing field (index out of range), unless a field
    before it is not a number, in which case the program exits with
    status 1. *)
Theorem loadProcesses_short_record (rows : list (list string)) :
  Exists (fun row => (length row < 3)%nat) rows ->
  loadProcesses (inl rows) = Panics \/ loadProcesses (inl rows) = Exits 1.
Proof.
  intros Hshort.
  pose proof (LoadFacts.loadProcesses_returns rows) as Hret.
  unfold loadProcesses in *.
  destruct (load_rows rows 0 (replicate (length rows) (mkProcess 0 0 0 0)))
    as [ps| |] eqn:Hload; cbn [mbind Run_bind] in *.
  - exfalso. destruct (proj1 (Hret (inl ps)) eq_refl) as (ps' & _ & Hall).
    clear Hret Hload. induction Hall as [|row p rows ps' Hrow _ IH].
    + inversion Hshort.
    + inversion Hshort as [? ? Hlen|? ? Hrest]; subst.
      * destruct Hrow as [Hge _]. lia.
      * exact (IH Hrest).
  - right. f_equal. exact (LoadFacts.load_rows_exit _ _ _ _ Hload).
  - left. reflexivity.
Qed.

Lemma loadProcesses_short_record_witness :
  loadProcesses (inl [["1"; "5"]]) = Panics
  \/ loadProcesses (inl [["1"; "5"]]) = Exits 1.
Proof.
  apply (loadProcesses_short_record [["1"; "5"]]).
  constructor. cbn. lia.
Defined.

(** ** Printing the Gantt chart *)

Module GanttFacts.

Lemma ndigits_pos fuel u : (1 <= ndigits (S fuel) u)%nat.
Proof. cbn [ndigits]. destruct (10 <=? u); lia. Qed.

(** The decimal form of [v] has ten bytes or more when [v] has ten digits,
    or nine and a sign. *)
Lemma Sprint_wide v :
  10 <= len (Sprint v) <-> v <= - 100000000 \/ 1000000000 <= v.
Proof.
  unfold len, Sprint. cbv zeta.
  assert (H9 : 10 ^ Z.of_nat 9 = 1000000000) by reflexivity.
  assert (H8 : 10 ^ Z.of_nat 8 = 100000000) by reflexivity.
  destruct (Z.ltb_spec v 0) as [Hneg|Hpos]; cbn [String.length];
    rewrite DecimalFacts.fmt_digits_length; cbn [String.length].
  - destruct (Z_lt_dec (- v) 100000000) as [Hsmall|Hbig].
    + pose proof (DecimalFacts.ndigits_le 20 (- v) 8
                    ltac:(rewrite H8; lia) ltac:(lia)).
      lia.
    + pose proof (DecimalFacts.ndigits_ge 20 (- v) 8
                    ltac:(rewrite H8; lia) ltac:(lia)).
      lia.
  - destruct (Z_lt_dec v 1000000000) as [Hsmall|Hbig].
    + pose proof (DecimalFacts.ndigits_le 20 v 9
                    ltac:(rewrite H9; lia) ltac:(lia)).
      lia.
    + pose proof (DecimalFacts.ndigits_ge 20 v 9
                    ltac:(rewrite H9; lia) ltac:(lia)).
      lia.
Qed.

Lemma padding_panics (pid : string) :
  Repeat " " ((8 - len pid) ÷ 2) = Panics <-> 10 <= len pid.
Proof.
  unfold Repeat.
  assert (Hquot : (8 - len pid) ÷ 2 < 0 <-> 10 <= len pid).
  { pose proof (Z.quot_rem' (8 - len pid) 2) as Hqr.
    pose proof (Z.rem_bound_abs (8 - len pid) 2 ltac:(lia)) as Hrem.
    assert (Hsign : 0 <= 8 - len pid -> 0 <= Z.rem (8 - len pid) 2)
      by (intros; apply Z.rem_nonneg; lia).
    assert (Hsign' : 8 - len pid <= 0 -> Z.rem (8 - len pid) 2 <= 0)
      by (intros; apply Z.rem_nonpos; lia).
    lia. }
  destruct (Z.ltb_spec ((8 - len pid) ÷ 2) 0); split; intros;
    first [reflexivity | discriminate | lia].
Qed.

Lemma gantt_cells_panics : forall gantt w,
  gantt_cells w gantt = Panics <-> Exists wide_pid gantt.
Proof.
  induction gantt as [|ts gantt IH]; intros w; cbn [gantt_cells].
  - split; [discriminate|]. intros H. inversion H.
  - cbv zeta. rewrite Exists_cons. unfold wide_pid at 1.
    rewrite <- Sprint_wide, <- padding_panics.
    destruct (Repeat " " ((8 - len (Sprint (PID ts))) ÷ 2)) as [padding| |]
      eqn:Hpad; cbn [mbind Run_bind].
    + rewrite IH. split; [auto|]. intros [H|H]; [discriminate H|exact H].
    + unfold Repeat in Hpad. destruct (_ <? 0); discriminate.
    + split; auto.
Qed.

Lemma gantt_cells_no_exit : forall gantt w status,
  gantt_cells w gantt <> Exits status.
Proof.
  induction gantt as [|ts gantt IH]; intros w status; cbn [gantt_cells];
    [discriminate|].
  cbv zeta. unfold Repeat. destruct (_ <? 0); cbn [mbind Run_bind];
    [discriminate|apply IH].
Qed.

End GanttFacts.

(** X6. [outputGantt] panics exactly when the chart holds a process id
    whose decimal form has ten bytes or more (an id of at least
    1000000000, or of at most -100000000): the padding of its cell,
    [(8 - len(pid)) / 2], is then negative and [strings.Repeat] panics.
    In every other case the call returns. *)
Theorem outputGantt_wide_pid (w : string) (gantt : list TimeSlice) :
  (outputGantt w gantt = Panics <-> Exists wide_pid gantt)
  /\ (~ Exists wide_pid gantt -> exists out, outputGantt w gantt = Returns out).
Proof.
  unfold outputGantt. cbv zeta.
  pose proof (GanttFacts.gantt_cells_panics gantt
                (Fprint (Fprintln w ["Gantt schedule"]) ["|"])) as Hpanic.
  pose proof (GanttFacts.gantt_cells_no_exit gantt
                (Fprint (Fprintln w ["Gantt schedule"]) ["|"])) as Hexit.
  destruct (gantt_cells (Fprint (Fprintln w ["Gantt schedule"]) ["|"]) gantt)
    as [w'| |]; cbn [mbind Run_bind].
  - split.
    + rewrite <- Hpanic. split; discriminate.
    + intros _. eexists. reflexivity.
  - exfalso. exact (Hexit status eq_refl).
  - split.
    + rewrite <- Hpanic. split; reflexivity.
    + intros Hnone. exfalso. apply Hnone, Hpanic. reflexivity.
Qed.

(** ** A scheduler and its output *)

Module OutputFacts.

Lemma outputTitle_returns (w title : string) :
  exists out, outputTitle w title = Returns out.
Proof.
  unfold outputTitle, Repeat, len.
  assert (Hquot : 0 <= Z.of_nat (String.length title) ÷ 2)
    by (apply Z.quot_pos; lia).
  destruct (Z.ltb_spec (Z.of_nat (String.length title) * 2) 0); [lia|].
  destruct (Z.ltb_spec (Z.of_nat (String.length title) ÷ 2) 0); [lia|].
  cbn [mbind Run_bind]. eexists. reflexivity.
Qed.

Lemma outputGantt_cases (w : string) (gantt : list TimeSlice) :
  (outputGantt w gantt = Panics /\ Exists wide_pid gantt)
  \/ (exists out, outputGantt w gantt = Returns out)
     /\ ~ Exists wide_pid gantt.
Proof.
  unfold outputGantt. cbv zeta.
  pose proof (GanttFacts.gantt_cells_panics gantt
                (Fprint (Fprintln w ["Gantt schedule"]) ["|"])) as Hpanic.
  pose proof (GanttFacts.gantt_cells_no_exit gantt
                (Fprint (Fprintln w ["Gantt schedule"]) ["|"])) as Hexit.
  destruct (gantt_cells (Fprint (Fprintln w ["Gantt schedule"]) ["|"]) gantt)
    as [w'| |]; cbn [mbind Run_bind].
  - right. split; [eexists; reflexivity|].
    intros Hwide. apply Hpanic in Hwide. discriminate Hwide.
  - exfalso. exact (Hexit status eq_refl).
  - left. split; [reflexivity|]. apply Hpanic. reflexivity.
Qed.

Section Output.

Variable outputSchedule :
  string -> list (option Row) -> Float64.t -> Float64.t -> Float64.t -> string.

Lemma output_cases w title o :
  (output outputSchedule w title o = Panics /\ Exists wide_pid (out_gantt o))
  \/ (exists out, output outputSchedule w title o = Returns out)
     /\ ~ Exists wide_pid (out_gantt o).
Proof.
  unfold output. destruct (outputTitle_returns w title) as [w1 ->].
  cbn [mbind Run_bind].
  destruct (outputGantt_cases w1 (out_gantt o)) as [[-> Hwide]|[[w2 ->] Hnone]];
    cbn [mbind Run_bind].
  - left. split; [reflexivity|exact Hwide].
  - right. split; [eexists; reflexivity|exact Hnone].
Qed.

(** A scheduler that has computed its schedule panics in [outputGantt]
    when an id of the chart has ten bytes or more, and returns
    otherwise. *)
Lemma scheduler_done w title c o :
  call_outcome c = Done o ->
  (scheduler outputSchedule w title c = Some Panics
   <-> Exists wide_pid (out_gantt o))
  /\ (~ Exists wide_pid (out_gantt o) ->
      exists out, scheduler outputSchedule w title c = Some (Returns out)).
Proof.
  intros Hdone. unfold scheduler. rewrite Hdone.
  destruct (output_cases w title o) as [[-> Hwide]|[[out ->] Hnone]].
  - split; [split; [intros _; exact Hwide|reflexivity]|].
    intros Hnone. contradiction.
  - split; [split; [discriminate|intros Hwide; contradiction]|].
    intros _. eexists. reflexivity.
Qed.

Lemma scheduler_no_exit w title c status :
  scheduler outputSchedule w title c <> Some (Exits status).
Proof.
  unfold scheduler. destruct (call_outcome c) as [o| |]; try discriminate.
  destruct (output_cases w title o) as [[-> _]|[[out ->] _]]; discriminate.
Qed.

Lemma scheduler_returns w title c out :
  scheduler outputSchedule w title c = Some (Returns out) ->
  exists o, returned c = Some o
            /\ output outputSchedule w title o = Returns out.
Proof.
  unfold scheduler, returned. destruct (call_outcome c); try discriminate.
  intros [= H]. eexists. split; [reflexivity|exact H].
Qed.

End Output.

(** The ids of a chart that shows the processes of [l]. *)
Lemma wide_pid_ids : forall (gantt : list TimeSlice) (l : list Process),
  map PID gantt = map ProcessID l ->
  Exists wide_pid gantt <-> Exists wide_id l.
Proof.
  induction gantt as [|ts gantt IH]; intros [|p l]; cbn [map];
    try discriminate.
  - intros _. split; intros H; inversion H.
  - intros [= Hid Hrest]. rewrite !Exists_cons, (IH l Hrest).
    unfold wide_pid, wide_id. rewrite Hid. reflexivity.
Qed.

End OutputFacts.

(** ** The trace of first-come, first-served *)

Module TraceFacts.

Lemma total_burst_app l1 l2 :
  total_burst (l1 ++ l2) = total_burst l1 + total_burst l2.
Proof. induction l1 as [|p l1 IH]; cbn [app total_burst]; lia. Qed.

Lemma contiguous_app t gantt t' ts :
  contiguous t gantt t' -> Start ts = t' ->
  contiguous t (gantt ++ [ts]) (Stop ts).
Proof.
  revert t. induction gantt as [|x gantt IH]; intros t; cbn [app contiguous].
  - intros -> Hs. split; [exact Hs|reflexivity].
  - intros [Hx Hrest] Hs. split; [exact Hx|apply IH; assumption].
Qed.

(** [waitingTime + arrival], for [waitingTime = serviceTime - arrival]. *)
Lemma start_is_clock s a :
  Int64.in_range s -> Int64.add (Int64.sub s a) a = s.
Proof.
  intros Hs. unfold Int64.add, Int64.sub.
  rewrite Int64Facts.wrap_add_l. replace (s - a + a) with s by lia.
  apply Int64Facts.wrap_small, Hs.
Qed.

Section FCFS.
Variable processes : list Process.

Lemma fcfs_iter_S k p :
  processes !! k = Some p ->
  fcfs_iter processes (S k) = fcfs_body k p (fcfs_iter processes k).
Proof. intros Hp. cbn [fcfs_iter]. rewrite Hp. reflexivity. Qed.

Lemma fcfs_clock k :
  (k <= length processes)%nat ->
  f_serviceTime (fcfs_iter processes k)
  = Int64.wrap (total_burst (take k processes)).
Proof.
  induction k as [|k IH]; intros Hk; [reflexivity|].
  destruct (lookup_lt_is_Some_2 processes k) as [p Hp]; [lia|].
  rewrite (fcfs_iter_S k p Hp), (take_S_r _ _ _ Hp), total_burst_app.
  cbn [fcfs_body f_serviceTime total_burst]. rewrite IH by lia.
  unfold Int64.add. rewrite Int64Facts.wrap_add_l. f_equal. lia.
Qed.

Lemma fcfs_clock_in_range k :
  Int64.in_range (f_serviceTime (fcfs_iter processes k)).
Proof.
  destruct k as [|k]; [cbn; unfold Int64.in_range, Int64.min_int, Int64.max_int; lia|].
  cbn [fcfs_iter]. destruct (processes !! k) as [p|].
  - cbn [fcfs_body f_serviceTime]. apply Int64Facts.add_in_range.
  - clear. induction k as [|k IH];
      [cbn; unfold Int64.in_range, Int64.min_int, Int64.max_int; lia|].
    cbn [fcfs_iter]. destruct (processes !! k) as [p|]; [|exact IH].
    cbn [fcfs_body f_serviceTime]. apply Int64Facts.add_in_range.
Qed.

Lemma fcfs_gantt_S k p :
  processes !! k = Some p ->
  exists start,
    f_gantt (fcfs_iter processes (S k))
    = f_gantt (fcfs_iter processes k)
      ++ [mkTimeSlice (ProcessID p) start
            (Int64.wrap (total_burst (take (S k) processes)))]
    /\ (0 < ArrivalTime p -> start = f_serviceTime (fcfs_iter processes k))
    /\ (ArrivalTime p = 0 ->
        start = Int64.wrap (f_waitingTime (fcfs_iter processes k))).
Proof.
  intros Hp.
  assert (Hk : (S k <= length processes)%nat)
    by (apply lookup_lt_Some in Hp; lia).
  rewrite <- (fcfs_clock (S k) Hk), (fcfs_iter_S k p Hp).
  cbn [fcfs_body f_gantt f_serviceTime]. eexists. split; [reflexivity|].
  split; intros Ha.
  - destruct (Z.gtb_spec (ArrivalTime p) 0); [|lia].
    apply start_is_clock, fcfs_clock_in_range.
  - destruct (Z.gtb_spec (ArrivalTime p) 0); [lia|].
    rewrite Ha. unfold Int64.add. f_equal. lia.
Qed.

End FCFS.

End TraceFacts.

(** X7. The loop of [FCFSSchedule] never panics: on every batch it hands
    to the output helpers a chart with one interval for each process, in
    the order of the input whatever the arrival times; the interval of a
    process stops at the sum of the bursts of the processes up to it (in
    [int64]): the clock never waits for an arrival. The call then returns,
    unless a process has an id of ten bytes or more: [outputGantt] then
    panics. *)
Theorem fcfs_trace outputSchedule (w title : string)
    (processes : list Process) :
  exists o,
    call_outcome (FCFSSchedule processes) = Done o
    /\ map PID (out_gantt o) = map ProcessID processes
    /\ map Stop (out_gantt o)
       = map (fun k => Int64.wrap (total_burst (take (S k) processes)))
             (seq 0 (length processes))
    /\ (scheduler outputSchedule w title (FCFSSchedule processes)
        = Some Panics
        <-> Exists wide_id processes)
    /\ (~ Exists wide_id processes ->
        exists out,
          scheduler outputSchedule w title (FCFSSchedule processes)
          = Some (Returns out)).
Proof.
  eexists. split; [reflexivity|]. cbn [out_gantt averages].
  assert (H : forall k, (k <= length processes)%nat ->
            map PID (f_gantt (fcfs_iter processes k))
            = map ProcessID (take k processes)
            /\ map Stop (f_gantt (fcfs_iter processes k))
               = map (fun k => Int64.wrap (total_burst (take (S k) processes)))
                     (seq 0 k)).
  { induction k as [|k IH]; intros Hk; [split; reflexivity|].
    destruct (lookup_lt_is_Some_2 processes k) as [p Hp]; [lia|].
    destruct (TraceFacts.fcfs_gantt_S processes k p Hp) as (start & -> & _).
    destruct (IH ltac:(lia)) as [IHpid IHstop].
    rewrite !map_app, IHpid, IHstop. split.
    - rewrite (take_S_r _ _ _ Hp), map_app. reflexivity.
    - rewrite seq_S, map_app. reflexivity. }
  destruct (H (length processes) ltac:(lia)) as [Hpid Hstop].
  rewrite firstn_all in Hpid. split; [exact Hpid|]. split; [exact Hstop|].
  destruct (OutputFacts.scheduler_done outputSchedule w title
              (FCFSSchedule processes) _ eq_refl) as [Hpanic Hreturn].
  cbn [out_gantt averages] in Hpanic, Hreturn.
  rewrite (OutputFacts.wide_pid_ids _ _ Hpid) in Hpanic, Hreturn.
  split; assumption.
Qed.

(** X8. When every process arrives after time 0, the chart of
    [FCFSSchedule] is contiguous: the first interval starts at time 0 and
    every other one starts when the one before it stops, even when the
    process has not arrived by then. *)
Theorem fcfs_contiguous (processes : list Process) :
  Forall (fun p => 0 < ArrivalTime p) processes ->
  exists o,
    call_outcome (FCFSSchedule processes) = Done o
    /\ contiguous 0 (out_gantt o) (Int64.wrap (total_burst processes)).
Proof.
  intros Hlate. eexists. split; [reflexivity|]. cbn [out_gantt averages].
  assert (H : forall k, (k <= length processes)%nat ->
            contiguous 0 (f_gantt (fcfs_iter processes k))
              (Int64.wrap (total_burst (take k processes)))).
  { induction k as [|k IH]; intros Hk; [reflexivity|].
    destruct (lookup_lt_is_Some_2 processes k) as [p Hp]; [lia|].
    destruct (TraceFacts.fcfs_gantt_S processes k p Hp)
      as (start & -> & Hstart & _).
    apply (TraceFacts.contiguous_app 0 _
             (Int64.wrap (total_burst (take k processes)))
             (mkTimeSlice (ProcessID p) start _)); [apply IH; lia|].
    cbn [Start]. rewrite Hstart.
    - apply TraceFacts.fcfs_clock. lia.
    - apply (proj1 (Forall_forall _ _) Hlate).
      exact (list_elem_of_lookup_2 _ _ _ Hp). }
  specialize (H (length processes) ltac:(lia)).
  rewrite firstn_all in H. exact H.
Qed.

Lemma fcfs_contiguous_witness :
  exists o,
    call_outcome (FCFSSchedule batch_late_arrival) = Done o
    /\ contiguous 0 (out_gantt o)
         (Int64.wrap (total_burst batch_late_arrival)).
Proof.
  apply (fcfs_contiguous batch_late_arrival).
  repeat constructor.
Defined.

(** X9. When every process arrives at time 0, [FCFSSchedule] reports a
    wait of 0 for each of them and starts each interval at time 0: the
    wait is assigned only for a positive arrival time, so it stays at its
    initial value, and the intervals overlap. *)
Theorem fcfs_all_at_zero (processes : list Process) :
  Forall (fun p => ArrivalTime p = 0) processes ->
  exists o,
    call_outcome (FCFSSchedule processes) = Done o
    /\ Forall (fun ts => Start ts = 0) (out_gantt o)
    /\ Forall (fun row => exists r, row = Some r /\ row_wait r = 0)
              (out_schedule o).
Proof.
  intros Hzero. eexists. split; [reflexivity|].
  cbn [out_gantt out_schedule averages].
  assert (H : forall k, (k <= length processes)%nat ->
            f_waitingTime (fcfs_iter processes k) = 0
            /\ Forall (fun ts => Start ts = 0) (f_gantt (fcfs_iter processes k))
            /\ forall i, (i < k)%nat ->
                 exists r, f_schedule (fcfs_iter processes k) !! i = Some (Some r)
                           /\ row_wait r = 0).
  { induction k as [|k IH]; intros Hk.
    - split; [reflexivity|]. split; [constructor|]. intros i Hi. lia.
    - destruct (lookup_lt_is_Some_2 processes k) as [p Hp]; [lia|].
      destruct (IH ltac:(lia)) as (Hwait & Hgantt & Hrows).
      assert (Hp0 : ArrivalTime p = 0).
      { apply (proj1 (Forall_forall _ _) Hzero).
        exact (list_elem_of_lookup_2 _ _ _ Hp). }
      pose proof (fcfs_schedule_length processes k) as Hlen.
      rewrite (TraceFacts.fcfs_iter_S processes k p Hp).
      cbn [fcfs_body f_waitingTime f_gantt f_schedule].
      rewrite Hp0, Hwait. change (0 >? 0) with false. cbv iota.
      split; [reflexivity|]. split.
      + apply Forall_app. split; [exact Hgantt|].
        constructor; [reflexivity|constructor].
      + intros i Hi. destruct (decide (i = k)) as [->|Hne].
        * eexists. split; [apply list_lookup_insert_eq; lia|reflexivity].
        * rewrite list_lookup_insert_ne by lia. apply Hrows. lia. }
  destruct (H (length processes) ltac:(lia)) as (_ & Hgantt & Hrows).
  split; [exact Hgantt|].
  apply Forall_lookup_2. intros i row Hrow.
  pose proof (fcfs_schedule_length processes (length processes)) as Hlen.
  destruct (Hrows i) as (r & Hr & Hw).
  { apply lookup_lt_Some in Hrow. lia. }
  exists r. split; [congruence|exact Hw].
Qed.

Lemma fcfs_all_at_zero_witness :
  exists o,
    call_outcome (FCFSSchedule batch_two_at_zero) = Done o
    /\ Forall (fun ts => Start ts = 0) (out_gantt o)
    /\ Forall (fun row => exists r, row = Some r /\ row_wait r = 0)
              (out_schedule o).
Proof.
  apply (fcfs_all_at_zero batch_two_at_zero).
  repeat constructor.
Defined.

(** ** The trace of the shortest-job-first schedulers *)

Module SJFTraceFacts.
Section Trace.
Variable key : Process -> Z.
Variable sorted : list Process.

(** A property that the body keeps holds when the loop is left. *)
Lemma sjf_loop_keeps (I : SJFState -> Prop) :
  (forall st st',
     I st -> (s_processCounter st < length sorted)%nat ->
     sjf_body key sorted st = Some st' -> I st') ->
  forall fuel st st',
    I st -> sjf_loop key fuel sorted st = Some (inl st') ->
    I st' /\ (length sorted <= s_processCounter st')%nat.
Proof.
  intros Hbody. induction fuel as [|fuel IH]; intros st st' Hst;
    rewrite sjf_loop_unfold;
    destruct (Nat.ltb_spec (s_processCounter st) (length sorted)) as [Hlt|Hge];
    try (intros [= <-]; split; [exact Hst|exact Hge]).
  - discriminate.
  - destruct (sjf_body key sorted st) as [st1|] eqn:Hst1; [|discriminate].
    apply IH. exact (Hbody st st1 Hst Hlt Hst1).
Qed.

(** The processes that the admission loop pushes. *)
Lemma sjf_admit_perm t : forall todo queue pc queue' pc',
  (todo + pc = length sorted)%nat ->
  sjf_admit key sorted t todo queue pc = (queue', pc') ->
  (pc <= pc' <= length sorted)%nat
  /\ map pp_Process queue' ≡ₚ map pp_Process queue ++ drop pc (take pc' sorted)
  /\ map pp_Priority queue'
     ≡ₚ map pp_Priority queue ++ map key (drop pc (take pc' sorted))
  /\ Forall (fun p => ArrivalTime p <= t) (drop pc (take pc' sorted))
  /\ (forall p, sorted !! pc' = Some p -> t < ArrivalTime p).
Proof.
  induction todo as [|todo IH]; intros queue pc queue' pc' Hn Hadm;
    cbn [sjf_admit] in Hadm.
  - injection Hadm as <- <-. rewrite drop_ge by (rewrite length_take; lia).
    rewrite !app_nil_r.
    split; [lia|]. split; [reflexivity|]. split; [reflexivity|].
    split; [constructor|].
    intros p Hp. apply lookup_lt_Some in Hp. lia.
  - destruct (lookup_lt_is_Some_2 sorted pc) as [p Hp]; [lia|].
    rewrite Hp in Hadm.
    destruct (Z.leb_spec (ArrivalTime p) t) as [Harrived|Hlater].
    + apply IH in Hadm as (Hpc & Hperm & Hkeys & Hall & Hnext); [|lia].
      assert (Hdrop : drop pc (take pc' sorted)
                      = p :: drop (S pc) (take pc' sorted)).
      { apply drop_S. rewrite lookup_take_lt by lia. exact Hp. }
      rewrite Hdrop. split; [lia|]. split; [|split; [|split]].
      * rewrite Hperm. rewrite (Permutation_map _ (HeapFacts.Push_perm _ _)).
        cbn [map pp_Process]. apply Permutation_middle.
      * rewrite Hkeys. rewrite (Permutation_map _ (HeapFacts.Push_perm _ _)).
        cbn [map pp_Priority]. apply Permutation_middle.
      * constructor; assumption.
      * exact Hnext.
    + injection Hadm as <- <-. rewrite drop_ge by (rewrite length_take; lia).
      rewrite !app_nil_r.
      split; [lia|]. split; [reflexivity|]. split; [reflexivity|].
      split; [constructor|].
      intros q Hq. rewrite Hp in Hq. injection Hq as <-. exact Hlater.
Qed.

Lemma sjf_init_trace : sjf_trace sorted (sjf_init (length sorted)) [].
Proof.
  unfold sjf_trace. cbn.
  repeat split; try constructor; unfold Int64.min_int, Int64.max_int; lia.
Qed.

(** What an iteration of the loop does, when it does not panic. *)
Lemma sjf_body_step st st' :
  Int64.in_range (s_serviceTime st) ->
  sjf_body key sorted st = Some st' ->
  exists queue' current,
    sjf_admit key sorted (s_serviceTime st)
              (length sorted - s_processCounter st)
              (s_readyQueue st) (s_processCounter st)
    = (queue', s_processCounter st')
    /\ Heap.Pop queue' = Some (current, s_readyQueue st')
    /\ s_serviceTime st'
       = Int64.add (s_serviceTime st) (BurstDuration (pp_Process current))
    /\ s_gantt st'
       = s_gantt st ++ [mkTimeSlice (ProcessID (pp_Process current))
                                    (s_serviceTime st) (s_serviceTime st')]
    /\ exists row,
         store_row (s_schedule st) (Z.of_nat (s_processCounter st') - 1) row
         = Some (s_schedule st').
Proof.
  intros Hclock. unfold sjf_body.
  destruct (sjf_admit key sorted (s_serviceTime st)
              (length sorted - s_processCounter st)
              (s_readyQueue st) (s_processCounter st))
    as [queue' pc'] eqn:Hadm.
  destruct (Heap.Pop queue') as [[current queue'']|] eqn:Hpop; [|discriminate].
  destruct (store_row _ _ _) as [schedule'|] eqn:Hstore; [|discriminate].
  intros [= <-]. exists queue', current.
  cbn [s_serviceTime s_processCounter s_gantt s_readyQueue s_schedule].
  rewrite TraceFacts.start_is_clock by exact Hclock.
  repeat split; try reflexivity; try assumption.
  eexists. exact Hstore.
Qed.

Lemma sjf_body_trace st st' ran :
  sjf_trace sorted st ran ->
  sjf_body key sorted st = Some st' ->
  exists p, sjf_trace sorted st' (ran ++ [p]).
Proof.
  intros (Hclock & Hpc & Hruns & Hchain & Hperm) Hbody.
  destruct (sjf_body_step st st' Hclock Hbody)
    as (queue' & current & Hadm & Hpop & Hclock' & Hgantt & _).
  apply sjf_admit_perm in Hadm as (Hpc' & Hadmitted & _); [|lia].
  exists (pp_Process current).
  pose proof (Permutation_map pp_Process (HeapFacts.Pop_perm _ _ _ Hpop))
    as Hpopped.
  cbn [map] in Hpopped.
  unfold sjf_trace. rewrite Hgantt.
  split; [rewrite Hclock'; apply Int64Facts.add_in_range|].
  split; [lia|]. split; [|split].
  - apply Forall2_app; [exact Hruns|].
    constructor; [|constructor]. split; [reflexivity|exact Hclock'].
  - exact (TraceFacts.contiguous_app 0 _ _
             (mkTimeSlice _ (s_serviceTime st) _) Hchain eq_refl).
  - rewrite <- app_assoc. cbn [app].
    rewrite <- Hpopped, Hadmitted, app_assoc, Hperm.
    rewrite <- (take_drop (s_processCounter st)
                  (take (s_processCounter st') sorted)) at 2.
    rewrite take_take, Nat.min_l by lia. reflexivity.
Qed.

(** The trace of a call that returns. *)
Lemma sjf_loop_trace fuel st' :
  sjf_loop key fuel sorted (sjf_init (length sorted)) = Some (inl st') ->
  exists ran left,
    Forall2 runs (s_gantt st') ran
    /\ contiguous 0 (s_gantt st') (s_serviceTime st')
    /\ ran ++ left ≡ₚ sorted
    /\ length left = length (s_readyQueue st').
Proof.
  intros Hloop.
  destruct (sjf_loop_keeps (fun st => exists ran, sjf_trace sorted st ran))
    with (fuel := fuel) (st := sjf_init (length sorted)) (st' := st')
    as [(ran & Hclock & Hpc & Hruns & Hchain & Hperm) Hend].
  - intros st st1 (ran & Htrace) _ Hbody.
    destruct (sjf_body_trace st st1 ran Htrace Hbody) as (p & Hp).
    exists (ran ++ [p]). exact Hp.
  - exists []. apply sjf_init_trace.
  - exact Hloop.
  - exists ran, (map pp_Process (s_readyQueue st')).
    rewrite firstn_all2 in Hperm by lia.
    rewrite length_map. auto.
Qed.

End Trace.
End SJFTraceFacts.

(** ** The ready queue is a heap *)

Module HeapOrderFacts.
Local Open Scope nat_scope.

Lemma rank_less_key x y : rank_less x y = (rank x <? rank y)%Z.
Proof.
  unfold rank_less, rank.
  destruct (Z.ltb_spec (pp_Priority y) (pp_Priority x));
    destruct (Z.ltb_spec (- pp_Priority x) (- pp_Priority y)); lia.
Qed.

Lemma queue_Less (pq : list PriorityProcess) i j :
  PriorityQueue.Less pq j i = Sort.Less rank_less pq i j.
Proof.
  unfold PriorityQueue.Less, Sort.Less, rank_less, PriorityQueue.t in *.
  destruct (pq !! i), (pq !! j); reflexivity.
Qed.

Lemma queue_Less_key (pq : list PriorityProcess) i j :
  i < length pq -> j < length pq ->
  PriorityQueue.Less pq i j
  = (key_at pp_Priority pq i <? key_at pp_Priority pq j)%Z.
Proof.
  intros Hi Hj. unfold PriorityQueue.Less, key_at, PriorityQueue.t in *.
  destruct (lookup_lt_is_Some_2 pq i Hi) as [x ->].
  destruct (lookup_lt_is_Some_2 pq j Hj) as [y ->]. reflexivity.
Qed.

(** [down] of [container/heap] is [siftDown] of [sort], for the order
    turned upside down. *)
Lemma down_loop_siftDown fuel : forall (h : list PriorityProcess) i n,
  Heap.down_loop fuel h i n = Sort.siftDown_loop rank_less fuel h i n 0.
Proof.
  induction fuel as [|fuel IH]; intros h i n;
    cbn [Heap.down_loop Sort.siftDown_loop Nat.add]; [reflexivity|].
  destruct (n <=? 2 * i + 1); [reflexivity|].
  cbv zeta. rewrite queue_Less.
  replace (2 * i + 1 + 1) with (S (2 * i + 1)) by lia.
  rewrite queue_Less. rewrite IH. reflexivity.
Qed.

Lemma heap_ordered_at (pq : list PriorityProcess) :
  heap_ordered pq
  <-> forall i, i < length pq -> heap_at rank pq (length pq) 0 i.
Proof.
  unfold heap_ordered, heap_at, key_at, rank. cbn [Nat.add]. split.
  - intros Hheap i Hi.
    destruct (lookup_lt_is_Some_2 pq i Hi) as [x Hx]. rewrite Hx.
    split; intros Hj.
    + destruct (lookup_lt_is_Some_2 pq (2 * i + 1) Hj) as [y Hy]. rewrite Hy.
      specialize (Hheap i (2 * i + 1) x y ltac:(lia) Hx Hy). lia.
    + destruct (lookup_lt_is_Some_2 pq (2 * i + 2) Hj) as [y Hy]. rewrite Hy.
      specialize (Hheap i (2 * i + 2) x y ltac:(lia) Hx Hy). lia.
  - intros Hheap i j x y Hj Hx Hy.
    pose proof (lookup_lt_Some _ _ _ Hx) as Hi.
    pose proof (lookup_lt_Some _ _ _ Hy) as Hjn.
    destruct (Hheap i Hi) as [H1 H2]. rewrite Hx in H1, H2.
    destruct Hj as [-> | ->].
    + specialize (H1 Hjn). rewrite Hy in H1. lia.
    + specialize (H2 Hjn). rewrite Hy in H2. lia.
Qed.

(** Heap order, on the priority values by index. *)
Lemma heap_ordered_keys (pq : list PriorityProcess) :
  heap_ordered pq
  <-> forall i j, (j = 2 * i + 1 \/ j = 2 * i + 2) -> j < length pq ->
        (key_at pp_Priority pq i <= key_at pp_Priority pq j)%Z.
Proof.
  unfold heap_ordered, key_at. split.
  - intros Hheap i j Hj Hjn.
    destruct (lookup_lt_is_Some_2 pq i ltac:(lia)) as [x Hx].
    destruct (lookup_lt_is_Some_2 pq j Hjn) as [y Hy].
    rewrite Hx, Hy. exact (Hheap i j x y Hj Hx Hy).
  - intros Hheap i j x y Hj Hx Hy.
    specialize (Hheap i j Hj (lookup_lt_Some _ _ _ Hy)).
    rewrite Hx, Hy in Hheap. exact Hheap.
Qed.

(** [up]: when every entry but that of index [j] is not below its parent,
    and the children of [j] are not below the parent of [j], the queue is
    in heap order afterwards. *)
Lemma up_loop_heap : forall fuel (h : list PriorityProcess) j,
  j < length h -> j < fuel ->
  (forall i c, (c = 2 * i + 1 \/ c = 2 * i + 2) -> c < length h -> c <> j ->
               (key_at pp_Priority h i <= key_at pp_Priority h c)%Z) ->
  (forall i c, (j = 2 * i + 1 \/ j = 2 * i + 2) ->
               (c = 2 * j + 1 \/ c = 2 * j + 2) -> c < length h ->
               (key_at pp_Priority h i <= key_at pp_Priority h c)%Z) ->
  heap_ordered (Heap.up_loop fuel h j).
Proof.
  induction fuel as [|fuel IH]; intros h j Hj Hfuel Hheap Hgrand; [lia|].
  cbn [Heap.up_loop]. cbv zeta.
  destruct (Nat.eqb_spec ((j - 1) / 2) j) as [Hroot|Hchild]; cbn [orb].
  { apply heap_ordered_keys. intros i c Hc Hcn. apply Hheap; try assumption.
    pose proof (Nat.div_mod_eq (j - 1) 2).
    pose proof (Nat.mod_upper_bound (j - 1) 2 ltac:(lia)). lia. }
  assert (Hparent : (j = 2 * ((j - 1) / 2) + 1 \/ j = 2 * ((j - 1) / 2) + 2)
                    /\ (j - 1) / 2 < j).
  { pose proof (Nat.div_mod_eq (j - 1) 2).
    pose proof (Nat.mod_upper_bound (j - 1) 2 ltac:(lia)). lia. }
  revert Hchild Hparent. generalize ((j - 1) / 2). intros i _ [Hij Hlt].
  rewrite queue_Less_key by lia.
  destruct (Z.ltb_spec (key_at pp_Priority h j) (key_at pp_Priority h i))
    as [Hless|Hge]; cbn [negb].
  - apply IH.
    + change PriorityQueue.Swap with (@Sort.Swap PriorityProcess).
      rewrite SortFacts.Swap_length. lia.
    + lia.
    + change PriorityQueue.Swap with (@Sort.Swap PriorityProcess).
      rewrite SortFacts.Swap_length. intros p c Hc Hcn Hci.
      destruct (decide (c = j)) as [->|Hcj].
      { assert (p = i) as -> by lia. swap_keys pp_Priority; lia. }
      destruct (decide (p = i)) as [->|Hpi].
      { pose proof (Hheap i c Hc Hcn Hcj). swap_keys pp_Priority; lia. }
      destruct (decide (p = j)) as [->|Hpj].
      { pose proof (Hgrand i c Hij Hc Hcn). swap_keys pp_Priority; lia. }
      pose proof (Hheap p c Hc Hcn Hcj). swap_keys pp_Priority; lia.
    + change PriorityQueue.Swap with (@Sort.Swap PriorityProcess).
      rewrite SortFacts.Swap_length. intros p c Hp Hc Hcn.
      pose proof (Hheap p i Hp ltac:(lia) ltac:(lia)) as Hpi.
      destruct (decide (c = j)) as [->|Hcj].
      { swap_keys pp_Priority; lia. }
      pose proof (Hheap i c Hc Hcn Hcj). swap_keys pp_Priority; lia.
  - apply heap_ordered_keys. intros p c Hc Hcn.
    destruct (decide (c = j)) as [->|Hcj].
    + assert (p = i) as -> by lia. exact Hge.
    + apply Hheap; assumption.
Qed.

Lemma Push_heap (h : list PriorityProcess) x :
  heap_ordered h -> heap_ordered (Heap.Push h x).
Proof.
  intros Hheap.
  unfold Heap.Push, Heap.up, PriorityQueue.Push, PriorityQueue.Len,
    PriorityQueue.t in *.
  rewrite length_app. cbn [length].
  replace (length h + 1 - 1) with (length h) by lia.
  pose proof (proj1 (heap_ordered_keys h) Hheap) as Hkeys. clear Hheap.
  apply up_loop_heap.
  - rewrite length_app. cbn [length]. lia.
  - lia.
  - rewrite length_app. cbn [length]. intros i c Hc Hcn Hne.
    unfold key_at. rewrite !lookup_app_l by lia. apply Hkeys; [exact Hc|lia].
  - rewrite length_app. cbn [length]. intros i c Hj Hc Hcn. lia.
Qed.

(** [heap.Pop] takes the root of the heap, whose priority value is the
    least, and leaves a heap. *)
Lemma Pop_heap (h : list PriorityProcess) x h' :
  heap_ordered h -> Heap.Pop h = Some (x, h') ->
  heap_ordered h' /\ Forall (fun y => (pp_Priority x <= pp_Priority y)%Z) h.
Proof.
  intros Hheap. unfold Heap.Pop, PriorityQueue.Len, PriorityQueue.t in *.
  destruct (length h) as [|n] eqn:Hlen; [discriminate|].
  unfold Heap.down. rewrite down_loop_siftDown.
  change PriorityQueue.Swap with (@Sort.Swap PriorityProcess).
  set (h1 := Sort.Swap h 0 n).
  assert (Hlen1 : length h1 = S n)
    by (subst h1; rewrite SortFacts.Swap_length; exact Hlen).
  pose proof (proj1 (heap_ordered_at h) Hheap) as Hat. rewrite Hlen in Hat.
  pose proof (HeapSortFacts.heap_root_max rank (S n) 0 h Hat) as Hmin.
  destruct (HeapSortFacts.siftDown_loop_heap rank rank_less rank_less_key
              0 n 0 n h1 0) as [Hframe Hdown]; try lia.
  { intros i _ Hi Hne. specialize (Hat i ltac:(lia)) as [H1 H2].
    subst h1. unfold heap_at in *. cbn [Nat.add] in *.
    split; intros Hc; swap_keys rank; lia. }
  set (h2 := Sort.siftDown_loop rank_less n h1 0 n 0) in *.
  cbn [Nat.add] in Hframe. destruct Hframe as (Hlen2 & Hout & _).
  assert (Hlast : h2 !! n = h !! 0).
  { rewrite Hout by lia. subst h1.
    rewrite (RangeFacts.Swap_lookup h 0 n n) by lia.
    destruct (Nat.eqb_spec n 0) as [->|Hn]; [reflexivity|].
    rewrite Nat.eqb_refl. reflexivity. }
  destruct (lookup_lt_is_Some_2 h 0 ltac:(lia)) as [root Hroot].
  unfold PriorityQueue.Pop, PriorityQueue.t in *.
  assert (Hsplit : h2 = take n h2 ++ [root]).
  { rewrite <- (take_drop n h2) at 1. f_equal.
    rewrite (drop_S _ root n) by (rewrite Hlast; exact Hroot).
    rewrite drop_ge by lia. reflexivity. }
  rewrite Hsplit, last_snoc, removelast_last. intros [= <- <-]. split.
  - apply heap_ordered_at. rewrite length_take, Hlen2, Hlen1.
    replace (n `min` S n) with n by lia.
    intros i Hi. specialize (Hdown i ltac:(lia) Hi).
    unfold heap_at, key_at in *. cbn [Nat.add] in *.
    destruct Hdown as [H1 H2]. split; intros Hc.
    + specialize (H1 Hc). rewrite !lookup_take_lt by lia. exact H1.
    + specialize (H2 Hc). rewrite !lookup_take_lt by lia. exact H2.
  - apply Forall_lookup_2. intros j y Hy.
    specialize (Hmin j ltac:(apply lookup_lt_Some in Hy; lia)).
    unfold key_at, rank in Hmin. cbn [Nat.add] in Hmin.
    rewrite Hy, Hroot in Hmin. lia.
Qed.

End HeapOrderFacts.

(** ** Shortest job first *)

Module SJFOrderFacts.
Section Order.
Variable key : Process -> Z.
Variable sorted : list Process.
Hypothesis sorted_by_arrival : arrival_sorted sorted.

Lemma sjf_admit_heap t : forall todo queue pc queue' pc',
  sjf_admit key sorted t todo queue pc = (queue', pc') ->
  heap_ordered queue -> keyed key queue ->
  heap_ordered queue' /\ keyed key queue'.
Proof.
  induction todo as [|todo IH]; intros queue pc queue' pc' Hadm Hheap Hkeyed;
    cbn [sjf_admit] in Hadm.
  - injection Hadm as <- <-. split; assumption.
  - destruct (sorted !! pc) as [p|]; [|injection Hadm as <- <-; split; assumption].
    destruct (ArrivalTime p <=? t);
      [|injection Hadm as <- <-; split; assumption].
    apply IH in Hadm; [exact Hadm| |].
    + apply HeapOrderFacts.Push_heap, Hheap.
    + unfold keyed. rewrite HeapFacts.Push_perm.
      constructor; [reflexivity|exact Hkeyed].
Qed.

(** The processes not admitted at time [t] arrive after [t]. *)
Lemma later_arrivals t pc' :
  (forall p, sorted !! pc' = Some p -> t < ArrivalTime p) ->
  forall q, q ∈ drop pc' sorted -> t < ArrivalTime q.
Proof.
  intros Hnext q Hq. apply list_elem_of_lookup_1 in Hq as [i Hi].
  rewrite lookup_drop in Hi.
  destruct (lookup_lt_is_Some_2 sorted pc') as [p Hp];
    [apply lookup_lt_Some in Hi; lia|].
  specialize (Hnext p Hp).
  destruct i as [|i]; [rewrite Nat.add_0_r in Hi; congruence|].
  pose proof (StronglySorted_lookup _ sorted sorted_by_arrival pc'
                (pc' + S i)%nat p q ltac:(lia) Hp Hi) as Hle.
  cbv beta in Hle. lia.
Qed.

Lemma drop_take_elem {A : Type} (l : list A) a b q :
  q ∈ drop a (take b l) -> q ∈ drop a l.
Proof.
  intros Hq. apply list_elem_of_lookup_1 in Hq as [i Hi].
  rewrite lookup_drop in Hi. apply lookup_take_Some in Hi as [Hi _].
  apply (list_elem_of_lookup_2 _ i). rewrite lookup_drop. exact Hi.
Qed.

Lemma drop_elem_le {A : Type} (l : list A) a b q :
  (a <= b)%nat -> q ∈ drop b l -> q ∈ drop a l.
Proof.
  intros Hab Hq. apply list_elem_of_lookup_1 in Hq as [i Hi].
  rewrite lookup_drop in Hi.
  apply (list_elem_of_lookup_2 _ (b - a + i)). rewrite lookup_drop.
  replace (a + (b - a + i))%nat with (b + i)%nat by lia. exact Hi.
Qed.

(** An interval that is already in the chart. *)
Lemma shorter_than_before gantt ran ts p k q :
  length gantt = length ran -> (k < length ran)%nat ->
  shorter_than key gantt ran k q ->
  shorter_than key (gantt ++ [ts]) (ran ++ [p]) k q.
Proof.
  intros Hlen Hk Hold ts' p' Hts Hp.
  rewrite lookup_app_l in Hts by lia. rewrite lookup_app_l in Hp by lia.
  exact (Hold ts' p' Hts Hp).
Qed.

Lemma sjf_body_order st st' ran :
  sjf_trace sorted st ran -> sjf_order key sorted st ran ->
  sjf_body key sorted st = Some st' ->
  exists p, sjf_trace sorted st' (ran ++ [p])
            /\ sjf_order key sorted st' (ran ++ [p]).
Proof.
  intros (Hclock & Hpc & Hruns & Hchain & Hperm)
         (Hheap & Hkeyed & Hpast & Hfuture) Hbody.
  destruct (SJFTraceFacts.sjf_body_step key sorted st st' Hclock Hbody)
    as (queue' & current & Hadm & Hpop & Hclock' & Hgantt & _).
  destruct (sjf_admit_heap _ _ _ _ _ _ Hadm Hheap Hkeyed) as [Hheap' Hkeyed'].
  pose proof Hadm as Hadm'.
  apply SJFTraceFacts.sjf_admit_perm in Hadm'
    as (Hpc' & Hadmitted & _ & _ & Hnext); [|lia].
  destruct (HeapOrderFacts.Pop_heap _ _ _ Hheap' Hpop) as [Hheap'' Hmin].
  pose proof (HeapFacts.Pop_perm _ _ _ Hpop) as Hpopped.
  assert (Hlen : length (s_gantt st) = length ran)
    by (exact (Forall2_length _ _ _ Hruns)).
  exists (pp_Process current). split.
  { unfold sjf_trace. rewrite Hgantt.
    split; [rewrite Hclock'; apply Int64Facts.add_in_range|].
    split; [lia|]. split; [|split].
    - apply Forall2_app; [exact Hruns|].
      constructor; [|constructor]. split; [reflexivity|exact Hclock'].
    - exact (TraceFacts.contiguous_app 0 _ _
               (mkTimeSlice _ (s_serviceTime st) _) Hchain eq_refl).
    - rewrite <- app_assoc. cbn [app].
      rewrite <- (Permutation_map pp_Process Hpopped : _ ≡ₚ _ :: _).
      rewrite Hadmitted, app_assoc, Hperm.
      rewrite <- (take_drop (s_processCounter st)
                    (take (s_processCounter st') sorted)) at 2.
      rewrite take_take, Nat.min_l by lia. reflexivity. }
  assert (Hwaiting : forall q,
            q ∈ map pp_Process queue' ->
            q ∈ map pp_Process (s_readyQueue st)
                ++ drop (s_processCounter st) sorted).
  { intros q Hq. rewrite Hadmitted in Hq.
    apply elem_of_app in Hq as [Hq|Hq]; apply elem_of_app;
      [left; exact Hq|right; exact (drop_take_elem _ _ _ _ Hq)]. }
  assert (Hstill : forall q,
            q ∈ map pp_Process (s_readyQueue st')
                ++ drop (s_processCounter st') sorted ->
            q ∈ map pp_Process (s_readyQueue st)
                ++ drop (s_processCounter st) sorted).
  { intros q Hq. apply elem_of_app in Hq as [Hq|Hq].
    - apply Hwaiting. rewrite (Permutation_map pp_Process Hpopped).
      cbn [map]. apply elem_of_cons. right. exact Hq.
    - apply elem_of_app. right.
      exact (drop_elem_le sorted (s_processCounter st) (s_processCounter st')
               q ltac:(lia) Hq). }
  split; [exact Hheap''|]. split; [|split].
  - unfold keyed in *. rewrite Hpopped in Hkeyed'.
    exact (Forall_inv_tail Hkeyed').
  - rewrite Hgantt. intros k k' q Hk Hq.
    destruct (decide (k' < length ran)%nat) as [Hold|Hnew].
    + rewrite lookup_app_l in Hq by exact Hold.
      apply shorter_than_before; [exact Hlen|lia|].
      exact (Hpast k k' q Hk Hq).
    + assert (k' = length ran) as ->.
      { apply lookup_lt_Some in Hq. rewrite length_app in Hq.
        cbn [length] in Hq. lia. }
      rewrite list_lookup_middle in Hq by reflexivity. injection Hq as <-.
      apply shorter_than_before; [exact Hlen|exact Hk|].
      apply Hfuture, Hwaiting. rewrite (Permutation_map pp_Process Hpopped).
      cbn [map]. apply elem_of_cons. left. reflexivity.
  - rewrite Hgantt. intros k q Hq.
    destruct (decide (k < length ran)%nat) as [Hold|Hnew].
    + apply shorter_than_before; [exact Hlen|exact Hold|].
      apply Hfuture, Hstill, Hq.
    + intros ts p Hts Hp.
      assert (k = length ran) as ->.
      { apply lookup_lt_Some in Hp. rewrite length_app in Hp.
        cbn [length] in Hp. lia. }
      rewrite list_lookup_middle in Hts by (symmetry; exact Hlen).
      rewrite list_lookup_middle in Hp by reflexivity.
      injection Hts as <-. injection Hp as <-. cbn [Start]. intros Harrived.
      apply elem_of_app in Hq as [Hq|Hq].
      * apply list_elem_of_fmap in Hq as (y & -> & Hy).
        assert (Hy' : y ∈ queue')
          by (rewrite Hpopped; apply elem_of_cons; right; exact Hy).
        pose proof (proj1 (Forall_forall _ _) Hmin y Hy') as Hle.
        pose proof (proj1 (Forall_forall _ _) Hkeyed' y Hy') as Hky.
        assert (Hc' : current ∈ queue')
          by (rewrite Hpopped; apply elem_of_cons; left; reflexivity).
        pose proof (proj1 (Forall_forall _ _) Hkeyed' current Hc') as Hkc.
        cbv beta in *. lia.
      * pose proof (later_arrivals _ _ Hnext q Hq). lia.
Qed.

Lemma sjf_init_order :
  sjf_order key sorted (sjf_init (length sorted)) [].
Proof.
  unfold sjf_order. cbn [sjf_init s_readyQueue s_gantt Heap.Init].
  split; [intros i j x y _ Hx; discriminate Hx|].
  split; [constructor|]. split.
  - intros k k' q _ Hq. discriminate Hq.
  - intros k q _ ts p Hts. discriminate Hts.
Qed.

(** The order of the dispatches of a call that returns. *)
Lemma sjf_loop_order fuel st' :
  sjf_loop key fuel sorted (sjf_init (length sorted)) = Some (inl st') ->
  exists ran left,
    Forall2 runs (s_gantt st') ran
    /\ ran ++ left ≡ₚ sorted
    /\ shortest_first key (s_gantt st') ran.
Proof.
  intros Hloop.
  destruct (SJFTraceFacts.sjf_loop_keeps key sorted
              (fun st => exists ran, sjf_trace sorted st ran
                                     /\ sjf_order key sorted st ran))
    with (fuel := fuel) (st := sjf_init (length sorted)) (st' := st')
    as [(ran & (Hclock & Hpc & Hruns & Hchain & Hperm) & Horder) Hend].
  - intros st st1 (ran & Htrace & Horder) _ Hbody.
    destruct (sjf_body_order st st1 ran Htrace Horder Hbody) as (p & Hp).
    exists (ran ++ [p]). exact Hp.
  - exists []. split; [apply SJFTraceFacts.sjf_init_trace|apply sjf_init_order].
  - exact Hloop.
  - exists ran, (map pp_Process (s_readyQueue st')).
    rewrite firstn_all2 in Hperm by lia.
    split; [exact Hruns|]. split; [exact Hperm|]. apply Horder.
Qed.

End Order.
End SJFOrderFacts.

(** ** The shortest-job-first schedulers *)

Module SJFScheduleFacts.
Section Schedule.
Variable key : Process -> Z.
Variable processes : list Process.

(** A call that returns has left its loop. *)
Lemma sjf_schedule_returned o :
  returned (sjf_schedule key processes) = Some o ->
  exists fuel st',
    sjf_loop key fuel (Sort.Slice arrival_less processes)
             (sjf_init (length (Sort.Slice arrival_less processes)))
    = Some (inl st')
    /\ out_gantt o = s_gantt st' /\ out_schedule o = s_schedule st'.
Proof.
  unfold returned, sjf_schedule. cbn [call_outcome].
  set (sorted := Sort.Slice arrival_less processes).
  destruct (sjf_loop key (2 * length sorted) sorted (sjf_init (length sorted)))
    as [[st'|st']|] eqn:Hloop; try discriminate.
  intros [= <-]. exists (2 * length sorted)%nat, st'.
  split; [exact Hloop|]. split; reflexivity.
Qed.

Lemma sjf_schedule_trace o :
  returned (sjf_schedule key processes) = Some o ->
  exists ran left t_end,
    Forall2 runs (out_gantt o) ran
    /\ contiguous 0 (out_gantt o) t_end
    /\ ran ++ left ≡ₚ processes.
Proof.
  intros Hret.
  destruct (sjf_schedule_returned o Hret) as (fuel & st' & Hloop & -> & _).
  destruct (SJFTraceFacts.sjf_loop_trace key _ fuel st' Hloop)
    as (ran & left & Hruns & Hchain & Hperm & _).
  exists ran, left, (s_serviceTime st').
  rewrite SortFacts.Slice_perm in Hperm. auto.
Qed.

Lemma sjf_schedule_order o :
  returned (sjf_schedule key processes) = Some o ->
  exists ran,
    Forall2 runs (out_gantt o) ran
    /\ ran ⊆ processes
    /\ shortest_first key (out_gantt o) ran.
Proof.
  intros Hret.
  destruct (sjf_schedule_returned o Hret) as (fuel & st' & Hloop & -> & _).
  destruct (SJFOrderFacts.sjf_loop_order key _
              (Slice_arrival_sorted processes) fuel st' Hloop)
    as (ran & left & Hruns & Hperm & Horder).
  exists ran. split; [exact Hruns|]. split; [|exact Horder].
  intros q Hq. rewrite <- (SortFacts.Slice_perm arrival_less processes).
  rewrite <- Hperm. apply elem_of_app. left. exact Hq.
Qed.

End Schedule.
End SJFScheduleFacts.

(** ** The key of the priority scheduler in the ready queue *)

Module PriorityKeyFacts.



End PriorityKeyFacts.



(** X10. The chart of [SJFSchedule] and of [SJFPrioritySchedule] is
    contiguous: when the call returns, the first interval starts at time
    0 and every other one starts when the one before it stops. The
    processor never idles in the chart, and the intervals never overlap. *)
Theorem sjf_contiguous (processes : list Process) :
  (forall o, returned (SJFSchedule processes) = Some o ->
             exists t_end, contiguous 0 (out_gantt o) t_end)
  /\ (forall o, returned (SJFPrioritySchedule processes) = Some o ->
                exists t_end, contiguous 0 (out_gantt o) t_end).
Proof.
  split; intros o Hret;
    destruct (SJFScheduleFacts.sjf_schedule_trace _ processes o Hret)
      as (_ & _ & t_end & _ & Hchain & _);
    exists t_end; exact Hchain.
Qed.

Lemma sjf_contiguous_witness :
  exists o t_end,
    returned (SJFSchedule batch_round_robin) = Some o
    /\ contiguous 0 (out_gantt o) t_end.
Proof.
  destruct (returned (SJFSchedule batch_round_robin)) as [o|] eqn:Hret;
    [|vm_compute in Hret; discriminate Hret].
  destruct (proj1 (sjf_contiguous batch_round_robin) o Hret) as [t_end Hchain].
  exists o, t_end. split; [reflexivity|exact Hchain].
Defined.

(** X11. [SJFSchedule] and [SJFPrioritySchedule] are not preemptive and
    run no process twice: when the call returns, every interval of the
    chart is the whole burst of one process of the batch, and the
    processes that ran, together with some processes that did not (those
    left in the ready queue when the last process was admitted), are the
    batch. *)
Theorem sjf_runs_once (processes : list Process) :
  (forall o, returned (SJFSchedule processes) = Some o ->
             exists ran left,
               Forall2 runs (out_gantt o) ran /\ ran ++ left ≡ₚ processes)
  /\ (forall o, returned (SJFPrioritySchedule processes) = Some o ->
                exists ran left,
                  Forall2 runs (out_gantt o) ran /\ ran ++ left ≡ₚ processes).
Proof.
  split; intros o Hret;
    destruct (SJFScheduleFacts.sjf_schedule_trace _ processes o Hret)
      as (ran & left & _ & Hruns & _ & Hperm);
    exists ran, left; split; assumption.
Qed.

Lemma sjf_runs_once_witness :
  exists o ran left,
    returned (SJFSchedule batch_round_robin) = Some o
    /\ Forall2 runs (out_gantt o) ran /\ ran ++ left ≡ₚ batch_round_robin.
Proof.
  destruct (returned (SJFSchedule batch_round_robin)) as [o|] eqn:Hret;
    [|vm_compute in Hret; discriminate Hret].
  destruct (proj1 (sjf_runs_once batch_round_robin) o Hret)
    as (ran & left & Hruns & Hperm).
  exists o, ran, left. split; [reflexivity|]. split; assumption.
Defined.

(** X12. Shortest job first: when [SJFSchedule] returns, a process that
    runs after another one either has a burst that is not shorter, or had
    not arrived when the other one started. [SJFPrioritySchedule] does the
    same with its key, the integer part of the inverse of the burst. *)
Theorem sjf_shortest_first (processes : list Process) :
  (forall o, returned (SJFSchedule processes) = Some o ->
             exists ran,
               Forall2 runs (out_gantt o) ran /\ ran ⊆ processes
               /\ shortest_first BurstDuration (out_gantt o) ran)
  /\ (forall o, returned (SJFPrioritySchedule processes) = Some o ->
                exists ran,
                  Forall2 runs (out_gantt o) ran /\ ran ⊆ processes
                  /\ shortest_first inverse_burst_key (out_gantt o) ran).
Proof.
  split; intros o Hret.
  - exact (SJFScheduleFacts.sjf_schedule_order burst_key processes o Hret).
  - exact (SJFScheduleFacts.sjf_schedule_order inverse_burst_key processes o
             Hret).
Qed.

Lemma sjf_shortest_first_witness :
  exists o ran,
    returned (SJFSchedule batch_round_robin) = Some o
    /\ Forall2 runs (out_gantt o) ran /\ ran ⊆ batch_round_robin
    /\ shortest_first BurstDuration (out_gantt o) ran.
Proof.
  destruct (returned (SJFSchedule batch_round_robin)) as [o|] eqn:Hret;
    [|vm_compute in Hret; discriminate Hret].
  destruct (proj1 (sjf_shortest_first batch_round_robin) o Hret)
    as (ran & Hruns & Hsub & Horder).
  exists o, ran. split; [reflexivity|]. repeat split; assumption.
Defined.

(** ** A batch that has all arrived at time 0 *)

Module ArrivedFacts.

Lemma Pop_nonempty (h : list PriorityProcess) :
  h <> [] -> exists x h', Heap.Pop h = Some (x, h').
Proof.
  intros Hne. unfold Heap.Pop, PriorityQueue.Len, PriorityQueue.Pop.
  destruct (length h) as [|n] eqn:Hlen; [destruct h; [congruence|discriminate]|].
  set (h1 := Heap.down (PriorityQueue.Swap h 0 n) 0 n).
  assert (Hlen1 : length h1 = S n).
  { subst h1. unfold Heap.down.
    rewrite (Permutation_length (HeapFacts.down_loop_perm _ _ _ _)).
    rewrite (Permutation_length (HeapFacts.queue_Swap_perm _ _ _)).
    exact Hlen. }
  destruct (last h1) as [item|] eqn:Hlast; [eauto|].
  apply last_None in Hlast. rewrite Hlast in Hlen1. discriminate.
Qed.

Section Arrived.
Variable key : Process -> Z.
Variable processes : list Process.
Hypothesis some_process : processes <> [].
Hypothesis all_arrived : Forall (fun p => ArrivalTime p <= 0) processes.

Lemma sjf_schedule_all_arrived :
  exists p o,
    call_outcome (sjf_schedule key processes) = Done o
    /\ p ∈ processes
    /\ (forall q, q ∈ processes -> key p <= key q)
    /\ out_gantt o
       = [mkTimeSlice (ProcessID p) 0 (Int64.add 0 (BurstDuration p))]
    /\ exists r,
         out_schedule o
         = <[(length processes - 1)%nat := Some r]>
             (make_schedule (length processes))
         /\ row_of_process p r /\ row_wait r = Int64.sub 0 (ArrivalTime p).
Proof.
  unfold sjf_schedule. cbn [call_outcome].
  pose proof (SortFacts.Slice_perm arrival_less processes) as Hperm.
  set (sorted := Sort.Slice arrival_less processes) in *.
  assert (Hlen : length sorted = length processes)
    by exact (Permutation_length Hperm).
  assert (Hn : (0 < length sorted)%nat).
  { rewrite Hlen. destruct processes; [congruence|cbn [length]; lia]. }
  destruct (2 * length sorted)%nat as [|fuel] eqn:Hfuel; [lia|].
  rewrite sjf_loop_unfold. cbn [sjf_init s_processCounter].
  replace (0 <? length sorted)%nat with true
    by (symmetry; apply Nat.ltb_lt; exact Hn).
  unfold sjf_body.
  cbn [sjf_init s_serviceTime s_readyQueue s_processCounter s_schedule
       s_gantt s_totalWait s_totalTurnaround].
  change (Heap.Init []) with (@nil PriorityProcess).
  rewrite Nat.sub_0_r.
  destruct (sjf_admit key sorted 0 (length sorted) [] 0)
    as [queue' pc'] eqn:Hadm.
  destruct (SJFOrderFacts.sjf_admit_heap key sorted 0 _ _ _ _ _ Hadm)
    as [Hheap Hkeyed].
  { intros i j x y _ Hx. discriminate Hx. }
  { constructor. }
  apply SJFTraceFacts.sjf_admit_perm in Hadm
    as (Hpc' & Hadmitted & _ & _ & Hnext); [|lia].
  assert (pc' = length sorted) as ->.
  { destruct (decide (pc' = length sorted)) as [E|E]; [exact E|exfalso].
    destruct (lookup_lt_is_Some_2 sorted pc') as [p Hp]; [lia|].
    specialize (Hnext p Hp).
    assert (Hin : p ∈ processes)
      by (rewrite <- Hperm; exact (list_elem_of_lookup_2 _ _ _ Hp)).
    pose proof (proj1 (Forall_forall _ _) all_arrived p Hin) as Hle.
    cbv beta in Hle. lia. }
  cbn [map app] in Hadmitted. rewrite drop_0, firstn_all in Hadmitted.
  destruct (Pop_nonempty queue') as (current & queue'' & Hpop).
  { intros ->. cbn [map] in Hadmitted. apply Permutation_nil in Hadmitted.
    rewrite Hadmitted in Hn. cbn in Hn. lia. }
  rewrite Hpop.
  destruct (HeapOrderFacts.Pop_heap _ _ _ Hheap Hpop) as [_ Hmin].
  pose proof (HeapFacts.Pop_perm _ _ _ Hpop) as Hpopped.
  unfold store_row, make_schedule. rewrite length_replicate.
  replace ((0 <=? Z.of_nat (length sorted) - 1)
           && (Z.of_nat (length sorted) - 1 <? Z.of_nat (length sorted)))
    with true
    by (symmetry; apply andb_true_intro; split;
        [apply Z.leb_le|apply Z.ltb_lt]; lia).
  rewrite sjf_loop_unfold. cbn [s_processCounter].
  rewrite Nat.ltb_irrefl.
  assert (Hcurrent : pp_Process current ∈ processes).
  { rewrite <- Hperm, <- Hadmitted.
    rewrite (Permutation_map pp_Process Hpopped). cbn [map].
    apply elem_of_cons. left. reflexivity. }
  exists (pp_Process current). eexists. split; [reflexivity|].
  split; [exact Hcurrent|]. split; [|split].
  - intros q Hq. rewrite <- Hperm, <- Hadmitted in Hq.
    apply list_elem_of_fmap in Hq as (y & -> & Hy).
    pose proof (proj1 (Forall_forall _ _) Hmin y Hy) as Hle.
    pose proof (proj1 (Forall_forall _ _) Hkeyed y Hy) as Hky.
    assert (Hc : current ∈ queue')
      by (rewrite Hpopped; apply elem_of_cons; left; reflexivity).
    pose proof (proj1 (Forall_forall _ _) Hkeyed current Hc) as Hkc.
    cbv beta in *. lia.
  - cbn [out_gantt averages s_gantt app].
    rewrite TraceFacts.start_is_clock
      by (unfold Int64.in_range, Int64.min_int, Int64.max_int; lia).
    reflexivity.
  - cbn [out_schedule averages s_schedule]. eexists. split.
    + rewrite Hlen.
      replace (Z.to_nat (Z.of_nat (length processes) - 1))
        with (length processes - 1)%nat by lia.
      reflexivity.
    + split; [repeat split|reflexivity].
Qed.

End Arrived.
End ArrivedFacts.

(** X13. On a batch whose processes have all arrived at time 0 (no arrival
    time is positive), [SJFSchedule] and [SJFPrioritySchedule] run one
    process: the first iteration admits the whole batch, and the loop ends
    when every process has been admitted. The chart has the one interval
    of a process of least key, from time 0, the last row of the table is
    its row, and the other rows stay empty. The call then returns, unless
    the id of that process has ten bytes or more: [outputGantt] then
    panics. *)
Theorem sjf_all_arrived (processes : list Process) :
  processes <> [] ->
  Forall (fun p => ArrivalTime p <= 0) processes ->
  let one_run key call :=
    exists p o,
      call_outcome call = Done o
      /\ p ∈ processes
      /\ (forall q, q ∈ processes -> key p <= key q)
      /\ out_gantt o
         = [mkTimeSlice (ProcessID p) 0 (Int64.add 0 (BurstDuration p))]
      /\ (exists r,
            out_schedule o
            = <[(length processes - 1)%nat := Some r]>
                (make_schedule (length processes))
            /\ row_of_process p r
            /\ row_wait r = Int64.sub 0 (ArrivalTime p))
      /\ forall outputSchedule w title,
           (scheduler outputSchedule w title call = Some Panics
            <-> wide_id p)
           /\ (~ wide_id p ->
               exists out,
                 scheduler outputSchedule w title call
                 = Some (Returns out)) in
  one_run BurstDuration (SJFSchedule processes)
  /\ one_run inverse_burst_key (SJFPrioritySchedule processes).
Proof.
  intros Hsome Harrived. cbv zeta.
  assert (Hrun : forall key,
            exists p o,
              call_outcome (sjf_schedule key processes) = Done o
              /\ p ∈ processes
              /\ (forall q, q ∈ processes -> key p <= key q)
              /\ out_gantt o
                 = [mkTimeSlice (ProcessID p) 0
                                (Int64.add 0 (BurstDuration p))]
              /\ (exists r,
                    out_schedule o
                    = <[(length processes - 1)%nat := Some r]>
                        (make_schedule (length processes))
                    /\ row_of_process p r
                    /\ row_wait r = Int64.sub 0 (ArrivalTime p))
              /\ forall outputSchedule w title,
                   (scheduler outputSchedule w title
                              (sjf_schedule key processes) = Some Panics
                    <-> wide_id p)
                   /\ (~ wide_id p ->
                       exists out,
                         scheduler outputSchedule w title
                                   (sjf_schedule key processes)
                         = Some (Returns out))).
  { intros key.
    destruct (ArrivedFacts.sjf_schedule_all_arrived key processes
                Hsome Harrived)
      as (p & o & Hdone & Hp & Hleast & Hchart & Hrows).
    exists p, o. repeat (split; [assumption|]).
    intros outputSchedule w title.
    destruct (OutputFacts.scheduler_done outputSchedule w title _ o Hdone)
      as [Hpanic Hreturn].
    rewrite Hchart in Hpanic, Hreturn.
    assert (Hwide : Exists wide_pid
                      [mkTimeSlice (ProcessID p) 0
                                   (Int64.add 0 (BurstDuration p))]
                    <-> wide_id p).
    { rewrite Exists_cons, Exists_nil. unfold wide_pid, wide_id.
      cbn [PID]. tauto. }
    rewrite Hwide in Hpanic, Hreturn. split; assumption. }
  split; [exact (Hrun burst_key)|exact (Hrun inverse_burst_key)].
Qed.

Lemma sjf_all_arrived_witness :
  exists p o,
    call_outcome (SJFSchedule batch_two_at_zero) = Done o
    /\ p ∈ batch_two_at_zero
    /\ (forall q, q ∈ batch_two_at_zero -> BurstDuration p <= BurstDuration q)
    /\ out_gantt o
       = [mkTimeSlice (ProcessID p) 0 (Int64.add 0 (BurstDuration p))]
    /\ (exists r,
          out_schedule o
          = <[(length batch_two_at_zero - 1)%nat := Some r]>
              (make_schedule (length batch_two_at_zero))
          /\ row_of_process p r
          /\ row_wait r = Int64.sub 0 (ArrivalTime p))
    /\ forall outputSchedule w title,
         (scheduler outputSchedule w title (SJFSchedule batch_two_at_zero)
          = Some Panics
          <-> wide_id p)
         /\ (~ wide_id p ->
             exists out,
               scheduler outputSchedule w title
                         (SJFSchedule batch_two_at_zero)
               = Some (Returns out)).
Proof.
  apply (sjf_all_arrived batch_two_at_zero).
  - discriminate.
  - repeat constructor; vm_compute; intros H; discriminate H.
Defined.

(** ** The ready queue *)

(** X14. The ready queue is a heap on the priority values: [heap.Init]
    leaves the empty queue in heap order, [heap.Push] keeps a queue in
    heap order, and [heap.Pop] takes from it an entry of least priority
    value and leaves the other entries, in heap order. *)
Theorem ready_queue_heap :
  heap_ordered (Heap.Init [])
  /\ (forall h x, heap_ordered h -> heap_ordered (Heap.Push h x))
  /\ (forall h x h',
        heap_ordered h -> Heap.Pop h = Some (x, h') ->
        heap_ordered h'
        /\ Forall (fun y => pp_Priority x <= pp_Priority y) h
        /\ h ≡ₚ x :: h').
Proof.
  split; [intros i j x y _ Hx; discriminate Hx|]. split.
  - intros h x. apply HeapOrderFacts.Push_heap.
  - intros h x h' Hheap Hpop.
    destruct (HeapOrderFacts.Pop_heap h x h' Hheap Hpop) as [Hheap' Hmin].
    split; [exact Hheap'|]. split; [exact Hmin|].
    exact (HeapFacts.Pop_perm h x h' Hpop).
Qed.

Lemma ready_queue_heap_witness :
  heap_ordered (Heap.Push (Heap.Init []) (mkPriorityProcess (mkProcess 1 0 5 0) 5)).
Proof.
  apply (proj1 (proj2 ready_queue_heap)).
  exact (proj1 ready_queue_heap).
Defined.

(** X15. The methods [Push] and [Pop] of [PriorityQueue] work at the end
    of the slice: [Pop] after [Push] returns the entry pushed and the
    queue as it was, and [Len] counts the entries. [Pop] on the empty
    queue indexes out of range. *)
Theorem queue_push_pop (pq : PriorityQueue.t) (item : PriorityProcess) :
  PriorityQueue.Pop (PriorityQueue.Push pq item) = Some (item, pq)
  /\ PriorityQueue.Len (PriorityQueue.Push pq item) = S (PriorityQueue.Len pq)
  /\ PriorityQueue.Pop [] = None.
Proof.
  unfold PriorityQueue.Pop, PriorityQueue.Push, PriorityQueue.Len.
  rewrite last_snoc, removelast_last, length_app. cbn [length].
  split; [reflexivity|]. split; [lia|reflexivity].
Qed.

(** ** The trace of round-robin *)

Module RRTraceFacts.
Section Trace.
Variable processes : list Process.

(** A property that the body keeps holds when the loop is left. *)
Lemma rr_loop_keeps (I : RRState -> Prop) :
  (forall st st',
     I st -> rr_pending processes st <> [] ->
     rr_body processes st = Some st' -> I st') ->
  forall fuel st st',
    I st -> (r_processCounter st <= length processes)%nat ->
    rr_loop fuel processes st = Some (inl st') -> I st'.
Proof.
  intros Hbody. induction fuel as [|fuel IH]; intros st st' Hst Hpc;
    rewrite rr_loop_unfold;
    destruct ((0 <? length (r_queue st))%nat
              || (r_processCounter st <? length processes)%nat) eqn:Hcond;
    try (intros [= <-]; exact Hst); try discriminate.
  destruct (rr_body processes st) as [st1|] eqn:Hst1; [|discriminate].
  assert (Hpending : rr_pending processes st <> []).
  { unfold rr_pending. apply orb_true_iff in Hcond as [Hq|Hp].
    - apply Nat.ltb_lt in Hq. destruct (r_queue st); [cbn in Hq; lia|discriminate].
    - apply Nat.ltb_lt in Hp. intros Hnil.
      apply (f_equal length) in Hnil.
      rewrite length_app, length_drop in Hnil. cbn [length] in Hnil. lia. }
  apply IH; [exact (Hbody st st1 Hst Hpending Hst1)|].
  revert Hst1. unfold rr_body.
  destruct (rr_admit processes (r_serviceTime st)
              (length processes - r_processCounter st)
              (r_queue st) (r_processCounter st)) as [queue' pc'] eqn:Hadm.
  apply rr_admit_spec in Hadm as (_ & Hpc' & _); [|lia].
  destruct queue' as [|current rest].
  - intros [= <-]. cbn. lia.
  - unfold rr_dispatch. destruct (store_row _ _ _); [|discriminate].
    intros [= <-]. cbn. lia.
Qed.

(** The processes that the admission loop takes have arrived. *)
Lemma rr_admit_arrived t : forall todo queue pc queue' pc',
  (todo + pc = length processes)%nat ->
  rr_admit processes t todo queue pc = (queue', pc') ->
  Forall (fun p => ArrivalTime p <= t) (take (pc' - pc) (drop pc processes)).
Proof.
  induction todo as [|todo IH]; intros queue pc queue' pc' Hn Hadm.
  - injection Hadm as <- <-. rewrite Nat.sub_diag. constructor.
  - pose proof Hadm as Hadm'. cbn [rr_admit] in Hadm.
    destruct (lookup_lt_is_Some_2 processes pc) as [p Hp]; [lia|].
    rewrite Hp in Hadm.
    destruct (Z.leb_spec (ArrivalTime p) t) as [Hle|Hgt];
      [|injection Hadm as <- <-; rewrite Nat.sub_diag; constructor].
    pose proof (rr_admit_spec processes t todo (queue ++ [p]) (S pc) queue' pc'
                  ltac:(lia) Hadm) as (_ & Hpc & _).
    apply IH in Hadm; [|lia].
    rewrite (drop_S _ _ _ Hp).
    replace (pc' - pc)%nat with (S (pc' - S pc)) by lia.
    cbn [take]. constructor; assumption.
Qed.

(** What an iteration of the loop does, when it does not panic: the clock
    ticks, or the process at the front of the queue runs for a time
    slice. *)
Lemma rr_body_step st st' :
  (r_processCounter st <= length processes)%nat ->
  rr_body processes st = Some st' ->
  exists queue',
    queue' ++ drop (r_processCounter st') processes = rr_pending processes st
    /\ queue' = r_queue st
                ++ take (r_processCounter st' - r_processCounter st)
                        (drop (r_processCounter st) processes)
    /\ (r_processCounter st <= r_processCounter st' <= length processes)%nat
    /\ Forall (fun p => ArrivalTime p <= r_serviceTime st)
              (take (r_processCounter st' - r_processCounter st)
                    (drop (r_processCounter st) processes))
    /\ (forall p, processes !! r_processCounter st' = Some p ->
                  r_serviceTime st < ArrivalTime p)
    /\ ((queue' = [] /\ r_queue st' = [] /\ r_gantt st' = r_gantt st
         /\ r_serviceTime st' = Int64.add (r_serviceTime st) 1)
        \/ exists current rest,
             queue' = current :: rest
             /\ r_serviceTime st'
                = Int64.add (Int64.max (r_serviceTime st) (ArrivalTime current))
                            (Int64.min quantum (BurstDuration current))
             /\ r_gantt st'
                = r_gantt st
                  ++ [mkTimeSlice (ProcessID current)
                        (Int64.max (r_serviceTime st) (ArrivalTime current))
                        (r_serviceTime st')]
             /\ r_queue st'
                = (if Int64.sub (BurstDuration current)
                                (Int64.min quantum (BurstDuration current)) >? 0
                   then rest ++ [mkProcess (ProcessID current)
                                   (ArrivalTime current)
                                   (Int64.sub (BurstDuration current)
                                      (Int64.min quantum (BurstDuration current)))
                                   (Priority current)]
                   else rest)
             /\ (0 <=? Int64.sub (ProcessID current) 1)
                && (Int64.sub (ProcessID current) 1
                    <? Z.of_nat (length (r_schedule st))) = true).
Proof.
  intros Hpc. unfold rr_body.
  destruct (rr_admit processes (r_serviceTime st)
              (length processes - r_processCounter st)
              (r_queue st) (r_processCounter st)) as [queue' pc'] eqn:Hadm.
  assert (Htodo : (length processes - r_processCounter st + r_processCounter st
                   = length processes)%nat) by lia.
  pose proof (rr_admit_pending _ _ _ _ _ _ _ Htodo Hadm) as Hpending.
  pose proof (rr_admit_arrived _ _ _ _ _ _ Htodo Hadm) as Harrived.
  apply rr_admit_spec in Hadm as (Hqueue & Hpc' & Hnext); [|exact Htodo].
  destruct queue' as [|current rest].
  - intros [= <-]. cbn [r_processCounter r_queue r_gantt r_serviceTime].
    exists []. repeat split; try assumption; try lia. left. auto.
  - unfold rr_dispatch, store_row.
    destruct ((0 <=? Int64.sub (ProcessID current) 1)
              && (Int64.sub (ProcessID current) 1
                  <? Z.of_nat (length (r_schedule st)))) eqn:Hidx;
      [|discriminate].
    intros [= <-]. cbn [r_processCounter r_queue r_gantt r_serviceTime].
    exists (current :: rest). repeat split; try assumption; try lia.
    right. exists current, rest.
    split; [reflexivity|]. split; [reflexivity|]. split; [reflexivity|].
    split; [reflexivity|exact Hidx].
Qed.

(** The invariant of the loop, after an iteration. *)
Lemma rr_body_inv st st' :
  Forall valid_process processes ->
  rr_inv processes st -> rr_pending processes st <> [] ->
  rr_body processes st = Some st' -> rr_inv processes st'.
Proof.
  intros Hvalid Hinv Hpending Hbody.
  destruct (rr_body_progress processes st Hvalid Hinv Hpending)
    as [Hnone|(st1 & Hst1 & Hinv1 & _)]; [congruence|].
  congruence.
Qed.

Lemma work_of_app id l1 l2 :
  work_of id (l1 ++ l2) = (work_of id l1 + work_of id l2)%nat.
Proof. unfold work_of. rewrite List.filter_app. apply dispatches_app. Qed.

Lemma work_of_cons id p l :
  work_of id (p :: l)
  = ((if (ProcessID p =? id)%Z then dispatches_of p else 0) + work_of id l)%nat.
Proof.
  unfold work_of. cbn [List.filter]. destruct (ProcessID p =? id); reflexivity.
Qed.

Lemma slices_of_snoc id gantt ts :
  slices_of id (gantt ++ [ts])
  = (slices_of id gantt + (if (PID ts =? id)%Z then 1 else 0))%nat.
Proof.
  unfold slices_of. rewrite List.filter_app, length_app. cbn [List.filter].
  destruct (PID ts =? id); reflexivity.
Qed.

(** The dispatches that a process needs, after one of them. *)
Lemma dispatches_after (p : Process) :
  valid_process p ->
  let remaining :=
    Int64.sub (BurstDuration p) (Int64.min quantum (BurstDuration p)) in
  dispatches_of p
  = S (if remaining >? 0
       then dispatches_of (mkProcess (ProcessID p) (ArrivalTime p) remaining
                                     (Priority p))
       else 0).
Proof.
  intros (_ & _ & Hburst & _). cbv zeta.
  unfold dispatches_of, Int64.min, quantum, Int64.sub. cbn [BurstDuration].
  unfold Int64.in_range, Int64.min_int, Int64.max_int in Hburst.
  destruct (Z.ltb_spec 1 (BurstDuration p)) as [Hlong|Hshort].
  - rewrite Int64Facts.wrap_small
      by (unfold Int64.in_range, Int64.min_int, Int64.max_int; lia).
    destruct (Z.gtb_spec (BurstDuration p - 1) 0); lia.
  - replace (BurstDuration p - BurstDuration p) with 0 by lia.
    change (Int64.wrap 0 >? 0) with false. cbv iota. lia.
Qed.

Lemma rr_body_count id st st' :
  Forall valid_process processes ->
  rr_count processes id st -> rr_pending processes st <> [] ->
  rr_body processes st = Some st' -> rr_count processes id st'.
Proof.
  intros Hvalid [Hinv Hcount] Hpending Hbody.
  split; [exact (rr_body_inv st st' Hvalid Hinv Hpending Hbody)|].
  destruct (rr_body_step st st' (inv_counter _ _ Hinv) Hbody)
    as (queue' & Hpend & Hqueue & _ & _ & _ & Hstep).
  rewrite <- Hcount, <- Hpend. unfold rr_pending.
  destruct Hstep as [(-> & -> & -> & _)
                    |(current & rest & -> & _ & -> & -> & _)];
    [reflexivity|].
  assert (Hcurrent : valid_process current).
  { assert (Hall : Forall valid_process
                     (r_queue st
                      ++ take (r_processCounter st' - r_processCounter st)
                              (drop (r_processCounter st) processes))).
    { apply Forall_app. split; [exact (inv_queue _ _ Hinv)|].
      apply Forall_take, Forall_drop, Hvalid. }
    rewrite <- Hqueue in Hall. exact (Forall_inv Hall). }
  pose proof (dispatches_after current Hcurrent) as Hafter. cbv zeta in Hafter.
  rewrite slices_of_snoc. cbn [PID app]. rewrite work_of_cons.
  destruct (Int64.sub (BurstDuration current)
              (Int64.min quantum (BurstDuration current)) >? 0).
  - rewrite <- app_assoc, !work_of_app, work_of_cons. cbn [ProcessID].
    destruct (ProcessID current =? id); cbn [work_of dispatches List.filter];
      lia.
  - rewrite !work_of_app. destruct (ProcessID current =? id); lia.
Qed.

(** The count of the dispatches of a call that returns. *)
Lemma rr_schedule_count fuel id o :
  Forall valid_process processes ->
  returned (RRSchedule fuel processes) = Some o ->
  slices_of id (out_gantt o) = work_of id processes.
Proof.
  intros Hvalid. unfold returned, RRSchedule. cbn [call_outcome].
  destruct (rr_loop fuel processes (rr_init (length processes)))
    as [[st'|st']|] eqn:Hloop; try discriminate.
  intros [= <-]. cbn [out_gantt averages].
  destruct (rr_loop_keeps (rr_count processes id))
    with (fuel := fuel) (st := rr_init (length processes)) (st' := st')
    as [Hinv Hcount].
  - intros st st1 Hst Hpending Hbody.
    exact (rr_body_count id st st1 Hvalid Hst Hpending Hbody).
  - split; [apply rr_init_inv|]. unfold rr_pending. cbn. reflexivity.
  - cbn. lia.
  - exact Hloop.
  - assert (Hend : rr_pending processes st' = []).
    { revert Hloop. clear. revert st'.
      generalize (rr_init (length processes)) as st.
      induction fuel as [|fuel IH]; intros st st';
        rewrite rr_loop_unfold;
        destruct ((0 <? length (r_queue st))%nat
                  || (r_processCounter st <? length processes)%nat) eqn:Hcond;
        try discriminate.
      - intros [= <-]. apply orb_false_iff in Hcond as [Hq Hp].
        apply Nat.ltb_ge in Hq, Hp. unfold rr_pending.
        destruct (r_queue st); [|cbn in Hq; lia].
        rewrite drop_ge by lia. reflexivity.
      - destruct (rr_body processes st); [apply IH|discriminate].
      - intros [= <-]. apply orb_false_iff in Hcond as [Hq Hp].
        apply Nat.ltb_ge in Hq, Hp. unfold rr_pending.
        destruct (r_queue st); [|cbn in Hq; lia].
        rewrite drop_ge by lia. reflexivity. }
    rewrite Hend in Hcount. cbn in Hcount. lia.
Qed.

End Trace.
End RRTraceFacts.

(** X16. Round-robin serves every burst in full: when [RRSchedule] returns
    on a batch of [int64] descriptors, the number of intervals of the
    chart that show an id is the sum, over the processes of the batch with
    that id, of their bursts, a burst that is not positive counting for
    one dispatch. *)
Theorem rr_serves_every_burst (processes : list Process) :
  Forall valid_process processes ->
  forall fuel o id,
    returned (RRSchedule fuel processes) = Some o ->
    slices_of id (out_gantt o) = work_of id processes.
Proof.
  intros Hvalid fuel o id Hret.
  exact (RRTraceFacts.rr_schedule_count processes fuel id o Hvalid Hret).
Qed.

Lemma rr_serves_every_burst_witness :
  exists o,
    returned (RRSchedule 5 batch_round_robin) = Some o
    /\ slices_of 1 (out_gantt o) = work_of 1 batch_round_robin.
Proof.
  destruct (returned (RRSchedule 5 batch_round_robin)) as [o|] eqn:Hret;
    [|vm_compute in Hret; discriminate Hret].
  exists o. split; [reflexivity|].
  refine (rr_serves_every_burst batch_round_robin _ 5%nat o 1 Hret).
  repeat constructor; vm_compute; intros H; discriminate H.
Defined.

(** ** Round-robin returns when the ids fit the table *)

Module RRReturnFacts.
Section Returns.
Variable processes : list Process.
Hypothesis valid : Forall valid_process processes.

Lemma rr_init_ids :
  Forall (id_inside (length processes)) processes ->
  rr_ids processes (rr_init (length processes)).
Proof.
  intros Hids. split; [apply rr_init_inv|]. unfold rr_pending. cbn.
  exact Hids.
Qed.

Lemma queue_valid st queue' a :
  rr_inv processes st ->
  queue' = r_queue st ++ take a (drop (r_processCounter st) processes) ->
  Forall valid_process queue'.
Proof.
  intros Hinv ->. apply Forall_app. split; [exact (inv_queue _ _ Hinv)|].
  apply Forall_take, Forall_drop, valid.
Qed.

Lemma rr_body_ids st :
  rr_ids processes st -> rr_pending processes st <> [] ->
  exists st', rr_body processes st = Some st' /\ rr_ids processes st'.
Proof.
  intros [Hinv Hids] Hpending.
  assert (Hsome : exists st', rr_body processes st = Some st').
  { unfold rr_body.
    destruct (rr_admit processes (r_serviceTime st)
                (length processes - r_processCounter st)
                (r_queue st) (r_processCounter st)) as [queue' pc'] eqn:Hadm.
    assert (Htodo : (length processes - r_processCounter st
                     + r_processCounter st = length processes)%nat)
      by (pose proof (inv_counter _ _ Hinv); lia).
    pose proof (rr_admit_pending _ _ _ _ _ _ _ Htodo Hadm) as Hpend.
    apply rr_admit_spec in Hadm as (Hqueue & _ & _); [|exact Htodo].
    destruct queue' as [|current rest]; [eauto|].
    pose proof (queue_valid st _ _ Hinv Hqueue) as Hvalid'.
    apply Forall_inv in Hvalid' as (Hid & _).
    fold (rr_pending processes st) in Hpend. rewrite <- Hpend in Hids.
    apply Forall_inv in Hids as Hinside. unfold id_inside in Hinside.
    unfold rr_dispatch, store_row. rewrite (inv_schedule _ _ Hinv).
    unfold Int64.sub. rewrite Int64Facts.wrap_small
      by (unfold Int64.in_range, Int64.min_int, Int64.max_int in *; lia).
    destruct (Z.leb_spec 0 (ProcessID current - 1)); [|lia].
    destruct (Z.ltb_spec (ProcessID current - 1)
                (Z.of_nat (length processes))); [|lia].
    cbn [andb]. eauto. }
  destruct Hsome as [st' Hbody]. exists st'. split; [exact Hbody|].
  split; [exact (RRTraceFacts.rr_body_inv processes st st' valid Hinv
                   Hpending Hbody)|].
  destruct (RRTraceFacts.rr_body_step processes st st'
              (inv_counter _ _ Hinv) Hbody)
    as (queue' & Hpend & _ & _ & _ & _ & Hstep).
  rewrite <- Hpend in Hids. unfold rr_pending.
  destruct Hstep as [(-> & -> & _)|(current & rest & -> & _ & _ & -> & _)];
    [exact Hids|].
  cbn [app] in Hids. apply Forall_cons in Hids as [Hcurrent Hrest].
  destruct (_ >? 0); [|exact Hrest].
  rewrite <- app_assoc. apply Forall_app in Hrest as [Hrest Hlater].
  apply Forall_app. split; [exact Hrest|].
  cbn [app]. constructor; [exact Hcurrent|exact Hlater].
Qed.

Lemma rr_loop_ids : forall fuel st,
  rr_ids processes st -> rr_loop fuel processes st <> None.
Proof.
  induction fuel as [|fuel IH]; intros st Hids; rewrite rr_loop_unfold;
    destruct ((0 <? length (r_queue st))%nat
              || (r_processCounter st <? length processes)%nat) eqn:Hcond;
    try discriminate.
  assert (Hpending : rr_pending processes st <> []).
  { unfold rr_pending. apply orb_true_iff in Hcond as [Hq|Hp].
    - apply Nat.ltb_lt in Hq.
      destruct (r_queue st); [cbn in Hq; lia|discriminate].
    - apply Nat.ltb_lt in Hp. intros Hnil. apply (f_equal length) in Hnil.
      rewrite length_app, length_drop in Hnil. cbn [length] in Hnil. lia. }
  destruct (rr_body_ids st Hids Hpending) as (st' & -> & Hids').
  apply IH, Hids'.
Qed.

Lemma rr_schedule_returns :
  Forall (id_inside (length processes)) processes ->
  exists fuel o, forall fuel',
    (fuel <= fuel')%nat -> call_outcome (RRSchedule fuel' processes) = Done o.
Proof.
  intros Hids.
  destruct (rr_loop_ends processes valid
              (dispatches (rr_pending processes (rr_init (length processes))))
              (clock_room (rr_init (length processes)))
              (rr_init (length processes)))
    as (fuel & Hfuel & _); auto using rr_init_inv.
  pose proof (rr_loop_ids fuel _ (rr_init_ids Hids)) as Hsome.
  destruct (rr_loop fuel processes (rr_init (length processes)))
    as [[st'|st']|] eqn:Hloop; [| |congruence].
  - exists fuel. eexists. intros fuel' Hle. unfold RRSchedule.
    cbn [call_outcome].
    rewrite (rr_loop_mono processes fuel fuel' _ Hle); rewrite Hloop;
      [reflexivity|].
    intros [s Hs]. discriminate Hs.
  - exfalso. apply Hfuel. eexists. reflexivity.
Qed.

End Returns.
End RRReturnFacts.

(** X17. On a batch of [int64] descriptors whose ids are all between 1 and
    the number of processes, [RRSchedule] returns: it does not panic, and
    its loop ends, after as many idle ticks of the clock as the arrival
    times ask for. *)
Theorem rr_returns (processes : list Process) :
  Forall valid_process processes ->
  Forall (id_inside (length processes)) processes ->
  exists fuel o, forall fuel',
    (fuel <= fuel')%nat -> call_outcome (RRSchedule fuel' processes) = Done o.
Proof. exact (RRReturnFacts.rr_schedule_returns processes). Qed.

Lemma rr_returns_witness :
  exists fuel o, forall fuel',
    (fuel <= fuel')%nat ->
    call_outcome (RRSchedule fuel' batch_late_arrival) = Done o.
Proof.
  apply (rr_returns batch_late_arrival);
    repeat constructor; vm_compute; intros H; discriminate H.
Defined.

(** ** The clock of round-robin *)

Module RRTimingFacts.
Section Timing.
Variable processes : list Process.
Variable A : Z.
Hypothesis valid : Forall valid_process processes.
Hypothesis positive_bursts : Forall (fun p => 1 <= BurstDuration p) processes.
Hypothesis arrivals : Forall (fun p => 0 <= ArrivalTime p <= A) processes.
Hypothesis no_overflow :
  A + Z.of_nat (dispatches processes) <= Int64.max_int.
Hypothesis bound : 0 <= A.

Lemma in_time_order_snoc gantt ts t :
  in_time_order gantt -> Forall (fun x => Stop x <= t) gantt ->
  t <= Start ts -> in_time_order (gantt ++ [ts]).
Proof.
  intros Horder Hbefore Hstart k x y Hx Hy.
  assert (Hk : (S k < length (gantt ++ [ts]))%nat)
    by (apply lookup_lt_Some in Hy; exact Hy).
  rewrite length_app in Hk. cbn [length] in Hk.
  rewrite lookup_app_l in Hx by lia.
  destruct (decide (S k < length gantt)%nat) as [Hold|Hnew].
  - rewrite lookup_app_l in Hy by exact Hold. exact (Horder k x y Hx Hy).
  - rewrite list_lookup_middle in Hy by lia. injection Hy as <-.
    pose proof (Forall_lookup_1 _ _ _ _ Hbefore Hx) as Hle.
    cbv beta in Hle. lia.
Qed.

Lemma rr_init_timing : rr_timing processes A (rr_init (length processes)).
Proof.
  unfold rr_timing, rr_pending.
  cbn [rr_init r_serviceTime r_queue r_gantt r_processCounter app].
  rewrite drop_0.
  split; [apply rr_init_inv|]. split; [exact positive_bursts|].
  split; [constructor|]. split; [constructor|]. split; [lia|].
  split; [lia|]. split; [lia|].
  split; [constructor|]. split; [constructor|].
  intros k ts ts' Hts. discriminate Hts.
Qed.

Lemma rr_body_timing st st' :
  rr_timing processes A st -> rr_pending processes st <> [] ->
  rr_body processes st = Some st' -> rr_timing processes A st'.
Proof.
  intros (Hinv & Hbursts & Hqarr & Hcopies & Hclock0 & Hwork & Hroom & Hunits
          & Hstops & Horder) Hpending Hbody.
  pose proof (RRTraceFacts.rr_body_inv processes st st' valid Hinv Hpending
                Hbody) as Hinv'.
  destruct (RRTraceFacts.rr_body_step processes st st'
              (inv_counter _ _ Hinv) Hbody)
    as (queue' & Hpend & Hqueue & Hpc' & Harrived & Hnext & Hstep).
  assert (Hqarr' : Forall (fun q => ArrivalTime q <= r_serviceTime st) queue')
    by (rewrite Hqueue; apply Forall_app; split; assumption).
  assert (Hcopies' : Forall (copy_of processes) queue').
  { rewrite Hqueue. apply Forall_app. split; [exact Hcopies|].
    apply Forall_take, Forall_drop, copy_of_batch. }
  assert (Hvalid' : Forall valid_process queue')
    by exact (RRReturnFacts.queue_valid processes valid st _ _ Hinv Hqueue).
  unfold rr_timing. split; [exact Hinv'|].
  unfold rr_pending in *. rewrite <- Hpend in Hbursts, Hwork, Hroom, Hpending.
  unfold Int64.max_int in no_overflow.
  destruct Hstep as [(-> & -> & -> & ->)
                    |(current & rest & -> & -> & -> & -> & _)].
  - (* the clock ticks *)
    cbn [app] in *.
    destruct (drop (r_processCounter st') processes) as [|p later] eqn:Hdrop;
      [congruence|].
    assert (Hp : processes !! r_processCounter st' = Some p).
    { rewrite <- (Nat.add_0_r (r_processCounter st')), <- lookup_drop, Hdrop.
      reflexivity. }
    pose proof (Hnext p Hp) as Hlate.
    pose proof (Forall_lookup_1 _ _ _ _ arrivals Hp) as Hbound.
    cbv beta in Hbound. rewrite <- Hdrop in *.
    unfold Int64.add.
    rewrite Int64Facts.wrap_small
      by (unfold Int64.in_range, Int64.min_int, Int64.max_int; lia).
    split; [exact Hbursts|]. split; [constructor|]. split; [constructor|].
    split; [lia|]. split; [exact Hwork|]. split; [lia|].
    split; [exact Hunits|]. split; [|exact Horder].
    eapply Forall_impl; [exact Hstops|]. intros ts Hts. cbv beta in *. lia.
  - (* the process at the front of the queue runs *)
    apply Forall_cons in Hqarr' as [Harrival Hqarr'].
    apply Forall_cons in Hcopies' as [Hcopy Hcopies'].
    apply Forall_cons in Hvalid' as [Hcurrent Hvalid'].
    cbn [app] in Hbursts, Hwork, Hroom.
    apply Forall_cons in Hbursts as [Hburst Hbursts].
    pose proof (RRTraceFacts.dispatches_after current Hcurrent) as Hafter.
    cbv zeta in Hafter. cbn [dispatches] in Hwork, Hroom.
    assert (Hstart : Int64.max (r_serviceTime st) (ArrivalTime current)
                     = r_serviceTime st).
    { unfold Int64.max.
      destruct (Z.gtb_spec (r_serviceTime st) (ArrivalTime current)); lia. }
    assert (Hslice : Int64.min quantum (BurstDuration current) = 1).
    { unfold Int64.min, quantum.
      destruct (Z.ltb_spec 1 (BurstDuration current)); lia. }
    rewrite Hstart, Hslice in *.
    assert (Hone : (1 <= dispatches_of current)%nat)
      by (apply dispatches_of_pos).
    assert (Hclock' : Int64.add (r_serviceTime st) 1 = r_serviceTime st + 1).
    { unfold Int64.add. apply Int64Facts.wrap_small.
      unfold Int64.in_range, Int64.min_int, Int64.max_int. lia. }
    rewrite Hclock'.
    assert (Hremaining : Int64.sub (BurstDuration current) 1
                         = BurstDuration current - 1).
    { unfold Int64.sub. apply Int64Facts.wrap_small.
      destruct Hcurrent as (_ & _ & Hb & _).
      unfold Int64.in_range, Int64.min_int, Int64.max_int in *. lia. }
    assert (Hnew : unit_slice processes
                     (mkTimeSlice (ProcessID current) (r_serviceTime st)
                                  (r_serviceTime st + 1))).
    { split; [reflexivity|]. destruct Hcopy as (p & Hp & Hid & Harr & _).
      exists p. cbn [PID Start]. split; [exact Hp|]. split; [congruence|lia]. }
    assert (Hstops' : Forall (fun ts => Stop ts <= r_serviceTime st + 1)
                        (r_gantt st
                         ++ [mkTimeSlice (ProcessID current) (r_serviceTime st)
                                         (r_serviceTime st + 1)])).
    { apply Forall_app. split.
      - eapply Forall_impl; [exact Hstops|]. intros ts Hts. cbv beta in *. lia.
      - constructor; [cbn [Stop]; lia|constructor]. }
    assert (Horder' : in_time_order
                        (r_gantt st
                         ++ [mkTimeSlice (ProcessID current) (r_serviceTime st)
                                         (r_serviceTime st + 1)])).
    { apply (in_time_order_snoc _ _ (r_serviceTime st)); try assumption.
      cbn [Start]. lia. }
    assert (Hunits' : Forall (unit_slice processes)
                        (r_gantt st
                         ++ [mkTimeSlice (ProcessID current) (r_serviceTime st)
                                         (r_serviceTime st + 1)])).
    { apply Forall_app. split; [exact Hunits|]. constructor; [exact Hnew|constructor]. }
    assert (Hlater : Forall (fun q => ArrivalTime q <= r_serviceTime st + 1)
                       rest).
    { eapply Forall_impl; [exact Hqarr'|]. intros q Hq. cbv beta in *. lia. }
    rewrite Hremaining in *.
    destruct (Z.gtb_spec (BurstDuration current - 1) 0) as [Hmore|Hdone].
    + rewrite <- app_assoc. rewrite !dispatches_app in *.
      cbn [dispatches app] in *.
      split.
      { apply Forall_app in Hbursts as [Hrest Hlate].
        apply Forall_app. split; [exact Hrest|].
        constructor; [cbn [BurstDuration]; lia|exact Hlate]. }
      split.
      { apply Forall_app. split; [exact Hlater|].
        constructor; [cbn [ArrivalTime]; lia|constructor]. }
      split.
      { apply Forall_app. split; [exact Hcopies'|].
        constructor; [|constructor].
        destruct Hcopy as (p & Hp & Hid & Harr & Hprio).
        exists p. cbn. auto. }
      split; [lia|]. split; [lia|]. split; [lia|].
      split; [exact Hunits'|]. split; [exact Hstops'|exact Horder'].
    + split; [exact Hbursts|]. split; [exact Hlater|].
      split; [exact Hcopies'|]. split; [lia|]. split; [lia|]. split; [lia|].
      split; [exact Hunits'|]. split; [exact Hstops'|exact Horder'].
Qed.

Lemma rr_schedule_timing fuel o :
  returned (RRSchedule fuel processes) = Some o ->
  Forall (unit_slice processes) (out_gantt o)
  /\ in_time_order (out_gantt o).
Proof.
  unfold returned, RRSchedule. cbn [call_outcome].
  destruct (rr_loop fuel processes (rr_init (length processes)))
    as [[st'|st']|] eqn:Hloop; try discriminate.
  intros [= <-]. cbn [out_gantt averages].
  destruct (RRTraceFacts.rr_loop_keeps processes (rr_timing processes A))
    with (fuel := fuel) (st := rr_init (length processes)) (st' := st')
    as (_ & _ & _ & _ & _ & _ & _ & Hunits & _ & Horder).
  - exact rr_body_timing.
  - exact rr_init_timing.
  - cbn. lia.
  - exact Hloop.
  - split; assumption.
Qed.

End Timing.
End RRTimingFacts.

(** X18. Round-robin with its quantum of 1: on a batch of positive bursts
    whose arrival times are not negative and leave the clock room for all
    the bursts, every interval of the chart of [RRSchedule] is one unit of
    time of a process that has arrived, and the intervals follow one
    another in time without overlap. *)
Theorem rr_unit_slices (processes : list Process) (A : Z) :
  Forall valid_process processes ->
  Forall (fun p => 1 <= BurstDuration p) processes ->
  Forall (fun p => 0 <= ArrivalTime p <= A) processes ->
  0 <= A ->
  A + total_burst processes <= Int64.max_int ->
  forall fuel o,
    returned (RRSchedule fuel processes) = Some o ->
    Forall (unit_slice processes) (out_gantt o)
    /\ in_time_order (out_gantt o).
Proof.
  intros Hvalid Hbursts Harrivals HA Hroom fuel o Hret.
  assert (Hsum : Z.of_nat (dispatches processes) = total_burst processes).
  { clear -Hbursts. induction Hbursts as [|p l Hp _ IH];
      cbn [dispatches total_burst]; [reflexivity|].
    rewrite Nat2Z.inj_add, IH. unfold dispatches_of. lia. }
  rewrite <- Hsum in Hroom.
  exact (RRTimingFacts.rr_schedule_timing processes A Hvalid Hbursts Harrivals
           Hroom HA fuel o Hret).
Qed.

Lemma rr_unit_slices_witness :
  exists o,
    returned (RRSchedule 5 batch_round_robin) = Some o
    /\ Forall (unit_slice batch_round_robin) (out_gantt o)
    /\ in_time_order (out_gantt o).
Proof.
  destruct (returned (RRSchedule 5 batch_round_robin)) as [o|] eqn:Hret;
    [|vm_compute in Hret; discriminate Hret].
  exists o. split; [reflexivity|].
  refine (rr_unit_slices batch_round_robin 1 _ _ _ _ _ 5%nat o Hret);
    repeat constructor; vm_compute; intros H; discriminate H.
Defined.

(** ** Rows and the end of the intervals *)

Module CompletionFacts.





Section SJF.
Variable key : Process -> Z.
Variable processes : list Process.



End SJF.


End CompletionFacts.

(** ** The rows of round-robin and the last interval of a process *)

Module LastDispatchFacts.




Section Rows.
Variable processes : list Process.
Hypothesis valid : Forall valid_process processes.





End Rows.
End LastDispatchFacts.

(** ** The time that a process of round-robin waits *)

Module WaitedFacts.











End WaitedFacts.




(** ** The program *)

Module ProgramFacts.

Section Program.

Variable os_Open : string -> File + string.

Variable outputSchedule :
  string -> list (option Row) -> Float64.t -> Float64.t -> Float64.t -> string.

Lemma schedulers_no_exit fuel processes w status :
  schedulers outputSchedule fuel processes w <> Some (Exits status).
Proof.
  unfold schedulers. cbv zeta.
  destruct (scheduler _ w "First-come, first-serve" _) as [[w1| |]|] eqn:H1;
    try discriminate;
    [|intros _; exact (OutputFacts.scheduler_no_exit _ _ _ _ _ H1)].
  destruct (scheduler _ w1 "Shortest-job-first" _) as [[w2| |]|] eqn:H2;
    try discriminate;
    [|intros _; exact (OutputFacts.scheduler_no_exit _ _ _ _ _ H2)].
  destruct (scheduler _ w2 "Priority" _) as [[w3| |]|] eqn:H3;
    try discriminate;
    [|intros _; exact (OutputFacts.scheduler_no_exit _ _ _ _ _ H3)].
  apply OutputFacts.scheduler_no_exit.
Qed.

Lemma schedulers_late fuel processes w :
  processes <> [] ->
  Forall (fun p => 0 < ArrivalTime p) processes ->
  schedulers outputSchedule fuel processes w = Some Panics.
Proof.
  intros Hne Hlate. unfold schedulers. cbv zeta.
  destruct (scheduler _ w "First-come, first-serve" _) as [[w1| |]|] eqn:H1.
  - cbn [FCFSSchedule call_processes].
    unfold scheduler at 1, SJFSchedule.
    rewrite (sjf_schedule_late burst_key processes Hne Hlate). reflexivity.
  - exfalso. exact (OutputFacts.scheduler_no_exit _ _ _ _ _ H1).
  - reflexivity.
  - unfold scheduler in H1. cbn [FCFSSchedule call_outcome] in H1.
    discriminate H1.
Qed.

Lemma schedulers_returns fuel processes w out :
  schedulers outputSchedule fuel processes w = Some (Returns out) ->
  exists o w',
    returned (RRSchedule fuel (Sort.Slice arrival_less processes)) = Some o
    /\ output outputSchedule w' "Round-robin" o = Returns out.
Proof.
  unfold schedulers. cbv zeta.
  destruct (scheduler _ w "First-come, first-serve" _) as [[w1| |]|];
    try discriminate.
  destruct (scheduler _ w1 "Shortest-job-first" _) as [[w2| |]|];
    try discriminate.
  destruct (scheduler _ w2 "Priority" _) as [[w3| |]|]; try discriminate.
  intros Hrr. apply OutputFacts.scheduler_returns in Hrr as (o & Ho & Hout).
  exists o, w3. split; [|exact Hout].
  cbn [FCFSSchedule call_processes] in Ho.
  unfold SJFPrioritySchedule, SJFSchedule, sjf_schedule in Ho.
  cbv zeta in Ho. cbn [call_processes] in Ho.
  rewrite (OrderedFacts.Slice_ordered arrival_less
             (Sort.Slice arrival_less processes)) in Ho
    by (apply arrival_sorted_in_order, Slice_arrival_sorted).
  exact Ho.
Qed.

(** The part of [main] between the opening of the file and the deferred
    call. *)
Lemma main_opened fuel args w f :
  openProcessingFile os_Open args = inl f ->
  main os_Open outputSchedule fuel args w
  = deferred (closeFile f)
      match loadProcesses (file_records f) with
      | Returns (inl processes) => schedulers outputSchedule fuel processes w
      | Returns (inr err) => Some (Exits 1)
      | Exits status => Some (Exits status)
      | Panics => Some Panics
      end.
Proof. intros Hopen. unfold main. rewrite Hopen. reflexivity. Qed.

Lemma loadProcesses_exit read status :
  loadProcesses read = Exits status -> status = 1.
Proof.
  destruct read as [rows|err]; cbn [loadProcesses]; [|discriminate].
  destruct (load_rows rows 0 _) as [ps| |] eqn:Hrows;
    cbn [mbind Run_bind]; try discriminate.
  intros [= <-]. exact (LoadFacts.load_rows_exit _ _ _ _ Hrows).
Qed.

Lemma loadProcesses_error read err :
  loadProcesses read = Returns (inr err)
  <-> exists e, read = inr e /\ err = e +:+ ": reading CSV".
Proof.
  destruct read as [rows|e]; cbn [loadProcesses].
  - split.
    + destruct (load_rows rows 0 _); cbn [mbind Run_bind]; discriminate.
    + intros (e & He & _). discriminate He.
  - split.
    + intros [= <-]. exists e. split; reflexivity.
    + intros (e' & [= <-] & ->). reflexivity.
Qed.

End Program.
End ProgramFacts.

(** X19. A batch that is not empty and has no process arriving at time 0
    or before never gets its four schedules: [main] panics, in
    [SJFSchedule] after the first-come, first-served schedule is written
    (or while the chart of that one is written), so that the priority and
    round-robin schedulers are not called. When the deferred call fails to
    close the file, the program that was panicking exits with status 1. *)
Theorem main_late_batch os_Open outputSchedule (fuel : nat)
    (args : list string) (f : File) (processes : list Process) (w : string) :
  openProcessingFile os_Open args = inl f ->
  loadProcesses (file_records f) = Returns (inl processes) ->
  processes <> [] ->
  Forall (fun p => 0 < ArrivalTime p) processes ->
  main os_Open outputSchedule fuel args w
  = Some match file_close f with
         | None => Panics
         | Some _ => Exits 1
         end.
Proof.
  intros Hopen Hload Hne Hlate.
  rewrite (ProgramFacts.main_opened _ _ _ _ _ _ Hopen), Hload.
  rewrite (ProgramFacts.schedulers_late outputSchedule fuel processes w Hne
             Hlate).
  unfold deferred, closeFile. destruct (file_close f); reflexivity.
Qed.

Lemma main_late_batch_witness :
  main (fun _ => inl (mkFile (inl (map record_of batch_late_arrival)) None))
       (fun w _ _ _ _ => w) 5 ["scheduler"; "late.csv"] ""
  = Some Panics.
Proof.
  apply (main_late_batch
           (fun _ => inl (mkFile (inl (map record_of batch_late_arrival))
                                 None))
           (fun w _ _ _ _ => w) 5%nat ["scheduler"; "late.csv"]
           (mkFile (inl (map record_of batch_late_arrival)) None)
           batch_late_arrival "").
  - reflexivity.
  - vm_compute. reflexivity.
  - discriminate.
  - repeat constructor.
Defined.

(** X20. The four schedulers of [main] share one slice, which
    [SJFSchedule] sorts in place: when [main] runs to its end, the file
    was opened, loaded and closed, and the round-robin schedule that
    [main] writes last is that of the batch in ascending order of arrival,
    not of the batch in the order of the file. *)
Theorem main_round_robin_input os_Open outputSchedule (fuel : nat)
    (args : list string) (w out : string) :
  main os_Open outputSchedule fuel args w = Some (Returns out) ->
  exists f processes o w',
    openProcessingFile os_Open args = inl f
    /\ file_close f = None
    /\ loadProcesses (file_records f) = Returns (inl processes)
    /\ Sort.Slice arrival_less processes ≡ₚ processes
    /\ arrival_sorted (Sort.Slice arrival_less processes)
    /\ returned (RRSchedule fuel (Sort.Slice arrival_less processes)) = Some o
    /\ output outputSchedule w' "Round-robin" o = Returns out.
Proof.
  unfold main.
  destruct (openProcessingFile os_Open args) as [f|err]; [|discriminate].
  destruct (loadProcesses (file_records f)) as [[processes|err]| |]
    eqn:Hload; try discriminate;
    [|unfold deferred, closeFile; destruct (file_close f); discriminate].
  unfold deferred, closeFile.
  destruct (schedulers outputSchedule fuel processes w) as [[out'| |]|]
    eqn:Hrun; try discriminate;
    [|destruct (file_close f); discriminate].
  destruct (file_close f) as [err|] eqn:Hclose; cbn [mbind Run_bind];
    [discriminate|].
  intros [= <-].
  destruct (ProgramFacts.schedulers_returns _ _ _ _ _ Hrun)
    as (o & w' & Ho & Hout).
  exists f, processes, o, w'. split; [reflexivity|].
  split; [exact Hclose|]. split; [exact Hload|].
  split; [apply SortFacts.Slice_perm|]. split; [apply Slice_arrival_sorted|].
  split; assumption.
Qed.

Lemma main_round_robin_input_witness :
  exists out f processes o w',
    main (fun _ => inl (mkFile (inl (map record_of batch_out_of_order)) None))
         (fun w _ _ _ _ => w) 5 ["scheduler"; "batch.csv"] ""
    = Some (Returns out)
    /\ openProcessingFile
         (fun _ => inl (mkFile (inl (map record_of batch_out_of_order)) None))
         ["scheduler"; "batch.csv"] = inl f
    /\ file_close f = None
    /\ loadProcesses (file_records f) = Returns (inl processes)
    /\ Sort.Slice arrival_less processes ≡ₚ processes
    /\ arrival_sorted (Sort.Slice arrival_less processes)
    /\ returned (RRSchedule 5 (Sort.Slice arrival_less processes)) = Some o
    /\ output (fun w _ _ _ _ => w) w' "Round-robin" o = Returns out.
Proof.
  destruct (main (fun _ => inl (mkFile (inl (map record_of batch_out_of_order))
                                       None))
                 (fun w _ _ _ _ => w) 5 ["scheduler"; "batch.csv"] "")
    as [[out| |]|] eqn:Hrun;
    [|vm_compute in Hrun; discriminate Hrun..].
  destruct (main_round_robin_input _ _ _ _ _ _ Hrun)
    as (f & processes & o & w' & H).
  exists out, f, processes, o, w'. split; [reflexivity|exact H].
Defined.

(** X21. [main] ends with an exit status in these cases only, and the
    status is then 1: the arguments are not the program and one path, the
    file cannot be opened, its records cannot be read, a field that
    [loadProcesses] reads is not a number, or the deferred call fails to
    close the file after [main] has returned or panicked. No scheduler
    and no output helper ends the program in that way. *)
Theorem main_exit_status os_Open outputSchedule (fuel : nat)
    (args : list string) (w : string) (status : Z) :
  main os_Open outputSchedule fuel args w = Some (Exits status)
  <-> status = 1
      /\ ((exists err, openProcessingFile os_Open args = inr err)
          \/ exists f,
               openProcessingFile os_Open args = inl f
               /\ ((exists err, file_records f = inr err)
                   \/ loadProcesses (file_records f) = Exits 1
                   \/ (file_close f <> None
                       /\ (loadProcesses (file_records f) = Panics
                           \/ exists processes,
                                loadProcesses (file_records f)
                                = Returns (inl processes)
                                /\ schedulers outputSchedule fuel processes w
                                   <> None)))).
Proof.
  unfold main.
  destruct (openProcessingFile os_Open args) as [f|err].
  2:{ split.
      - intros [= <-]. split; [reflexivity|]. left. eexists. reflexivity.
      - intros [-> _]. reflexivity. }
  split.
  - intros Hrun.
    assert (Hone : status = 1 /\
              ((exists err, file_records f = inr err)
               \/ loadProcesses (file_records f) = Exits 1
               \/ (file_close f <> None
                   /\ (loadProcesses (file_records f) = Panics
                       \/ exists processes,
                            loadProcesses (file_records f)
                            = Returns (inl processes)
                            /\ schedulers outputSchedule fuel processes w
                               <> None)))).
    { destruct (loadProcesses (file_records f)) as [[processes|err]| |]
        eqn:Hload.
      - unfold deferred, closeFile in Hrun.
        destruct (schedulers outputSchedule fuel processes w) as [[out| |]|]
          eqn:Hsched.
        + destruct (file_close f) eqn:Hclose; cbn [mbind Run_bind] in Hrun;
            [|discriminate].
          injection Hrun as <-. split; [reflexivity|]. right. right.
          split; [discriminate|]. right. exists processes.
          split; [reflexivity|]. rewrite Hsched. discriminate.
        + exfalso.
          exact (ProgramFacts.schedulers_no_exit _ _ _ _ _ Hsched).
        + destruct (file_close f) eqn:Hclose; [|discriminate].
          injection Hrun as <-. split; [reflexivity|]. right. right.
          split; [discriminate|]. right. exists processes.
          split; [reflexivity|]. rewrite Hsched. discriminate.
        + discriminate.
      - cbn [deferred] in Hrun. injection Hrun as <-.
        split; [reflexivity|]. left.
        apply ProgramFacts.loadProcesses_error in Hload as (e & He & _).
        exists e. exact He.
      - cbn [deferred] in Hrun. injection Hrun as <-.
        pose proof (ProgramFacts.loadProcesses_exit _ _ Hload) as ->.
        split; [reflexivity|]. right. left. reflexivity.
      - unfold deferred, closeFile in Hrun.
        destruct (file_close f) eqn:Hclose; [|discriminate].
        injection Hrun as <-. split; [reflexivity|]. right. right.
        split; [discriminate|]. left. reflexivity. }
    destruct Hone as [-> Hcases]. split; [reflexivity|].
    right. exists f. split; [reflexivity|exact Hcases].
  - intros [-> [[err Herr]|(f' & [= <-] & Hcases)]]; [discriminate Herr|].
    destruct Hcases as [[err Hread]|[Hexit|[Hclose Hbody]]].
    + rewrite Hread. reflexivity.
    + rewrite Hexit. reflexivity.
    + unfold deferred, closeFile.
      destruct (file_close f) as [err|]; [|congruence].
      destruct Hbody as [->|(processes & -> & Hsched)]; [reflexivity|].
      destruct (schedulers outputSchedule fuel processes w) as [[out| |]|]
        eqn:Hrun; try congruence; try reflexivity.
      exfalso. exact (ProgramFacts.schedulers_no_exit _ _ _ _ _ Hrun).
Qed.
